(** * Movie watchlist & recommendation API: the movie cache and the
      recommendation engine

    A shallow embedding of the Go sources

    - [internal/repositories/movie_repository.go]   (MovieRepository),
    - [internal/repositories/recommendation_repository.go],
    - [internal/services/movie_service.go]          (GetMovieDetails),
    - [internal/services/recommendation_service.go],

    with the MongoDB collections, the OMDb catalog and the clock made
    explicit as a state that every operation threads through. *)

From Stdlib Require Import ZArith NArith Ascii String List Permutation Sorted Lia.
From stdpp Require Import gmap strings list.

Local Open Scope Z_scope.

(* ===================================================================== *)
(** * Byte strings *)
(* ===================================================================== *)

(** Go strings and BSON strings are byte sequences holding UTF-8. *)

Module Bytes.

Definition of_string (s : string) : list N :=
  map N_of_ascii (list_ascii_of_string s).

Definition to_string (l : list N) : string :=
  string_of_list_ascii (map ascii_of_N l).

(** A set of white space runes, given by the UTF-8 encodings of its
    members: one-byte, two-byte and three-byte sequences. *)
Record spaces := {
  sp1 : N -> bool;
  sp2 : N -> N -> bool;
  sp3 : N -> N -> N -> bool
}.

(** Drop white space runes from the front. *)
Fixpoint trim_front (ws : spaces) (l : list N) : list N :=
  match l with
  | a :: t =>
      if sp1 ws a then trim_front ws t
      else match t with
           | b :: t2 =>
               if sp2 ws a b then trim_front ws t2
               else match t2 with
                    | c :: t3 => if sp3 ws a b c then trim_front ws t3 else l
                    | [] => l
                    end
           | [] => l
           end
  | [] => []
  end.

(** The same set read from the last byte backwards. *)
Definition mirrored (ws : spaces) : spaces :=
  {| sp1 := sp1 ws;
     sp2 := fun a b => sp2 ws b a;
     sp3 := fun a b c => sp3 ws c b a |}.

Definition trim_back (ws : spaces) (l : list N) : list N :=
  rev (trim_front (mirrored ws) (rev l)).

Definition trim (ws : spaces) (s : string) : string :=
  to_string (trim_back ws (trim_front ws (of_string s))).

(** Split at every occurrence of the one-byte separator [sep]; the
    result always has one more piece than there are separators. *)
Fixpoint split_on (sep : ascii) (s : string) : list string :=
  match s with
  | EmptyString => [EmptyString]
  | String c rest =>
      if Ascii.eqb c sep then EmptyString :: split_on sep rest
      else match split_on sep rest with
           | piece :: pieces => String c piece :: pieces
           | [] => [String c EmptyString]
           end
  end.

End Bytes.

(** ** [strings.TrimSpace] of Go *)

Module strings.

(** [unicode.IsSpace]: in Latin-1 the runes '\t' '\n' '\v' '\f' '\r' ' '
    U+0085 U+00A0, beyond it U+1680, U+2000..U+200A, U+2028, U+2029,
    U+202F, U+205F, U+3000. *)
Definition IsSpace : Bytes.spaces :=
  {| Bytes.sp1 := fun a => ((9 <=? a) && (a <=? 13) || (a =? 32))%N;
     Bytes.sp2 := fun a b => ((a =? 194) && ((b =? 133) || (b =? 160)))%N;
     Bytes.sp3 := fun a b c =>
       ((a =? 225) && (b =? 154) && (c =? 128)
        || (a =? 226) && (b =? 128)
           && ((128 <=? c) && (c <=? 138) || (c =? 168) || (c =? 169) || (c =? 175))
        || (a =? 226) && (b =? 129) && (c =? 159)
        || (a =? 227) && (b =? 128) && (c =? 128))%N |}.

Definition TrimSpace (s : string) : string := Bytes.trim IsSpace s.

End strings.

(** ** String operators of the MongoDB aggregation language *)

Module mongo_expr.

(** The default character set of [$trim]: U+0000, U+0020, U+0009..U+000D,
    U+00A0, U+1680 and U+2000..U+200A. *)
Definition trim_default : Bytes.spaces :=
  {| Bytes.sp1 := fun a => ((a =? 0) || (9 <=? a) && (a <=? 13) || (a =? 32))%N;
     Bytes.sp2 := fun a b => ((a =? 194) && (b =? 160))%N;
     Bytes.sp3 := fun a b c =>
       ((a =? 225) && (b =? 154) && (c =? 128)
        || (a =? 226) && (b =? 128) && (128 <=? c) && (c <=? 138))%N |}.

(** [{"$trim": {"input": s}}] *)
Definition op_trim (s : string) : string := Bytes.trim trim_default s.

(** [{"$split": [s, ","]}] *)
Definition op_split (s : string) : list string := Bytes.split_on ","%char s.

End mongo_expr.


(* ===================================================================== *)
(** * Data model ([internal/models]) *)
(* ===================================================================== *)

(** [primitive.ObjectID]; [0] is the zero value, the one [IsZero] accepts. *)
Definition ObjectID := N.

(** [time.Time], as a reading of the clock. *)
Definition Time := N.

Module Movie.
Record t := {
  ID : ObjectID;
  IMDbID : string;
  Title : string;
  Year : string;
  Genre : string;
  Director : string;
  Plot : string;
  Poster : string;
  Runtime : string;
  IMDbRating : string;
  CachedAt : Time;
  CreatedAt : Time;
  UpdatedAt : Time
}.
End Movie.

Module Watchlist.
Record t := {
  ID : ObjectID;
  UserID : ObjectID;
  MovieID : ObjectID;
  AddedAt : Time;
  CreatedAt : Time;
  UpdatedAt : Time
}.
End Watchlist.

Module Rating.
Record t := {
  ID : ObjectID;
  UserID : ObjectID;
  MovieID : ObjectID;
  Rating : Z;
  CreatedAt : Time;
  UpdatedAt : Time
}.
End Rating.

(** The JSON document OMDb answers a detail request with. *)
Module OMDbResponse.
Record t := {
  Title : string;
  Year : string;
  IMDbID : string;
  Genre : string;
  Director : string;
  Plot : string;
  Poster : string;
  Runtime : string;
  IMDbRating : string;
  Response : string;
  Error : string
}.
End OMDbResponse.

(* ===================================================================== *)
(** * Errors, outcomes and the world *)
(* ===================================================================== *)

Inductive GoError :=
| mongo_ErrNoDocuments                        (* mongo.ErrNoDocuments *)
| mongo_DuplicateKey                          (* write error E11000 *)
| mongo_DriverError                           (* any other driver or server error *)
| http_Error                                  (* error of net/http *)
| json_Error                                  (* error of encoding/json *)
| Errorf (msg : string)                       (* fmt.Errorf(msg) and fmt.Errorf("..%s", s) *)
| Errorf_d (msg : string) (d : Z)             (* fmt.Errorf("..%d", d) *)
| Errorf_w (msg : string) (cause : GoError).  (* fmt.Errorf("..%w", err) *)

(** What a Go call comes back with: a value with a nil error, a non-nil
    error, or a run-time panic. *)
Inductive outcome (A : Type) :=
| Ok (a : A)
| Err (e : GoError)
| Panic (msg : string).
Arguments Ok {A} a.
Arguments Err {A} e.
Arguments Panic {A} msg.

(** What one detail request [GET /?apikey=..&i=..] leads to. *)
Inductive HttpOutcome :=
| NewRequestFails                  (* http.NewRequestWithContext errs, nothing is sent *)
| DoFails                          (* client.Do errs: no connection, timeout *)
| HttpResponse (StatusCode : Z) (body : option OMDbResponse.t).
                                   (* [None]: the body does not decode *)

(** The parts of the surroundings that the code reads but never changes. *)
Record Env := {
  apiKey : string;
  (** the catalog: what a detail request for an IMDb ID leads to *)
  omdb : string -> HttpOutcome;
  (** the regular expression engine of the store, for [$regex] with option
      [i]: [None] when the pattern does not compile *)
  regex_i : string -> option (string -> bool);
  (** the order in which the store's [$group] stage emits its groups, as a
      rearrangement of the order of first occurrence *)
  group_order : list (string * Z) -> list (string * Z)
}.

(** The mutable surroundings. A collection is the list of its documents in
    natural (scan) order. *)
Record World := {
  movies : list Movie.t;
  ratings : list Rating.t;
  watchlists : list Watchlist.t;
  (** for each driver call still to come, whether it fails; none fails once
      the list is used up *)
  db_faults : list bool;
  (** source of [primitive.NewObjectID], which never makes the zero ID *)
  next_oid : positive;
  (** the clock *)
  clock : Time;
  (** the IMDb IDs of the detail requests sent to OMDb, oldest first *)
  omdb_calls : list string
}.

Definition set_movies (ms : list Movie.t) (w : World) : World :=
  {| movies := ms; ratings := ratings w; watchlists := watchlists w;
     db_faults := db_faults w; next_oid := next_oid w; clock := clock w;
     omdb_calls := omdb_calls w |}.

Definition set_db_faults (fs : list bool) (w : World) : World :=
  {| movies := movies w; ratings := ratings w; watchlists := watchlists w;
     db_faults := fs; next_oid := next_oid w; clock := clock w;
     omdb_calls := omdb_calls w |}.

Definition set_next_oid (n : positive) (w : World) : World :=
  {| movies := movies w; ratings := ratings w; watchlists := watchlists w;
     db_faults := db_faults w; next_oid := n; clock := clock w;
     omdb_calls := omdb_calls w |}.

Definition set_clock (t : Time) (w : World) : World :=
  {| movies := movies w; ratings := ratings w; watchlists := watchlists w;
     db_faults := db_faults w; next_oid := next_oid w; clock := t;
     omdb_calls := omdb_calls w |}.

Definition set_omdb_calls (cs : list string) (w : World) : World :=
  {| movies := movies w; ratings := ratings w; watchlists := watchlists w;
     db_faults := db_faults w; next_oid := next_oid w; clock := clock w;
     omdb_calls := cs |}.

(** ** The monad of Go calls *)

Definition M (A : Type) : Type := World -> outcome A * World.

Definition ret {A} (a : A) : M A := fun w => (Ok a, w).

Definition throw {A} (e : GoError) : M A := fun w => (Err e, w).

Definition panic {A} (msg : string) : M A := fun w => (Panic msg, w).

(** [x, err := m; if err != nil { return nil, err }; k x] *)
Definition bind {A B} (m : M A) (k : A -> M B) : M B := fun w =>
  match m w with
  | (Ok a, w') => k a w'
  | (Err e, w') => (Err e, w')
  | (Panic msg, w') => (Panic msg, w')
  end.

(** [x, err := m; k (x, err)]: the caller looks at the error itself. *)
Definition attempt {A B} (m : M A) (k : A + GoError -> M B) : M B := fun w =>
  match m w with
  | (Ok a, w') => k (inl a) w'
  | (Err e, w') => k (inr e) w'
  | (Panic msg, w') => (Panic msg, w')
  end.

Declare Scope go_scope.
Delimit Scope go_scope with go.
Notation "'let!' x ':=' m 'in' k" := (bind m (fun x => k))
  (at level 10, x name, m at level 100, k at level 200) : go_scope.
Notation "'let?' x ':=' m 'in' k" := (attempt m (fun x => k))
  (at level 10, x name, m at level 100, k at level 200) : go_scope.
Local Open Scope go_scope.

(** ** Library calls *)

(** [primitive.NewObjectID()] *)
Definition NewObjectID : M ObjectID := fun w =>
  (Ok (Npos (next_oid w)), set_next_oid (Pos.succ (next_oid w)) w).

(** [time.Now()] *)
Definition time_Now : M Time := fun w =>
  (Ok (clock w), set_clock (N.succ (clock w)) w).

(** One call into the MongoDB driver (a query with the decoding of its
    cursor, or a write): it fails when the store says so, and runs [f] on
    the collections otherwise. *)
Definition driver_call {A} (f : M A) : M A := fun w =>
  match db_faults w with
  | true :: rest => (Err mongo_DriverError, set_db_faults rest w)
  | false :: rest => f (set_db_faults rest w)
  | [] => f w
  end.

(** [collection.FindOne(ctx, filter).Decode(&movie)] on "movies" *)
Definition movies_FindOne (filter : Movie.t -> bool) : M Movie.t :=
  driver_call (fun w =>
    match List.find filter (movies w) with
    | Some m => (Ok m, w)
    | None => (Err mongo_ErrNoDocuments, w)
    end).

(** [collection.InsertOne(ctx, movie)] on "movies"; the collection has the
    unique index on [_id] and the one [createIndexes] puts on [imdb_id].
    The tag [_id,omitempty] leaves a zero ID out of the document, and the
    driver then makes one. The result is the inserted [_id]. The time
    stamps go in at the clock's resolution: that the driver keeps a
    [time.Time] in whole milliseconds only is not modelled. *)
Definition movies_InsertOne (m : Movie.t) : M ObjectID :=
  driver_call (
    let! id := (if (Movie.ID m =? 0)%N then NewObjectID else ret (Movie.ID m)) in
    fun w =>
      if existsb (fun d => (Movie.ID d =? id)%N
                           || String.eqb (Movie.IMDbID d) (Movie.IMDbID m)) (movies w)
      then (Err mongo_DuplicateKey, w)
      else
        let doc := {| Movie.ID := id; Movie.IMDbID := Movie.IMDbID m;
                      Movie.Title := Movie.Title m; Movie.Year := Movie.Year m;
                      Movie.Genre := Movie.Genre m; Movie.Director := Movie.Director m;
                      Movie.Plot := Movie.Plot m; Movie.Poster := Movie.Poster m;
                      Movie.Runtime := Movie.Runtime m;
                      Movie.IMDbRating := Movie.IMDbRating m;
                      Movie.CachedAt := Movie.CachedAt m;
                      Movie.CreatedAt := Movie.CreatedAt m;
                      Movie.UpdatedAt := Movie.UpdatedAt m |} in
        (Ok id, set_movies (movies w ++ [doc]) w)).

(** [collection.Find(ctx, filter, opts)] followed by [cursor.All]: [q]
    computes the documents from the collections, or the server's refusal. *)
Definition driver_query {A} (q : World -> outcome A) : M A :=
  driver_call (fun w => (q w, w)).

(** A stable sort: [x] goes behind the elements that [first] puts ahead of
    it and before all others, so that documents the order does not tell
    apart stay as they were. *)
Fixpoint sort_insert {A} (first : A -> A -> bool) (x : A) (l : list A) : list A :=
  match l with
  | [] => [x]
  | y :: t => if first y x then y :: sort_insert first x t else x :: y :: t
  end.

Definition sort_stable {A} (first : A -> A -> bool) (l : list A) : list A :=
  fold_right (sort_insert first) [] l.

(** [first] for [{"imdb_rating": -1}]: the field is a BSON string, and
    strings are ordered byte by byte; descending. *)
Definition imdb_rating_desc (a b : Movie.t) : bool :=
  String.ltb (Movie.IMDbRating b) (Movie.IMDbRating a).

(** [first] for [{"count": -1}]. *)
Definition count_desc (a b : string * Z) : bool := snd b <? snd a.

(* ===================================================================== *)
(** * MovieRepository *)
(* ===================================================================== *)

Definition getCurrentTime : M Time := time_Now.

Definition is_ErrNoDocuments (e : GoError) : bool :=
  match e with mongo_ErrNoDocuments => true | _ => false end.

Definition Create (movie : Movie.t) : M Movie.t :=
  let! created := getCurrentTime in
  let! updated := getCurrentTime in
  let! cached := time_Now in
  let! id := (if (Movie.ID movie =? 0)%N then NewObjectID else ret (Movie.ID movie)) in
  let movie :=
    {| Movie.ID := id; Movie.IMDbID := Movie.IMDbID movie;
       Movie.Title := Movie.Title movie; Movie.Year := Movie.Year movie;
       Movie.Genre := Movie.Genre movie; Movie.Director := Movie.Director movie;
       Movie.Plot := Movie.Plot movie; Movie.Poster := Movie.Poster movie;
       Movie.Runtime := Movie.Runtime movie;
       Movie.IMDbRating := Movie.IMDbRating movie;
       Movie.CachedAt := cached; Movie.CreatedAt := created;
       Movie.UpdatedAt := updated |} in
  let! inserted := movies_InsertOne movie in
  ret (if (Movie.ID movie =? 0)%N
       then {| Movie.ID := inserted; Movie.IMDbID := Movie.IMDbID movie;
               Movie.Title := Movie.Title movie; Movie.Year := Movie.Year movie;
               Movie.Genre := Movie.Genre movie; Movie.Director := Movie.Director movie;
               Movie.Plot := Movie.Plot movie; Movie.Poster := Movie.Poster movie;
               Movie.Runtime := Movie.Runtime movie;
               Movie.IMDbRating := Movie.IMDbRating movie;
               Movie.CachedAt := cached; Movie.CreatedAt := created;
               Movie.UpdatedAt := updated |}
       else movie).

(** A miss is [(nil, nil)]: [Ok None]. *)
Definition FindByIMDbID (imdbID : string) : M (option Movie.t) :=
  let? r := movies_FindOne (fun d => String.eqb (Movie.IMDbID d) imdbID) in
  match r with
  | inl movie => ret (Some movie)
  | inr err => if is_ErrNoDocuments err then ret None else throw err
  end.

Definition FindAll : M (list Movie.t) :=
  driver_query (fun w => Ok (movies w)).

(** The detail request: the lines from [url.QueryEscape] to the check for
    API-level errors, which [GetOrCreateByIMDbID], [GetMovieDetails] and
    [fetchMovieDetails] each spell out in the same words. *)
Definition omdb_detail (env : Env) (imdbID : string) : M OMDbResponse.t :=
  match omdb env imdbID with
  | NewRequestFails => throw (Errorf_w "failed to create request: %w" http_Error)
  | DoFails => fun w =>
      (Err (Errorf_w "failed to make request to OMDb API: %w" http_Error),
       set_omdb_calls (omdb_calls w ++ [imdbID]) w)
  | HttpResponse StatusCode body => fun w =>
      let w := set_omdb_calls (omdb_calls w ++ [imdbID]) w in
      if negb (StatusCode =? 200)
      then (Err (Errorf_d "OMDb API returned status code: %d" StatusCode), w)
      else match body with
           | None => (Err (Errorf_w "failed to decode OMDb API response: %w" json_Error), w)
           | Some omdbResp =>
               if String.eqb (OMDbResponse.Response omdbResp) "False"
               then if negb (String.eqb (OMDbResponse.Error omdbResp) "")
                    then (Err (Errorf ("OMDb API error: " +:+ OMDbResponse.Error omdbResp)), w)
                    else (Err (Errorf "OMDb API returned an error response"), w)
               else (Ok omdbResp, w)
           end
  end.

(** Steps 1 to 3 of [GetOrCreateByIMDbID]: the lookup and, on a miss, the
    fetch, the validation and the construction of the record. The result is
    the record found ([inl]) or the record to insert ([inr]). *)
Definition GetOrCreateByIMDbID_lookup_fetch (env : Env) (imdbID : string)
  : M (Movie.t + Movie.t) :=
  (* 1. Try to find existing movie *)
  let? r := movies_FindOne (fun d => String.eqb (Movie.IMDbID d) imdbID) in
  match r with
  | inl movie => ret (inl movie)
  | inr err =>
      if negb (is_ErrNoDocuments err) then throw err
      (* 2. Fetch full movie details from OMDb *)
      else if String.eqb (apiKey env) "" then throw (Errorf "OMDb API key not configured")
      else
        let! omdbResp := omdb_detail env imdbID in
        (* Validate required fields *)
        if String.eqb (OMDbResponse.IMDbID omdbResp) ""
        then throw (Errorf "invalid movie data: missing IMDb ID")
        else if String.eqb (OMDbResponse.Title omdbResp) ""
        then throw (Errorf "invalid movie data: missing title")
        else if String.eqb (OMDbResponse.Genre omdbResp) ""
        then throw (Errorf "invalid movie data: missing genre")
        else
          (* 3. Construct MongoDB movie with full details *)
          let! id := NewObjectID in
          let! cached := time_Now in
          let! created := getCurrentTime in
          let! updated := getCurrentTime in
          ret (inr
            {| Movie.ID := id;
               Movie.IMDbID := OMDbResponse.IMDbID omdbResp;
               Movie.Title := strings.TrimSpace (OMDbResponse.Title omdbResp);
               Movie.Year := strings.TrimSpace (OMDbResponse.Year omdbResp);
               Movie.Genre := strings.TrimSpace (OMDbResponse.Genre omdbResp);
               Movie.Director := strings.TrimSpace (OMDbResponse.Director omdbResp);
               Movie.Plot := strings.TrimSpace (OMDbResponse.Plot omdbResp);
               Movie.Poster := strings.TrimSpace (OMDbResponse.Poster omdbResp);
               Movie.Runtime := strings.TrimSpace (OMDbResponse.Runtime omdbResp);
               Movie.IMDbRating := strings.TrimSpace (OMDbResponse.IMDbRating omdbResp);
               Movie.CachedAt := cached;
               Movie.CreatedAt := created;
               Movie.UpdatedAt := updated |})
  end.

(** Steps 4 and 5: the insert and the return. *)
Definition GetOrCreateByIMDbID_insert (movie : Movie.t) : M Movie.t :=
  let? r := movies_InsertOne movie in
  match r with
  | inr err => throw (Errorf_w "failed to cache movie data: %w" err)
  | inl _ => ret movie
  end.

Definition GetOrCreateByIMDbID (env : Env) (imdbID : string) : M Movie.t :=
  let! r := GetOrCreateByIMDbID_lookup_fetch env imdbID in
  match r with
  | inl movie => ret movie
  | inr movie => GetOrCreateByIMDbID_insert movie
  end.

(* ===================================================================== *)
(** * MovieService *)
(* ===================================================================== *)

Definition GetMovieDetails (env : Env) (imdbID : string) : M (option Movie.t) :=
  (* Validate IMDb ID format *)
  if String.eqb (strings.TrimSpace imdbID) "" then throw (Errorf "IMDb ID cannot be empty")
  else
    (* Check cache first *)
    let? r := FindByIMDbID imdbID in
    match r with
    | inl movie => ret movie
    | inr _ =>
        if String.eqb (apiKey env) "" then throw (Errorf "OMDb API key not configured")
        else
          let! omdbResp := omdb_detail env imdbID in
          if String.eqb (OMDbResponse.IMDbID omdbResp) ""
          then throw (Errorf "invalid movie data: missing IMDb ID")
          else if String.eqb (OMDbResponse.Title omdbResp) ""
          then throw (Errorf "invalid movie data: missing title")
          else
            let! id := NewObjectID in
            let! cached := time_Now in
            let! created := time_Now in
            let! updated := time_Now in
            let movie :=
              {| Movie.ID := id;
                 Movie.IMDbID := OMDbResponse.IMDbID omdbResp;
                 Movie.Title := strings.TrimSpace (OMDbResponse.Title omdbResp);
                 Movie.Year := strings.TrimSpace (OMDbResponse.Year omdbResp);
                 Movie.Genre := strings.TrimSpace (OMDbResponse.Genre omdbResp);
                 Movie.Director := strings.TrimSpace (OMDbResponse.Director omdbResp);
                 Movie.Plot := strings.TrimSpace (OMDbResponse.Plot omdbResp);
                 Movie.Poster := strings.TrimSpace (OMDbResponse.Poster omdbResp);
                 Movie.Runtime := strings.TrimSpace (OMDbResponse.Runtime omdbResp);
                 Movie.IMDbRating := strings.TrimSpace (OMDbResponse.IMDbRating omdbResp);
                 Movie.CachedAt := cached;
                 Movie.CreatedAt := created;
                 Movie.UpdatedAt := updated |} in
            let? c := Create movie in
            match c with
            | inr err => throw (Errorf_w "failed to cache movie data: %w" err)
            | inl movie => ret (Some movie)
            end
    end.

(* ===================================================================== *)
(** * RecommendationRepository *)
(* ===================================================================== *)

(** ** The aggregation pipeline of [GetHighRatedGenres] *)

(** Stages 1 to 3: [$match] on user and threshold, [$lookup] of the movie
    by [_id], [$unwind]: one document for each pair of a qualifying rating
    and a movie with its [movie_id]. *)
Definition stage_rated_movies (userID : ObjectID) (threshold : Z)
    (rs : list Rating.t) (ms : list Movie.t) : list Movie.t :=
  flat_map
    (fun r => List.filter (fun m => (Movie.ID m =? Rating.MovieID r)%N) ms)
    (List.filter
       (fun r => (Rating.UserID r =? userID)%N && (threshold <=? Rating.Rating r)) rs).

(** Stages 4 to 7: [$split] of the genre at commas, [$unwind], [$trim],
    [$match] on [genre != ""]. *)
Definition stage_genres (docs : list Movie.t) : list string :=
  List.filter (fun genre => negb (String.eqb genre ""))
    (map mongo_expr.op_trim
       (flat_map (fun m => mongo_expr.op_split (Movie.Genre m)) docs)).

(** Stage 8, [$group] with [{"$sum": 1}]: one more for the group of
    [genre], a new group behind the others when there is none. *)
Fixpoint group_add (genre : string) (groups : list (string * Z)) : list (string * Z) :=
  match groups with
  | [] => [(genre, 1)]
  | (g, count) :: rest =>
      if String.eqb g genre then (g, count + 1) :: rest
      else (g, count) :: group_add genre rest
  end.

Definition group_counts (genres : list string) : list (string * Z) :=
  fold_left (fun groups genre => group_add genre groups) genres [].

(** The whole pipeline: the groups come out of [$group] in the order the
    store chooses, [$sort] orders them by descending count, and the last
    [$project] keeps genre and count apart. *)
Definition high_rated_pipeline (env : Env) (userID : ObjectID) (threshold : Z)
    (w : World) : list (string * Z) :=
  sort_stable count_desc
    (group_order env
       (group_counts
          (stage_genres (stage_rated_movies userID threshold (ratings w) (movies w))))).

Definition GetHighRatedGenres (env : Env) (userID : ObjectID) (threshold : Z)
  : M (list string) :=
  let! results := driver_query (fun w => Ok (high_rated_pipeline env userID threshold w)) in
  (* Extract unique genres in order of preference *)
  ret (map fst results).

Definition GetRatedMovieIDs (userID : ObjectID) : M (list ObjectID) :=
  let! ratings := driver_query (fun w =>
    Ok (List.filter (fun r => (Rating.UserID r =? userID)%N) (ratings w))) in
  ret (map Rating.MovieID ratings).

Definition GetWatchlistMovieIDs (userID : ObjectID) : M (list ObjectID) :=
  let! watchlists := driver_query (fun w =>
    Ok (List.filter (fun e => (Watchlist.UserID e =? userID)%N) (watchlists w))) in
  ret (map Watchlist.MovieID watchlists).

(** [excludeMap] is a Go map used as a set; ranging over it visits the keys
    once each, in an order of the run time's choosing. *)
Definition GetMoviesToExclude (userID : ObjectID) : M (list ObjectID) :=
  let! ratedIDs := GetRatedMovieIDs userID in
  let! watchlistIDs := GetWatchlistMovieIDs userID in
  (* Combine and deduplicate *)
  let excludeMap : gset ObjectID := list_to_set ratedIDs ∪ list_to_set watchlistIDs in
  (* Convert back to slice *)
  ret (elements excludeMap).

Definition GetMoviesByGenreExcludingIDs (env : Env) (genre : string)
    (excludeIDs : list ObjectID) (limit : Z) : M (list Movie.t) :=
  driver_query (fun w =>
    match regex_i env genre with
    | None => Err mongo_DriverError
    | Some matches =>
        let found :=
          List.filter
            (fun m => matches (Movie.Genre m)
                      && (if 0 <? Z.of_nat (length excludeIDs)
                          then negb (bool_decide (Movie.ID m ∈ excludeIDs))
                          else true))
            (movies w) in
        let sorted := sort_stable imdb_rating_desc found in
        Ok (if 0 <? limit then take (Z.to_nat limit) sorted else sorted)
    end).

(* ===================================================================== *)
(** * RecommendationService *)
(* ===================================================================== *)

(** The inner loop of [generateGenreBasedRecommendations]. *)
Fixpoint append_movies (limit : Z) (recommendations movies : list Movie.t)
  : list Movie.t :=
  match movies with
  | [] => recommendations
  | movie :: rest =>
      if limit <=? Z.of_nat (length recommendations) then recommendations
      else append_movies limit (recommendations ++ [movie]) rest
  end.

(** The outer loop, from the genres still to process and the
    recommendations so far. *)
Fixpoint genre_loop (env : Env) (preferredGenres : list string)
    (excludeMovieIDs : list ObjectID) (limit : Z)
    (recommendations : list Movie.t) : M (list Movie.t) :=
  match preferredGenres with
  | [] => ret recommendations
  | genre :: rest =>
      if limit <=? Z.of_nat (length recommendations) then ret recommendations (* break *)
      else
        let? r := GetMoviesByGenreExcludingIDs env genre excludeMovieIDs
                    (limit - Z.of_nat (length recommendations)) in
        match r with
        | inr _ => genre_loop env rest excludeMovieIDs limit recommendations (* continue *)
        | inl movies =>
            genre_loop env rest excludeMovieIDs limit
              (append_movies limit recommendations movies)
        end
  end.

Definition generateGenreBasedRecommendations (env : Env)
    (preferredGenres : list string) (excludeMovieIDs : list ObjectID) (limit : Z)
  : M (list Movie.t) :=
  genre_loop env preferredGenres excludeMovieIDs limit [].

(** The loop of [getFallbackRecommendations]. *)
Fixpoint fallback_loop (excludeMap : gset ObjectID) (limit : Z)
    (fallback allMovies : list Movie.t) : list Movie.t :=
  match allMovies with
  | [] => fallback
  | movie :: rest =>
      if limit <=? Z.of_nat (length fallback) then fallback
      else if negb (bool_decide (Movie.ID movie ∈ excludeMap))
      then fallback_loop excludeMap limit (fallback ++ [movie]) rest
      else fallback_loop excludeMap limit fallback rest
  end.

Definition getFallbackRecommendations (excludeMovieIDs : list ObjectID) (limit : Z)
  : M (list Movie.t) :=
  let? r := FindAll in
  match r with
  | inr _ => ret []
  | inl allMovies =>
      let excludeMap : gset ObjectID := list_to_set excludeMovieIDs in
      ret (fallback_loop excludeMap limit [] allMovies)
  end.

(** [movies[:limit]] panics for a negative [limit]. *)
Definition limitResults (movies : list Movie.t) (limit : Z) : M (list Movie.t) :=
  if Z.of_nat (length movies) <=? limit then ret movies
  else if limit <? 0 then panic "slice bounds out of range"
  else ret (take (Z.to_nat limit) movies).

Definition GetRecommendations (env : Env) (userID : ObjectID) (limit : Z)
  : M (list Movie.t) :=
  (* Step 1: Get user's preferred genres (rated 4+ stars) *)
  let! preferredGenres := GetHighRatedGenres env userID 4 in
  (* Step 2: Get movies to exclude (already rated + in watchlist) *)
  let! excludeMovieIDs := GetMoviesToExclude userID in
  (* Step 3: Generate recommendations based on preferred genres *)
  let! recommendations :=
    generateGenreBasedRecommendations env preferredGenres excludeMovieIDs limit in
  (* Step 4: If not enough recommendations, add popular movies as fallback *)
  let! recommendations :=
    (if Z.of_nat (length recommendations) <? limit
     then let! fallbackMovies :=
            getFallbackRecommendations excludeMovieIDs
              (limit - Z.of_nat (length recommendations)) in
          ret (recommendations ++ fallbackMovies)
     else ret recommendations) in
  (* Step 5: Return limited results *)
  limitResults recommendations limit.

(* ===================================================================== *)
(** * Vocabulary of the specification *)
(* ===================================================================== *)

(** The error kind [InvalidUpstreamData]: the three errors of the
    validation of required fields. *)
Definition InvalidUpstreamData (e : GoError) : Prop :=
  e = Errorf "invalid movie data: missing IMDb ID"
  \/ e = Errorf "invalid movie data: missing title"
  \/ e = Errorf "invalid movie data: missing genre".

(** A call fails: it comes back with a non-nil error. *)
Definition fails {A} (r : outcome A) : Prop :=
  match r with Err _ => True | _ => False end.

(** The next [n] driver calls go through. *)
Definition healthy_for (n : nat) (w : World) : Prop :=
  forall i, (i < n)%nat -> db_faults w !! i <> Some true.

(** Object IDs handed out so far are below the next one. *)
Definition oids_fresh (w : World) : Prop :=
  forall d, d ∈ movies w -> (Movie.ID d < Npos (next_oid w))%N.

(** The user has rated the movie, with whatever value. *)
Definition rated (w : World) (userID movieID : ObjectID) : Prop :=
  exists r, r ∈ ratings w /\ Rating.UserID r = userID /\ Rating.MovieID r = movieID.

(** The movie is in the user's watchlist. *)
Definition watchlisted (w : World) (userID movieID : ObjectID) : Prop :=
  exists e, e ∈ watchlists w /\ Watchlist.UserID e = userID /\ Watchlist.MovieID e = movieID.

(** The preference tokens of a user: the trimmed, non-empty pieces of the
    genre fields of the movies the user rated at [threshold] or above, in
    the order of the ratings. *)
Definition preference_tokens (userID : ObjectID) (threshold : Z) (w : World)
  : list string :=
  stage_genres (stage_rated_movies userID threshold (ratings w) (movies w)).

(** Number of occurrences of a genre among the tokens. *)
Definition occurrences (g : string) (tokens : list string) : Z :=
  Z.of_nat (length (List.filter (String.eqb g) tokens)).

(** [x] stands somewhere ahead of [y] in [l]. *)
Definition ahead {A} (x y : A) (l : list A) : Prop :=
  exists l1 l2 l3, l = l1 ++ x :: l2 ++ y :: l3.

(** [g1] is met before [g2] is: at the first occurrence of [g1] no [g2]
    has gone by. *)
Definition met_first (g1 g2 : string) (tokens : list string) : Prop :=
  exists t1 t2, tokens = t1 ++ g1 :: t2 /\ (g1 ∉ t1) /\ (g2 ∉ t1).

(** A rating text read as a decimal numeral: digits with at most one
    point among them, as the pair of the digits' number and the count of
    digits behind the point. *)
Fixpoint decimal_digits (s : string) (acc : Z) (seen_point : bool) (scale : nat)
    (any : bool) : option (Z * nat) :=
  match s with
  | EmptyString => if any then Some (acc, scale) else None
  | String c rest =>
      let n := N_of_ascii c in
      if ((48 <=? n) && (n <=? 57))%N
      then decimal_digits rest (10 * acc + Z.of_N (n - 48))
             seen_point (if seen_point then S scale else scale) true
      else if (n =? 46)%N && negb seen_point
      then decimal_digits rest acc true scale any
      else None
  end.

Definition decimal (s : string) : option (Z * nat) := decimal_digits s 0 false 0%nat false.

(** [a] may stand before [b] in a list by descending numeric rating, the
    texts that are no numerals last. *)
Definition rating_geq (a b : string) : bool :=
  match decimal a, decimal b with
  | Some (na, sa), Some (nb, sb) => nb * 10 ^ Z.of_nat sa <=? na * 10 ^ Z.of_nat sb
  | Some _, None => true
  | None, Some _ => false
  | None, None => true
  end.

Fixpoint descending_by_rating (ms : list Movie.t) : bool :=
  match ms with
  | a :: (b :: _) as rest =>
      rating_geq (Movie.IMDbRating a) (Movie.IMDbRating b) && descending_by_rating rest
  | _ => true
  end.

(** The record the store holds for an IMDb ID, if any: what the lookup of
    step 1 finds. *)
Definition stored (w : World) (imdbID : string) : option Movie.t :=
  List.find (fun d => String.eqb (Movie.IMDbID d) imdbID) (movies w).

(** Two calls in a row both return records, the records have the same
    identifier, and the catalog has been asked exactly once. *)
Definition idempotent_at (env : Env) (w : World) (imdbID : string) : Prop :=
  exists m1 w1 m2 w2,
    GetOrCreateByIMDbID env imdbID w = (Ok m1, w1)
    /\ GetOrCreateByIMDbID env imdbID w1 = (Ok m2, w2)
    /\ Movie.ID m1 = Movie.ID m2
    /\ omdb_calls w2 = omdb_calls w ++ [imdbID].

(** The world after one driver call that went through without writing. *)
Definition skip_fault (w : World) : World :=
  set_db_faults (tl (db_faults w)) w.


(** Every valid detail response with a required field that is empty after
    trimming makes the call fail with [InvalidUpstreamData] and leaves the
    store as it was. *)
Definition rejects_blank_fields (env : Env) (w : World) (imdbID : string) : Prop :=
  forall o,
    omdb env imdbID = HttpResponse 200 (Some o) ->
    OMDbResponse.Response o <> "False" ->
    strings.TrimSpace (OMDbResponse.IMDbID o) = ""
    \/ strings.TrimSpace (OMDbResponse.Title o) = ""
    \/ strings.TrimSpace (OMDbResponse.Genre o) = "" ->
    exists e w',
      GetOrCreateByIMDbID env imdbID w = (Err e, w')
      /\ InvalidUpstreamData e /\ movies w' = movies w.

(** An insert refused for a duplicate key is turned into a successful read
    of the record that is there. *)
Definition recovers_from_duplicate (movie : Movie.t) (w : World) : Prop :=
  forall w',
    movies_InsertOne movie w = (Err mongo_DuplicateKey, w') ->
    exists present w'',
      GetOrCreateByIMDbID_insert movie w = (Ok present, w'')
      /\ present ∈ movies w''
      /\ Movie.IMDbID present = Movie.IMDbID movie.

(** What [GetOrCreateByIMDbID] goes on with after steps 1 to 3. *)
Definition GetOrCreateByIMDbID_rest (r : outcome (Movie.t + Movie.t)) : M Movie.t :=
  match r with
  | Ok (inl movie) => ret movie
  | Ok (inr movie) => GetOrCreateByIMDbID_insert movie
  | Err e => throw e
  | Panic msg => panic msg
  end.

(** Two callers of [GetOrCreateByIMDbID] for the same ID, interleaved so
    that both have done steps 1 to 3 before either inserts. *)
Definition two_callers (env : Env) (imdbID : string) (w : World)
  : (outcome Movie.t * outcome Movie.t) * World :=
  let '(a, w) := GetOrCreateByIMDbID_lookup_fetch env imdbID w in
  let '(b, w) := GetOrCreateByIMDbID_lookup_fetch env imdbID w in
  let '(first, w) := GetOrCreateByIMDbID_rest a w in
  let '(second, w) := GetOrCreateByIMDbID_rest b w in
  ((first, second), w).

(** The collections and the log of catalog calls are the same in both
    worlds. *)
Definition same_store (w w' : World) : Prop :=
  movies w' = movies w /\ ratings w' = ratings w
  /\ watchlists w' = watchlists w /\ omdb_calls w' = omdb_calls w.

(** An operation that leaves the collections and the log alone. *)
Definition reads {A} (m : M A) : Prop :=
  forall w r w', m w = (r, w') -> same_store w w'.

(** No movie of the list has its identifier among [ids]. *)
Definition avoids (ids : list ObjectID) (ms : list Movie.t) : Prop :=
  forall m, m ∈ ms -> Movie.ID m ∉ ids.

(** The call is refused: it fails with an error. *)
Definition rejects_limit (env : Env) (userID : ObjectID) (limit : Z) (w : World) : Prop :=
  fails (fst (GetRecommendations env userID limit w)).

(** [groups] is the grouping of [tokens]: one group for each genre met,
    holding the number of its occurrences, the groups in the order in
    which the genres are first met. *)
Definition grouped (tokens : list string) (groups : list (string * Z)) : Prop :=
  NoDup (map fst groups)
  /\ (forall g c, (g, c) ∈ groups -> c = occurrences g tokens)
  /\ (forall g, g ∈ map fst groups <-> g ∈ tokens)
  /\ (forall g1 g2, ahead g1 g2 (map fst groups) -> met_first g1 g2 tokens).

(** The genres come by descending number of occurrences, and of two
    genres that occur equally often the one met first comes first. *)
Definition ties_by_first_met (tokens genres : list string) : Prop :=
  forall g1 g2, ahead g1 g2 genres ->
    occurrences g2 tokens < occurrences g1 tokens
    \/ (occurrences g1 tokens = occurrences g2 tokens /\ met_first g1 g2 tokens).

(** [GetHighRatedGenres] returns the genres by descending count with ties
    in the order of first meeting. *)
Definition prefers_by_count_then_first_met (env : Env) (userID : ObjectID)
    (threshold : Z) (w : World) : Prop :=
  exists genres w',
    GetHighRatedGenres env userID threshold w = (Ok genres, w')
    /\ ties_by_first_met (preference_tokens userID threshold w) genres.

(* ===================================================================== *)
(** * Test worlds *)
(* ===================================================================== *)

Module Fixture.

Definition lower (c : ascii) : ascii :=
  let n := N_of_ascii c in
  if ((65 <=? n) && (n <=? 90))%N then ascii_of_N (n + 32) else c.

Fixpoint lower_string (s : string) : string :=
  match s with
  | EmptyString => EmptyString
  | String c rest => String (lower c) (lower_string rest)
  end.

Fixpoint contains (pat s : string) : bool :=
  if String.prefix pat s then true
  else match s with
       | EmptyString => false
       | String _ rest => contains pat rest
       end.

(** What PCRE does with a pattern of ASCII letters and hyphens under
    option [i]. *)
Definition icontains (pat : string) : option (string -> bool) :=
  Some (fun s => contains (lower_string pat) (lower_string s)).

Definition movie (id : ObjectID) (imdbID title genre rating : string) : Movie.t :=
  {| Movie.ID := id; Movie.IMDbID := imdbID; Movie.Title := title;
     Movie.Year := "1999"; Movie.Genre := genre; Movie.Director := "";
     Movie.Plot := ""; Movie.Poster := ""; Movie.Runtime := "";
     Movie.IMDbRating := rating;
     Movie.CachedAt := 0%N; Movie.CreatedAt := 0%N; Movie.UpdatedAt := 0%N |}.

Definition rating (id userID movieID : ObjectID) (stars : Z) : Rating.t :=
  {| Rating.ID := id; Rating.UserID := userID; Rating.MovieID := movieID;
     Rating.Rating := stars; Rating.CreatedAt := 0%N; Rating.UpdatedAt := 0%N |}.

Definition watch (id userID movieID : ObjectID) : Watchlist.t :=
  {| Watchlist.ID := id; Watchlist.UserID := userID; Watchlist.MovieID := movieID;
     Watchlist.AddedAt := 0%N; Watchlist.CreatedAt := 0%N; Watchlist.UpdatedAt := 0%N |}.

Definition detail (imdbID title genre rating : string) : OMDbResponse.t :=
  {| OMDbResponse.Title := title; OMDbResponse.Year := "1999";
     OMDbResponse.IMDbID := imdbID; OMDbResponse.Genre := genre;
     OMDbResponse.Director := "  The Wachowskis "; OMDbResponse.Plot := "";
     OMDbResponse.Poster := "N/A"; OMDbResponse.Runtime := "136 min";
     OMDbResponse.IMDbRating := rating; OMDbResponse.Response := "True";
     OMDbResponse.Error := "" |}.

Definition no_such_title : OMDbResponse.t :=
  {| OMDbResponse.Title := ""; OMDbResponse.Year := "";
     OMDbResponse.IMDbID := ""; OMDbResponse.Genre := "";
     OMDbResponse.Director := ""; OMDbResponse.Plot := "";
     OMDbResponse.Poster := ""; OMDbResponse.Runtime := "";
     OMDbResponse.IMDbRating := ""; OMDbResponse.Response := "False";
     OMDbResponse.Error := "Incorrect IMDb ID." |}.

(** A catalog with one title, which it also serves under the upper-case
    spelling of its ID, and one record with a blank title. *)
Definition catalog (imdbID : string) : HttpOutcome :=
  if String.eqb imdbID "tt0133093" || String.eqb imdbID "TT0133093"
  then HttpResponse 200 (Some (detail "tt0133093" " The Matrix " "Action, Sci-Fi" "8.7"))
  else if String.eqb imdbID "tt0000002"
  then HttpResponse 200 (Some (detail "tt0000002" "   " "Drama" "N/A"))
  else HttpResponse 200 (Some no_such_title).

Definition env : Env :=
  {| apiKey := "k"; omdb := catalog; regex_i := icontains;
     group_order := fun groups => groups |}.

(** The same with a store that emits its groups last first. *)
Definition env_rev : Env :=
  {| apiKey := "k"; omdb := catalog; regex_i := icontains;
     group_order := @rev (string * Z) |}.

Definition world (ms : list Movie.t) (rs : list Rating.t)
    (ws : list Watchlist.t) (faults : list bool) : World :=
  {| movies := ms; ratings := rs; watchlists := ws; db_faults := faults;
     next_oid := 100%positive; clock := 1000%N; omdb_calls := [] |}.

Definition empty : World := world [] [] [] [].

Definition user : ObjectID := 7%N.

Definition seen := movie 1%N "tt0000010" "Seen" "Action, Sci-Fi" "6.0".
Definition m88 := movie 2%N "tt0000011" "Eight" "Action, Sci-Fi" "8.8".
Definition m71 := movie 3%N "tt0000012" "Seven" "Action, Sci-Fi" "7.1".
Definition mNA := movie 4%N "tt0000013" "Unrated" "Action" "N/A".
Definition drama := movie 5%N "tt0000014" "Other" "Drama" "9.1".

(** The same catalog asked for a title it has without a genre. *)
Definition env_missing_genre : Env :=
  {| apiKey := "k";
     omdb := fun _ => HttpResponse 200 (Some (detail "tt0000003" "Untagged" "" "5.0"));
     regex_i := icontains; group_order := fun groups => groups |}.

(** The store after one call for "tt0133093" on the empty store. *)
Definition matrix_stored : World :=
  snd (GetOrCreateByIMDbID env "tt0133093" empty).

(** Two callers on the empty store, both past step 3: the world after
    the first one's insert, and the record the second is about to
    insert. *)
Definition after_first_writer : World :=
  let '(a, w) := GetOrCreateByIMDbID_lookup_fetch env "tt0133093" empty in
  let '(_, w) := GetOrCreateByIMDbID_lookup_fetch env "tt0133093" w in
  snd (GetOrCreateByIMDbID_rest a w).

Definition second_writer_record : Movie.t :=
  let '(_, w) := GetOrCreateByIMDbID_lookup_fetch env "tt0133093" empty in
  match fst (GetOrCreateByIMDbID_lookup_fetch env "tt0133093" w) with
  | Ok (inr movie) => movie
  | _ => seen
  end.

(** A user who gave five stars to [seen] and has [drama] on the
    watchlist, in a store of five movies put in in this order. *)
Definition five_movies (faults : list bool) : World :=
  world [seen; m71; m88; mNA; drama] [rating 1%N user 1%N 5] [watch 1%N user 5%N] faults.

(** The same store and a user with no ratings and no watchlist. *)
Definition new_user : World :=
  world [seen; m71; m88; mNA; drama] [] [] [].

(** A store with one candidate, whose genre field names both genres the
    user likes. *)
Definition one_candidate : World :=
  world [seen; m88] [rating 1%N user 1%N 5] [] [].

(** A user who liked one action movie and one drama. *)
Definition two_likes : World :=
  world [mNA; drama] [rating 1%N user 4%N 5; rating 2%N user 5%N 4] [] [].

End Fixture.

(* ===================================================================== *)
(** * The other operations of the repositories and services *)
(* ===================================================================== *)

Definition set_ratings (rs : list Rating.t) (w : World) : World :=
  {| movies := movies w; ratings := rs; watchlists := watchlists w;
     db_faults := db_faults w; next_oid := next_oid w; clock := clock w;
     omdb_calls := omdb_calls w |}.

Definition set_watchlists (ws : list Watchlist.t) (w : World) : World :=
  {| movies := movies w; ratings := ratings w; watchlists := ws;
     db_faults := db_faults w; next_oid := next_oid w; clock := clock w;
     omdb_calls := omdb_calls w |}.

(** The collection without the first document the filter accepts: what
    [DeleteOne] leaves. *)
Fixpoint delete_first {A} (filter : A -> bool) (l : list A) : list A :=
  match l with
  | [] => []
  | x :: rest => if filter x then rest else x :: delete_first filter rest
  end.

(** The collection with [change] applied to the first document the filter
    accepts: what [UpdateOne] leaves. *)
Fixpoint update_first {A} (filter : A -> bool) (change : A -> A) (l : list A) : list A :=
  match l with
  | [] => []
  | x :: rest =>
      if filter x then change x :: rest else x :: update_first filter change rest
  end.

(** ** MovieRepository, continued *)

Definition FindByID (id : ObjectID) : M (option Movie.t) :=
  let? r := movies_FindOne (fun d => (Movie.ID d =? id)%N) in
  match r with
  | inl movie => ret (Some movie)
  | inr err => if is_ErrNoDocuments err then ret None else throw err
  end.

Definition FindByGenre (env : Env) (genre : string) : M (list Movie.t) :=
  driver_query (fun w =>
    match regex_i env genre with
    | None => Err mongo_DriverError
    | Some matches => Ok (List.filter (fun m => matches (Movie.Genre m)) (movies w))
    end).

(** ** MovieService, continued *)

(** The JSON document OMDb answers a search with. *)
Module OMDbSearchResponse.
Record t := {
  Search : list OMDbResponse.t;
  TotalResults : string;
  Response : string;
  Error : string
}.
End OMDbSearchResponse.

(** What one search request [GET /?apikey=..&s=..] leads to. *)
Inductive SearchOutcome :=
| SearchNewRequestFails
| SearchDoFails
| SearchHttpResponse (StatusCode : Z) (body : option OMDbSearchResponse.t).

(** [fetchMovieDetails] is the detail request and nothing else. *)
Definition fetchMovieDetails (env : Env) (imdbID : string) : M OMDbResponse.t :=
  omdb_detail env imdbID.

(** One turn of the loop of [SearchMovies] that caches the details of the
    search results. *)
Definition cache_search_result (env : Env) (item : OMDbResponse.t) : M unit :=
  (* 1. Check if movie already exists *)
  let? existing := FindByIMDbID (OMDbResponse.IMDbID item) in
  match existing with
  | inl (Some _) => ret tt (* continue *)
  | _ =>
      (* 2. Fetch FULL movie details *)
      let? fetched := fetchMovieDetails env (OMDbResponse.IMDbID item) in
      match fetched with
      | inr _ => ret tt (* continue *)
      | inl details =>
          (* 3. Save FULL movie *)
          let! cached := time_Now in
          let! created := time_Now in
          let! updated := time_Now in
          let movie :=
            {| Movie.ID := 0%N;
               Movie.IMDbID := OMDbResponse.IMDbID details;
               Movie.Title := strings.TrimSpace (OMDbResponse.Title details);
               Movie.Year := strings.TrimSpace (OMDbResponse.Year details);
               Movie.Genre := strings.TrimSpace (OMDbResponse.Genre details);
               Movie.Director := strings.TrimSpace (OMDbResponse.Director details);
               Movie.Plot := strings.TrimSpace (OMDbResponse.Plot details);
               Movie.Poster := strings.TrimSpace (OMDbResponse.Poster details);
               Movie.Runtime := strings.TrimSpace (OMDbResponse.Runtime details);
               Movie.IMDbRating := strings.TrimSpace (OMDbResponse.IMDbRating details);
               Movie.CachedAt := cached;
               Movie.CreatedAt := created;
               Movie.UpdatedAt := updated |} in
          let? _ := Create movie in
          ret tt
      end
  end.

Fixpoint cache_search_results (env : Env) (items : list OMDbResponse.t) : M unit :=
  match items with
  | [] => ret tt
  | item :: rest =>
      let! _ := cache_search_result env item in
      cache_search_results env rest
  end.

(** [search] is the catalog's side of the search request for the query. *)
Definition SearchMovies (env : Env) (search : string -> SearchOutcome)
    (query : string) : M (list OMDbResponse.t) :=
  if String.eqb (apiKey env) "" then throw (Errorf "OMDb API key not configured")
  else if String.eqb (strings.TrimSpace query) ""
  then throw (Errorf "search query cannot be empty")
  else
    match search query with
    | SearchNewRequestFails => throw (Errorf_w "failed to create request: %w" http_Error)
    | SearchDoFails => throw (Errorf_w "failed to make request to OMDb API: %w" http_Error)
    | SearchHttpResponse StatusCode body =>
        if negb (StatusCode =? 200)
        then throw (Errorf_d "OMDb API returned status code: %d" StatusCode)
        else match body with
             | None => throw (Errorf_w "failed to decode OMDb API response: %w" json_Error)
             | Some searchResp =>
                 if String.eqb (OMDbSearchResponse.Response searchResp) "False"
                 then if negb (String.eqb (OMDbSearchResponse.Error searchResp) "")
                      then throw (Errorf ("OMDb API error: "
                                          +:+ OMDbSearchResponse.Error searchResp))
                      else throw (Errorf "OMDb API returned an error response")
                 else
                   match OMDbSearchResponse.Search searchResp with
                   | [] => ret []
                   | _ =>
                       (* Cache full movie details for each search result *)
                       let! _ := cache_search_results env
                                   (OMDbSearchResponse.Search searchResp) in
                       ret (OMDbSearchResponse.Search searchResp)
                   end
             end
    end.

Definition GetMovieByID (id : ObjectID) : M (option Movie.t) := FindByID id.

(** ** RecommendationRepository, continued *)

(** [buildGenreMatchPipeline]: one [$regex] condition for each genre, here
    as the compiled expressions; [None] when one of them does not compile. *)
Fixpoint buildGenreMatchPipeline (env : Env) (genres : list string)
  : option (list (string -> bool)) :=
  match genres with
  | [] => Some []
  | genre :: rest =>
      match regex_i env genre, buildGenreMatchPipeline env rest with
      | Some matches, Some conditions => Some (matches :: conditions)
      | _, _ => None
      end
  end.

(** The [$match] stage that [GetRecommendationMovies] and
    [GetMovieCountByGenre] start with: [_id] not among the excluded and
    [$or] of the genre conditions. The server refuses an [$or] over an
    empty array. *)
Definition stage_match_genres (env : Env) (excludeIDs : list ObjectID)
    (genres : list string) (ms : list Movie.t) : outcome (list Movie.t) :=
  match buildGenreMatchPipeline env genres with
  | None => Err mongo_DriverError
  | Some [] => Err mongo_DriverError
  | Some conditions =>
      Ok (List.filter
            (fun m => negb (bool_decide (Movie.ID m ∈ excludeIDs))
                      && existsb (fun matches => matches (Movie.Genre m)) conditions)
            ms)
  end.

(** The server refuses a [$limit] that is not positive. *)
Definition GetRecommendationMovies (env : Env) (userID : ObjectID)
    (genres : list string) (limit : Z) : M (list Movie.t) :=
  let! excludeIDs := GetMoviesToExclude userID in
  driver_query (fun w =>
    match stage_match_genres env excludeIDs genres (movies w) with
    | Ok found =>
        if limit <=? 0 then Err mongo_DriverError
        else Ok (take (Z.to_nat limit) (sort_stable imdb_rating_desc found))
    | Err e => Err e
    | Panic msg => Panic msg
    end).

(** The Go map built from the groups: a later group with the same key
    would overwrite an earlier one. *)
Definition GetMovieCountByGenre (env : Env) (userID : ObjectID)
    (genres : list string) : M (gmap string Z) :=
  let! excludeIDs := GetMoviesToExclude userID in
  let! results := driver_query (fun w =>
    match stage_match_genres env excludeIDs genres (movies w) with
    | Ok found => Ok (group_order env (group_counts (map Movie.Genre found)))
    | Err e => Err e
    | Panic msg => Panic msg
    end) in
  ret (fold_left (fun genreCounts result => <[fst result := snd result]> genreCounts)
         results ∅).

(** ** RecommendationService, continued *)

Definition getPreferredGenres (env : Env) (userID : ObjectID) : M (list string) :=
  GetHighRatedGenres env userID 4.

Definition getExcludedMovieIDs (userID : ObjectID) : M (list ObjectID) :=
  GetMoviesToExclude userID.

(** ** WatchlistRepository *)

(** [collection.InsertOne(ctx, watchlist)] on "watchlists", with the unique
    indexes on [_id] and on the pair of [user_id] and [movie_id]. *)
Definition watchlists_InsertOne (e : Watchlist.t) : M ObjectID :=
  driver_call (
    let! id := (if (Watchlist.ID e =? 0)%N then NewObjectID else ret (Watchlist.ID e)) in
    fun w =>
      if existsb (fun d => (Watchlist.ID d =? id)%N
                           || (Watchlist.UserID d =? Watchlist.UserID e)%N
                              && (Watchlist.MovieID d =? Watchlist.MovieID e)%N)
           (watchlists w)
      then (Err mongo_DuplicateKey, w)
      else
        let doc := {| Watchlist.ID := id; Watchlist.UserID := Watchlist.UserID e;
                      Watchlist.MovieID := Watchlist.MovieID e;
                      Watchlist.AddedAt := Watchlist.AddedAt e;
                      Watchlist.CreatedAt := Watchlist.CreatedAt e;
                      Watchlist.UpdatedAt := Watchlist.UpdatedAt e |} in
        (Ok id, set_watchlists (watchlists w ++ [doc]) w)).

Definition same_pair (userID movieID : ObjectID) (e : Watchlist.t) : bool :=
  (Watchlist.UserID e =? userID)%N && (Watchlist.MovieID e =? movieID)%N.

Module WatchlistRepository.

Definition Add (watchlist : Watchlist.t) : M Watchlist.t :=
  let! created := getCurrentTime in
  let! updated := getCurrentTime in
  let! added := time_Now in
  let watchlist :=
    {| Watchlist.ID := Watchlist.ID watchlist;
       Watchlist.UserID := Watchlist.UserID watchlist;
       Watchlist.MovieID := Watchlist.MovieID watchlist;
       Watchlist.AddedAt := added; Watchlist.CreatedAt := created;
       Watchlist.UpdatedAt := updated |} in
  let! inserted := watchlists_InsertOne watchlist in
  ret {| Watchlist.ID := inserted;
         Watchlist.UserID := Watchlist.UserID watchlist;
         Watchlist.MovieID := Watchlist.MovieID watchlist;
         Watchlist.AddedAt := added; Watchlist.CreatedAt := created;
         Watchlist.UpdatedAt := updated |}.

Definition Remove (userID movieID : ObjectID) : M unit :=
  driver_call (fun w =>
    (Ok tt, set_watchlists (delete_first (same_pair userID movieID) (watchlists w)) w)).

Definition Exists (userID movieID : ObjectID) : M bool :=
  let! count := driver_query (fun w =>
    Ok (Z.of_nat (length (List.filter (same_pair userID movieID) (watchlists w))))) in
  ret (0 <? count).

(** The helper [getMovieByID]. *)
Definition getMovieByID (movieID : ObjectID) : M (option Movie.t) :=
  let? r := movies_FindOne (fun d => (Movie.ID d =? movieID)%N) in
  match r with
  | inl movie => ret (Some movie)
  | inr err => if is_ErrNoDocuments err then ret None else throw err
  end.

(** The loop of [GetUserWatchlist] that looks every movie up and does
    nothing with what it finds. *)
Fixpoint populate (watchlist : list Watchlist.t) : M unit :=
  match watchlist with
  | [] => ret tt
  | entry :: rest =>
      let? _ := getMovieByID (Watchlist.MovieID entry) in
      populate rest
  end.

Definition GetUserWatchlist (userID : ObjectID) : M (list Watchlist.t) :=
  let! watchlist := driver_query (fun w =>
    Ok (List.filter (fun e => (Watchlist.UserID e =? userID)%N) (watchlists w))) in
  let! _ := populate watchlist in
  ret watchlist.

(** [first] for [{"added_at": -1}]. *)
Definition added_at_desc (a b : Watchlist.t) : bool :=
  (Watchlist.AddedAt b <? Watchlist.AddedAt a)%N.

(** The pipeline: [$match] on the user, [$lookup] of the movie, [$unwind]
    (one document for each movie found, none when there is none), [$sort]
    by descending [added_at]. *)
Definition GetWatchlistWithMovies (userID : ObjectID) : M (list Watchlist.t) :=
  driver_query (fun w =>
    Ok (sort_stable added_at_desc
          (flat_map
             (fun e =>
                map (fun _ => e)
                  (List.filter (fun m => (Movie.ID m =? Watchlist.MovieID e)%N) (movies w)))
             (List.filter (fun e => (Watchlist.UserID e =? userID)%N) (watchlists w))))).

End WatchlistRepository.

(** ** WatchlistService *)

Definition AddToWatchlist (userID movieID : ObjectID) : M unit :=
  let! exists_ := WatchlistRepository.Exists userID movieID in
  if exists_ : bool then throw (Errorf "movie already in watchlist")
  else
    let! _ := WatchlistRepository.Add
                {| Watchlist.ID := 0%N; Watchlist.UserID := userID;
                   Watchlist.MovieID := movieID; Watchlist.AddedAt := 0%N;
                   Watchlist.CreatedAt := 0%N; Watchlist.UpdatedAt := 0%N |} in
    ret tt.

Definition RemoveFromWatchlist (userID movieID : ObjectID) : M unit :=
  WatchlistRepository.Remove userID movieID.

(** ** RatingRepository *)

Definition rating_of (userID movieID : ObjectID) (r : Rating.t) : bool :=
  (Rating.UserID r =? userID)%N && (Rating.MovieID r =? movieID)%N.

(** [collection.InsertOne(ctx, rating)] on "ratings", with the unique
    indexes on [_id] and on the pair of [user_id] and [movie_id]. *)
Definition ratings_InsertOne (r : Rating.t) : M ObjectID :=
  driver_call (
    let! id := (if (Rating.ID r =? 0)%N then NewObjectID else ret (Rating.ID r)) in
    fun w =>
      if existsb (fun d => (Rating.ID d =? id)%N
                           || rating_of (Rating.UserID r) (Rating.MovieID r) d)
           (ratings w)
      then (Err mongo_DuplicateKey, w)
      else
        let doc := {| Rating.ID := id; Rating.UserID := Rating.UserID r;
                      Rating.MovieID := Rating.MovieID r;
                      Rating.Rating := Rating.Rating r;
                      Rating.CreatedAt := Rating.CreatedAt r;
                      Rating.UpdatedAt := Rating.UpdatedAt r |} in
        (Ok id, set_ratings (ratings w ++ [doc]) w)).

Module RatingRepository.

Definition Create (rating : Rating.t) : M Rating.t :=
  let! created := getCurrentTime in
  let! updated := getCurrentTime in
  let rating :=
    {| Rating.ID := Rating.ID rating; Rating.UserID := Rating.UserID rating;
       Rating.MovieID := Rating.MovieID rating; Rating.Rating := Rating.Rating rating;
       Rating.CreatedAt := created; Rating.UpdatedAt := updated |} in
  let! inserted := ratings_InsertOne rating in
  ret {| Rating.ID := inserted; Rating.UserID := Rating.UserID rating;
         Rating.MovieID := Rating.MovieID rating; Rating.Rating := Rating.Rating rating;
         Rating.CreatedAt := created; Rating.UpdatedAt := updated |}.

Definition Update (userID movieID : ObjectID) (rating : Z) : M unit :=
  let! updated := getCurrentTime in
  driver_call (fun w =>
    (Ok tt,
     set_ratings
       (update_first (rating_of userID movieID)
          (fun d => {| Rating.ID := Rating.ID d; Rating.UserID := Rating.UserID d;
                       Rating.MovieID := Rating.MovieID d; Rating.Rating := rating;
                       Rating.CreatedAt := Rating.CreatedAt d;
                       Rating.UpdatedAt := updated |})
          (ratings w)) w)).

Definition GetUserRating (userID movieID : ObjectID) : M (option Rating.t) :=
  let? r := driver_call (fun w =>
    match List.find (rating_of userID movieID) (ratings w) with
    | Some rating => (Ok rating, w)
    | None => (Err mongo_ErrNoDocuments, w)
    end) in
  match r with
  | inl rating => ret (Some rating)
  | inr err => if is_ErrNoDocuments err then ret None else throw err
  end.

Definition GetUserRatings (userID : ObjectID) : M (list Rating.t) :=
  driver_query (fun w =>
    Ok (List.filter (fun r => (Rating.UserID r =? userID)%N) (ratings w))).

End RatingRepository.

(** ** RatingService *)

Definition RateMovie (userID movieID : ObjectID) (rating : Z) : M unit :=
  if (rating <? 1) || (5 <? rating)
  then throw (Errorf "rating must be between 1 and 5 stars")
  else
    (* Check if user has already rated this movie *)
    let? existing := RatingRepository.GetUserRating userID movieID in
    match existing with
    | inl (Some _) => throw (Errorf "user has already rated this movie")
    | _ =>
        let! _ := RatingRepository.Create
                    {| Rating.ID := 0%N; Rating.UserID := userID;
                       Rating.MovieID := movieID; Rating.Rating := rating;
                       Rating.CreatedAt := 0%N; Rating.UpdatedAt := 0%N |} in
        ret tt
    end.

Definition UpdateRating (userID movieID : ObjectID) (rating : Z) : M unit :=
  if (rating <? 1) || (5 <? rating)
  then throw (Errorf "rating must be between 1 and 5 stars")
  else
    (* Check if rating exists before updating *)
    let? existing := RatingRepository.GetUserRating userID movieID in
    match existing with
    | inl (Some _) => RatingRepository.Update userID movieID rating
    | _ => throw (Errorf "rating not found")
    end.

(** ** Words for the properties of these operations *)

(** The store's unique indexes hold: no two movies share an [_id] or an
    [imdb_id]. *)
Definition movies_unique (w : World) : Prop :=
  NoDup (map Movie.ID (movies w)) /\ NoDup (map Movie.IMDbID (movies w)).

(** No two watchlist entries are for the same user and movie. *)
Definition watchlists_unique (w : World) : Prop :=
  NoDup (map (fun e => (Watchlist.UserID e, Watchlist.MovieID e)) (watchlists w)).

(** No two ratings are for the same user and movie. *)
Definition ratings_unique (w : World) : Prop :=
  NoDup (map (fun r => (Rating.UserID r, Rating.MovieID r)) (ratings w)).

(** Every rating is one to five stars. *)
Definition ratings_in_range (w : World) : Prop :=
  forall r, r ∈ ratings w -> 1 <= Rating.Rating r <= 5.

(** What [Update] writes over the first rating of the pair: the value
    and the time stamp, and nothing else. *)
Definition revalues (rating : Z) (change : Rating.t -> Rating.t) : Prop :=
  forall d, Rating.ID (change d) = Rating.ID d
            /\ Rating.UserID (change d) = Rating.UserID d
            /\ Rating.MovieID (change d) = Rating.MovieID d
            /\ Rating.Rating (change d) = rating
            /\ Rating.CreatedAt (change d) = Rating.CreatedAt d.

(** Two movie records that agree in everything but the three time
    stamps, which a record does not keep at full resolution in the store. *)
Definition same_but_times (a b : Movie.t) : Prop :=
  Movie.ID a = Movie.ID b /\ Movie.IMDbID a = Movie.IMDbID b
  /\ Movie.Title a = Movie.Title b /\ Movie.Year a = Movie.Year b
  /\ Movie.Genre a = Movie.Genre b /\ Movie.Director a = Movie.Director b
  /\ Movie.Plot a = Movie.Plot b /\ Movie.Poster a = Movie.Poster b
  /\ Movie.Runtime a = Movie.Runtime b
  /\ Movie.IMDbRating a = Movie.IMDbRating b.

(** The movies the user has neither rated nor watchlisted, in collection
    order. *)
Definition candidates (userID : ObjectID) (w : World) : list Movie.t :=
  List.filter
    (fun m =>
       negb (existsb (fun r => rating_of userID (Movie.ID m) r) (ratings w))
       && negb (existsb (fun e => same_pair userID (Movie.ID m) e) (watchlists w)))
    (movies w).

(** An operation that makes the property [I] of worlds stay. *)
Definition keeps {A} (I : World -> Prop) (m : M A) : Prop :=
  forall w r w', I w -> m w = (r, w') -> I w'.

(** An operation that only ever adds records at the end of the movies
    collection. *)
Definition appends_movies {A} (m : M A) : Prop :=
  forall w r w', m w = (r, w') -> exists added, movies w' = movies w ++ added.

(** An operation that treats the movies collection as a cache: it adds
    records at the end and touches nothing else, respects the unique
    indexes, and leaves ratings and watchlists alone. *)
Definition cache_grows {A} (m : M A) : Prop :=
  forall w r w', m w = (r, w') ->
    (exists added, movies w' = movies w ++ added)
    /\ (movies_unique w -> movies_unique w')
    /\ ratings w' = ratings w /\ watchlists w' = watchlists w.

(** More sample data. *)
Module Sample.

Definition result (imdbID title : string) : OMDbResponse.t :=
  {| OMDbResponse.Title := title; OMDbResponse.Year := "1999";
     OMDbResponse.IMDbID := imdbID; OMDbResponse.Genre := "";
     OMDbResponse.Director := ""; OMDbResponse.Plot := "";
     OMDbResponse.Poster := "N/A"; OMDbResponse.Runtime := "";
     OMDbResponse.IMDbRating := ""; OMDbResponse.Response := "";
     OMDbResponse.Error := "" |}.

(** A search that finds the one title of the catalog and one the catalog
    has no details for. *)
Definition search (query : string) : SearchOutcome :=
  SearchHttpResponse 200
    (Some {| OMDbSearchResponse.Search :=
               [result "tt0133093" "The Matrix"; result "tt7777777" "Lost"];
             OMDbSearchResponse.TotalResults := "2";
             OMDbSearchResponse.Response := "True";
             OMDbSearchResponse.Error := "" |}).

(** The surroundings of the tests with no API key configured. *)
Definition env_no_key : Env :=
  {| apiKey := ""; omdb := Fixture.catalog; regex_i := Fixture.icontains;
     group_order := fun groups => groups |}.

End Sample.

(* ===================================================================== *)
(** * Running driver calls *)
(* ===================================================================== *)

Lemma healthy_for_le n m w : (m <= n)%nat -> healthy_for n w -> healthy_for m w.
Proof. intros Hle H i Hi. apply H. lia. Qed.

Lemma healthy_for_skip n w : healthy_for (S n) w -> healthy_for n (skip_fault w).
Proof.
  intros H i Hi. unfold skip_fault; simpl.
  specialize (H (S i) ltac:(lia)).
  destruct (db_faults w) as [|b fs]; simpl in *; [by rewrite lookup_nil|done].
Qed.

Lemma healthy_for_faults n w w' :
  db_faults w' = db_faults w -> healthy_for n w -> healthy_for n w'.
Proof. intros E H i Hi. rewrite E. by apply H. Qed.

Lemma healthy_for_nil n w : db_faults w = [] -> healthy_for n w.
Proof. intros E i _. by rewrite E, lookup_nil. Qed.

Lemma driver_call_healthy {A} (f : M A) w :
  healthy_for 1 w -> driver_call f w = f (skip_fault w).
Proof.
  intros H. specialize (H 0%nat ltac:(lia)).
  unfold driver_call, skip_fault.
  destruct w as [ms rs ws fs oid t calls]; simpl in *.
  destruct fs as [|[] fs]; simpl in *; done.
Qed.

(** A driver call either fails at once or runs on the world with one
    fault entry less. *)
Lemma driver_call_cases {A} (f : M A) w :
  (exists fs, db_faults w = true :: fs
              /\ driver_call f w = (Err mongo_DriverError, set_db_faults fs w))
  \/ driver_call f w = f (skip_fault w).
Proof.
  unfold driver_call, skip_fault.
  destruct w as [ms rs ws fs oid t calls]; simpl.
  destruct fs as [|[] fs]; simpl; eauto.
Qed.

Lemma movies_FindOne_healthy filter w :
  healthy_for 1 w ->
  movies_FindOne filter w =
    (match List.find filter (movies w) with
     | Some m => Ok m
     | None => Err mongo_ErrNoDocuments
     end, skip_fault w).
Proof.
  intros H. unfold movies_FindOne. rewrite driver_call_healthy by done.
  simpl. by destruct (List.find filter (movies w)).
Qed.

Lemma movies_InsertOne_healthy m w :
  healthy_for 1 w ->
  Movie.ID m <> 0%N ->
  (forall d, d ∈ movies w -> Movie.ID d <> Movie.ID m /\ Movie.IMDbID d <> Movie.IMDbID m) ->
  movies_InsertOne m w = (Ok (Movie.ID m), set_movies (movies w ++ [m]) (skip_fault w)).
Proof.
  intros H Hid Hnew. unfold movies_InsertOne. rewrite driver_call_healthy by done.
  unfold bind. apply N.eqb_neq in Hid. rewrite Hid. unfold ret.
  replace (existsb _ (movies (skip_fault w))) with false.
  - by destruct m.
  - symmetry. apply not_true_is_false. intros Hex.
    apply existsb_exists in Hex as (d & Hd & Hp).
    apply list_elem_of_In in Hd. destruct (Hnew d Hd) as [H1 H2].
    apply orb_true_iff in Hp as [Hp|Hp].
    + by apply N.eqb_eq in Hp.
    + by apply String.eqb_eq in Hp.
Qed.

Lemma movies_InsertOne_duplicate m w d :
  healthy_for 1 w ->
  Movie.ID m <> 0%N ->
  d ∈ movies w -> Movie.IMDbID d = Movie.IMDbID m ->
  movies_InsertOne m w = (Err mongo_DuplicateKey, skip_fault w).
Proof.
  intros H Hid Hd Hsame. unfold movies_InsertOne. rewrite driver_call_healthy by done.
  unfold bind. apply N.eqb_neq in Hid. rewrite Hid. unfold ret.
  replace (existsb _ (movies (skip_fault w))) with true; [done|].
  symmetry. apply existsb_exists. exists d. split.
  - by apply list_elem_of_In.
  - rewrite Hsame, String.eqb_refl. apply orb_true_r.
Qed.

(* ===================================================================== *)
(** * The movie cache *)
(* ===================================================================== *)

Lemma FindByIMDbID_cases imdbID w :
  (exists fs, db_faults w = true :: fs
              /\ FindByIMDbID imdbID w = (Err mongo_DriverError, set_db_faults fs w))
  \/ FindByIMDbID imdbID w = (Ok (stored w imdbID), skip_fault w).
Proof.
  unfold FindByIMDbID, attempt, movies_FindOne.
  destruct (driver_call_cases
              (fun w => match List.find (fun d => String.eqb (Movie.IMDbID d) imdbID) (movies w) with
                        | Some m => (Ok m, w)
                        | None => (Err mongo_ErrNoDocuments, w)
                        end) w) as [(fs & E & ->)| -> ].
  - left. exists fs. by split.
  - right. unfold stored. simpl.
    by destruct (List.find _ (movies w)).
Qed.

Lemma FindByIMDbID_ok imdbID w r w' :
  FindByIMDbID imdbID w = (Ok r, w') ->
  r = stored w imdbID /\ w' = skip_fault w.
Proof.
  destruct (FindByIMDbID_cases imdbID w) as [(fs & _ & ->)| -> ]; [done|].
  by intros [= <- <-].
Qed.

(** C4. For an IMDb ID that is not blank: whenever the lookup in the store
    comes back with a nil error, [GetMovieDetails] returns what the lookup
    returned, with a nil error, and neither contacts the catalog nor
    writes to the store; so for an ID with no record in a store whose lookup
    goes through, it returns a nil movie with a nil error. *)
Theorem C4_GetMovieDetails_miss_returns_nil env imdbID w :
  strings.TrimSpace imdbID <> "" ->
  (forall r w', FindByIMDbID imdbID w = (Ok r, w') ->
     GetMovieDetails env imdbID w = (Ok r, w')
     /\ omdb_calls w' = omdb_calls w /\ movies w' = movies w)
  /\ (stored w imdbID = None -> healthy_for 1 w ->
      FindByIMDbID imdbID w = (Ok None, skip_fault w)
      /\ GetMovieDetails env imdbID w = (Ok None, skip_fault w)).
Proof.
  intros Hid. apply String.eqb_neq in Hid.
  assert (Hhit : forall r w', FindByIMDbID imdbID w = (Ok r, w') ->
                   GetMovieDetails env imdbID w = (Ok r, w')).
  { intros r w' E. unfold GetMovieDetails. rewrite Hid.
    unfold attempt at 1. by rewrite E. }
  split.
  - intros r w' E. split; [by apply Hhit|].
    apply FindByIMDbID_ok in E as [_ ->]. done.
  - intros Hnone Hok.
    assert (E : FindByIMDbID imdbID w = (Ok None, skip_fault w)).
    { destruct (FindByIMDbID_cases imdbID w) as [(fs & Efs & _)|E].
      - exfalso. apply (Hok 0%nat); [lia|]. by rewrite Efs.
      - by rewrite E, Hnone. }
    split; [done|by apply Hhit].
Qed.

Lemma C4_witness :
  strings.TrimSpace "tt0133093" <> ""
  /\ GetMovieDetails Fixture.env "tt0133093" Fixture.empty
     = (Ok None, skip_fault Fixture.empty).
Proof.
  assert (H : strings.TrimSpace "tt0133093" <> "") by (vm_compute; discriminate).
  split; [exact H|].
  apply (C4_GetMovieDetails_miss_returns_nil Fixture.env "tt0133093" Fixture.empty H).
  - reflexivity.
  - by apply healthy_for_nil.
Defined.

Lemma stored_none_elem w imdbID d :
  stored w imdbID = None -> d ∈ movies w -> Movie.IMDbID d <> imdbID.
Proof.
  intros Hnone Hd E. apply list_elem_of_In in Hd.
  apply (List.find_none _ _ Hnone) in Hd. rewrite E, String.eqb_refl in Hd. done.
Qed.

Lemma stored_app_new w imdbID m :
  stored w imdbID = None -> Movie.IMDbID m = imdbID ->
  List.find (fun d => String.eqb (Movie.IMDbID d) imdbID) (movies w ++ [m]) = Some m.
Proof.
  unfold stored. intros Hnone E.
  induction (movies w) as [|d ds IH]; simpl in *.
  - by rewrite E, String.eqb_refl.
  - destruct (String.eqb (Movie.IMDbID d) imdbID); [done|by apply IH].
Qed.

(** Steps 1 to 3 on a miss, with the catalog answering by a document that
    is no API-level error: the validation decides. *)
Lemma lookup_fetch_miss env imdbID w o :
  healthy_for 1 w ->
  stored w imdbID = None ->
  apiKey env <> "" ->
  omdb env imdbID = HttpResponse 200 (Some o) ->
  OMDbResponse.Response o <> "False" ->
  let w1 := set_omdb_calls (omdb_calls w ++ [imdbID]) (skip_fault w) in
  GetOrCreateByIMDbID_lookup_fetch env imdbID w =
    if String.eqb (OMDbResponse.IMDbID o) ""
    then (Err (Errorf "invalid movie data: missing IMDb ID"), w1)
    else if String.eqb (OMDbResponse.Title o) ""
    then (Err (Errorf "invalid movie data: missing title"), w1)
    else if String.eqb (OMDbResponse.Genre o) ""
    then (Err (Errorf "invalid movie data: missing genre"), w1)
    else
      (Ok (inr
        {| Movie.ID := Npos (next_oid w);
           Movie.IMDbID := OMDbResponse.IMDbID o;
           Movie.Title := strings.TrimSpace (OMDbResponse.Title o);
           Movie.Year := strings.TrimSpace (OMDbResponse.Year o);
           Movie.Genre := strings.TrimSpace (OMDbResponse.Genre o);
           Movie.Director := strings.TrimSpace (OMDbResponse.Director o);
           Movie.Plot := strings.TrimSpace (OMDbResponse.Plot o);
           Movie.Poster := strings.TrimSpace (OMDbResponse.Poster o);
           Movie.Runtime := strings.TrimSpace (OMDbResponse.Runtime o);
           Movie.IMDbRating := strings.TrimSpace (OMDbResponse.IMDbRating o);
           Movie.CachedAt := clock w;
           Movie.CreatedAt := N.succ (clock w);
           Movie.UpdatedAt := N.succ (N.succ (clock w)) |}),
       set_clock (N.succ (N.succ (N.succ (clock w))))
         (set_next_oid (Pos.succ (next_oid w)) w1)).
Proof.
  intros Hok Hnone Hkey Hreply Hvalid w1.
  apply String.eqb_neq in Hkey, Hvalid.
  unfold GetOrCreateByIMDbID_lookup_fetch, attempt.
  rewrite movies_FindOne_healthy by done. fold (stored w imdbID). rewrite Hnone.
  simpl. rewrite Hkey. unfold bind at 1, omdb_detail. rewrite Hreply. simpl.
  rewrite Hvalid. fold w1.
  destruct (String.eqb (OMDbResponse.IMDbID o) ""); [done|].
  destruct (String.eqb (OMDbResponse.Title o) ""); [done|].
  destruct (String.eqb (OMDbResponse.Genre o) ""); [done|].
  reflexivity.
Qed.

Lemma GetOrCreateByIMDbID_hit env imdbID w movie :
  healthy_for 1 w ->
  stored w imdbID = Some movie ->
  GetOrCreateByIMDbID env imdbID w = (Ok movie, skip_fault w).
Proof.
  intros Hok Hsome.
  unfold GetOrCreateByIMDbID, bind, GetOrCreateByIMDbID_lookup_fetch, attempt.
  rewrite movies_FindOne_healthy by done. fold (stored w imdbID). by rewrite Hsome.
Qed.

(** C1 (as amended). With the store answering and the object IDs fresh:
    a record stored under the ID is returned as it is, without a call to
    the catalog; and for an ID with no record, when the catalog answers
    the detail request with a valid document that carries this very ID,
    two calls in a row both return records with the same identifier and
    the catalog is asked exactly once. *)
Theorem C1_get_or_create_twice env imdbID w :
  healthy_for 3 w ->
  oids_fresh w ->
  (forall movie, stored w imdbID = Some movie ->
     exists w',
       GetOrCreateByIMDbID env imdbID w = (Ok movie, w')
       /\ omdb_calls w' = omdb_calls w /\ movies w' = movies w)
  /\ (forall o,
        stored w imdbID = None ->
        apiKey env <> "" ->
        omdb env imdbID = HttpResponse 200 (Some o) ->
        OMDbResponse.Response o <> "False" ->
        OMDbResponse.IMDbID o = imdbID ->
        imdbID <> "" ->
        OMDbResponse.Title o <> "" ->
        OMDbResponse.Genre o <> "" ->
        idempotent_at env w imdbID).
Proof.
  intros Hok Hfresh. split.
  - intros movie Hsome. exists (skip_fault w).
    rewrite (GetOrCreateByIMDbID_hit env imdbID w movie); [done| |done].
    apply (healthy_for_le 3); [lia|done].
  - intros o Hnone Hkey Hreply Hvalid Hsame Hid Htitle Hgenre.
    pose proof (lookup_fetch_miss env imdbID w o
                  (healthy_for_le 3 1 w ltac:(lia) Hok) Hnone Hkey Hreply Hvalid) as E.
    rewrite Hsame in E.
    apply String.eqb_neq in Hid, Htitle, Hgenre.
    rewrite Hid, Htitle, Hgenre in E. simpl in E.
    match type of E with _ = (Ok (inr ?m), ?wa) => set (movie := m) in *; set (w1 := wa) in * end.
    assert (Hok1 : healthy_for 2 w1).
    { apply (healthy_for_faults 2 (skip_fault w)); [done|]. by apply healthy_for_skip. }
    assert (Eins : movies_InsertOne movie w1
                   = (Ok (Movie.ID movie), set_movies (movies w1 ++ [movie]) (skip_fault w1))).
    { apply movies_InsertOne_healthy.
      - apply (healthy_for_le 2); [lia|done].
      - done.
      - intros d Hd. change (movies w1) with (movies w) in Hd. split.
        + specialize (Hfresh d Hd). simpl. lia.
        + simpl. by apply (stored_none_elem w). }
    set (w2 := set_movies (movies w1 ++ [movie]) (skip_fault w1)) in *.
    assert (E1 : GetOrCreateByIMDbID env imdbID w = (Ok movie, w2)).
    { unfold GetOrCreateByIMDbID, bind at 1. rewrite E.
      unfold GetOrCreateByIMDbID_insert, attempt. by rewrite Eins. }
    assert (E2 : GetOrCreateByIMDbID env imdbID w2 = (Ok movie, skip_fault w2)).
    { apply GetOrCreateByIMDbID_hit.
      - apply (healthy_for_faults 1 (skip_fault w1)); [done|].
        by apply healthy_for_skip.
      - unfold stored. change (movies w2) with (movies w ++ [movie]).
        by apply stored_app_new. }
    exists movie, w2, movie, (skip_fault w2). done.
Qed.

Lemma C1_witness : idempotent_at Fixture.env Fixture.empty "tt0133093".
Proof.
  apply (C1_get_or_create_twice Fixture.env "tt0133093" Fixture.empty)
    with (o := Fixture.detail "tt0133093" " The Matrix " "Action, Sci-Fi" "8.7").
  - by apply healthy_for_nil.
  - intros d Hd. vm_compute in Hd. by apply elem_of_nil in Hd.
  - reflexivity.
  - vm_compute. discriminate.
  - reflexivity.
  - vm_compute. discriminate.
  - reflexivity.
  - discriminate.
  - vm_compute. discriminate.
  - vm_compute. discriminate.
Defined.

(** The claim of C1 as it is written fails for an ID the catalog has no
    title for (each call asks the catalog, neither returns a record) and for
    an ID the catalog files under another spelling (the second call asks
    again and is refused by the store). *)
Lemma C1_counterexample :
  ~ idempotent_at Fixture.env Fixture.empty "tt9999999"
  /\ ~ idempotent_at Fixture.env Fixture.empty "TT0133093".
Proof.
  split; intros (m1 & w1 & m2 & w2 & E1 & E2 & _).
  - vm_compute in E1. discriminate.
  - vm_compute in E1. injection E1 as <- <-. vm_compute in E2. discriminate.
Qed.

Example C1_no_title_asks_twice :
  let '(r1, w1) := GetOrCreateByIMDbID Fixture.env "tt9999999" Fixture.empty in
  let '(r2, w2) := GetOrCreateByIMDbID Fixture.env "tt9999999" w1 in
  r1 = Err (Errorf "OMDb API error: Incorrect IMDb ID.")
  /\ r2 = r1
  /\ omdb_calls w2 = ["tt9999999"; "tt9999999"].
Proof. vm_compute. done. Qed.

(** C5 (as amended). On a miss, when the catalog answers with a valid
    document whose IMDb ID, title or genre is the empty string, as it
    arrives and before any trimming, the call fails with
    [InvalidUpstreamData] and the store keeps its records. *)
Theorem C5_empty_required_field_rejected env imdbID w o :
  healthy_for 1 w ->
  stored w imdbID = None ->
  apiKey env <> "" ->
  omdb env imdbID = HttpResponse 200 (Some o) ->
  OMDbResponse.Response o <> "False" ->
  OMDbResponse.IMDbID o = "" \/ OMDbResponse.Title o = "" \/ OMDbResponse.Genre o = "" ->
  exists e w',
    GetOrCreateByIMDbID env imdbID w = (Err e, w')
    /\ InvalidUpstreamData e /\ movies w' = movies w.
Proof.
  intros Hok Hnone Hkey Hreply Hvalid Hempty.
  pose proof (lookup_fetch_miss env imdbID w o Hok Hnone Hkey Hreply Hvalid) as E.
  simpl in E. unfold GetOrCreateByIMDbID, bind. unfold InvalidUpstreamData.
  destruct (String.eqb_spec (OMDbResponse.IMDbID o) "") as [E1|N1].
  { rewrite E. eexists _, _. split; [reflexivity|]. split; [by left|done]. }
  destruct (String.eqb_spec (OMDbResponse.Title o) "") as [E2|N2].
  { rewrite E. eexists _, _. split; [reflexivity|]. split; [by right; left|done]. }
  destruct (String.eqb_spec (OMDbResponse.Genre o) "") as [E3|N3].
  { rewrite E. eexists _, _. split; [reflexivity|]. split; [by right; right|done]. }
  by destruct Hempty as [?|[?|?]].
Qed.

Lemma C5_witness :
  exists e w',
    GetOrCreateByIMDbID Fixture.env_missing_genre "tt0000003" Fixture.empty = (Err e, w')
    /\ InvalidUpstreamData e /\ movies w' = movies Fixture.empty.
Proof.
  apply (C5_empty_required_field_rejected Fixture.env_missing_genre "tt0000003"
           Fixture.empty (Fixture.detail "tt0000003" "Untagged" "" "5.0")).
  - by apply healthy_for_nil.
  - reflexivity.
  - vm_compute. discriminate.
  - reflexivity.
  - vm_compute. discriminate.
  - right; right. reflexivity.
Defined.

(** The claim of C5 as it is written fails for a title of three spaces:
    it is not the empty string, so the validation lets it through, and the
    record is stored with the title trimmed to nothing. *)
Lemma C5_counterexample :
  ~ rejects_blank_fields Fixture.env Fixture.empty "tt0000002".
Proof.
  intros H.
  destruct (H (Fixture.detail "tt0000002" "   " "Drama" "N/A")) as (e & w' & E & _).
  - reflexivity.
  - vm_compute. discriminate.
  - right; left. vm_compute. reflexivity.
  - vm_compute in E. discriminate.
Qed.

Example C5_blank_title_is_stored :
  exists movie w',
    GetOrCreateByIMDbID Fixture.env "tt0000002" Fixture.empty = (Ok movie, w')
    /\ Movie.Title movie = "" /\ movies w' = [movie].
Proof. eexists _, _. vm_compute. done. Qed.

(** C6 (as amended). When the insert of step 4 fails, for a duplicate key
    as for any other reason, [GetOrCreateByIMDbID] fails with the error
    "failed to cache movie data" wrapped around the driver's error; it ends
    in the world the insert left, without another lookup, and the store
    keeps the records it had. *)
Theorem C6_insert_error_is_returned env imdbID w movie w1 e w2 :
  GetOrCreateByIMDbID_lookup_fetch env imdbID w = (Ok (inr movie), w1) ->
  movies_InsertOne movie w1 = (Err e, w2) ->
  GetOrCreateByIMDbID env imdbID w
    = (Err (Errorf_w "failed to cache movie data: %w" e), w2)
  /\ movies w2 = movies w1.
Proof.
  intros Efetch Eins. split.
  - unfold GetOrCreateByIMDbID, bind. rewrite Efetch.
    unfold GetOrCreateByIMDbID_insert, attempt. by rewrite Eins.
  - revert Eins. unfold movies_InsertOne.
    destruct (driver_call_cases
      (let! id := if (Movie.ID movie =? 0)%N then NewObjectID else ret (Movie.ID movie) in
       fun w =>
         if existsb (fun d => (Movie.ID d =? id)%N
                              || String.eqb (Movie.IMDbID d) (Movie.IMDbID movie)) (movies w)
         then (Err mongo_DuplicateKey, w)
         else
           (Ok id,
            set_movies
              (movies w ++
               [{| Movie.ID := id; Movie.IMDbID := Movie.IMDbID movie;
                   Movie.Title := Movie.Title movie; Movie.Year := Movie.Year movie;
                   Movie.Genre := Movie.Genre movie; Movie.Director := Movie.Director movie;
                   Movie.Plot := Movie.Plot movie; Movie.Poster := Movie.Poster movie;
                   Movie.Runtime := Movie.Runtime movie;
                   Movie.IMDbRating := Movie.IMDbRating movie;
                   Movie.CachedAt := Movie.CachedAt movie;
                   Movie.CreatedAt := Movie.CreatedAt movie;
                   Movie.UpdatedAt := Movie.UpdatedAt movie |}]) w)) w1)
      as [(fs & _ & ->)| ->].
    + by intros [= _ <-].
    + unfold bind.
      destruct (Movie.ID movie =? 0)%N; simpl;
        destruct (existsb _ _); intros E; inversion E; subst; done.
Qed.

(** Whoever reaches step 4 with a record whose IMDb ID is in the store by
    then, as the second of two racing callers does, gets the error. *)
Lemma GetOrCreateByIMDbID_insert_duplicate movie w d :
  healthy_for 1 w ->
  Movie.ID movie <> 0%N ->
  d ∈ movies w -> Movie.IMDbID d = Movie.IMDbID movie ->
  GetOrCreateByIMDbID_insert movie w
  = (Err (Errorf_w "failed to cache movie data: %w" mongo_DuplicateKey), skip_fault w).
Proof.
  intros Hok Hid Hd Hsame. unfold GetOrCreateByIMDbID_insert, attempt.
  by rewrite (movies_InsertOne_duplicate movie w d).
Qed.

Lemma C6_witness :
  exists w2,
    GetOrCreateByIMDbID Fixture.env "TT0133093" Fixture.matrix_stored
    = (Err (Errorf_w "failed to cache movie data: %w" mongo_DuplicateKey), w2).
Proof.
  eexists.
  eapply (C6_insert_error_is_returned Fixture.env "TT0133093" Fixture.matrix_stored).
  - vm_compute. reflexivity.
  - vm_compute. reflexivity.
Defined.

(** The claim of C6 as it is written fails for the second of two callers
    racing on an empty store: its insert is refused for the duplicate key
    and the call returns that error. *)
Lemma C6_counterexample :
  ~ recovers_from_duplicate Fixture.second_writer_record Fixture.after_first_writer.
Proof.
  intros H. destruct (H (skip_fault Fixture.after_first_writer)) as (m & w' & E & _).
  - vm_compute. reflexivity.
  - vm_compute in E. discriminate.
Qed.

Example C6_second_writer_gets_the_error :
  exists movie w',
    two_callers Fixture.env "tt0133093" Fixture.empty
    = ((Ok movie,
        Err (Errorf_w "failed to cache movie data: %w" mongo_DuplicateKey)), w')
    /\ movies w' = [movie]
    /\ omdb_calls w' = ["tt0133093"; "tt0133093"].
Proof. eexists _, _. vm_compute. done. Qed.

(* ===================================================================== *)
(** * Operations that only read *)
(* ===================================================================== *)

Lemma same_store_refl w : same_store w w.
Proof. by repeat split. Qed.

Lemma same_store_trans w1 w2 w3 :
  same_store w1 w2 -> same_store w2 w3 -> same_store w1 w3.
Proof.
  intros (A1 & A2 & A3 & A4) (B1 & B2 & B3 & B4).
  repeat split; congruence.
Qed.

Lemma reads_ret {A} (a : A) : reads (ret a).
Proof. intros w r w' [= _ <-]. apply same_store_refl. Qed.

Lemma reads_throw {A} e : reads (@throw A e).
Proof. intros w r w' [= _ <-]. apply same_store_refl. Qed.

Lemma reads_panic {A} msg : reads (@panic A msg).
Proof. intros w r w' [= _ <-]. apply same_store_refl. Qed.

Lemma reads_bind {A B} (m : M A) (k : A -> M B) :
  reads m -> (forall a, reads (k a)) -> reads (bind m k).
Proof.
  intros Hm Hk w r w'. unfold bind.
  destruct (m w) as [[a|e|msg] w1] eqn:E; intros H; apply Hm in E.
  - apply Hk in H. by apply (same_store_trans _ w1).
  - by injection H as _ <-.
  - by injection H as _ <-.
Qed.

Lemma reads_attempt {A B} (m : M A) (k : A + GoError -> M B) :
  reads m -> (forall x, reads (k x)) -> reads (attempt m k).
Proof.
  intros Hm Hk w r w'. unfold attempt.
  destruct (m w) as [[a|e|msg] w1] eqn:E; intros H; apply Hm in E.
  - apply Hk in H. by apply (same_store_trans _ w1).
  - apply Hk in H. by apply (same_store_trans _ w1).
  - by injection H as _ <-.
Qed.

Lemma driver_query_cases {A} (q : World -> outcome A) w :
  (exists fs, db_faults w = true :: fs
              /\ driver_query q w = (Err mongo_DriverError, set_db_faults fs w))
  \/ driver_query q w = (q (skip_fault w), skip_fault w).
Proof. apply (driver_call_cases (fun w => (q w, w))). Qed.

Lemma driver_query_healthy {A} (q : World -> outcome A) w :
  healthy_for 1 w -> driver_query q w = (q (skip_fault w), skip_fault w).
Proof. intros H. unfold driver_query. by rewrite driver_call_healthy. Qed.

Lemma reads_driver_query {A} (q : World -> outcome A) : reads (driver_query q).
Proof.
  intros w r w'.
  destruct (driver_query_cases q w) as [(fs & _ & ->)| ->]; intros [= _ <-]; by repeat split.
Qed.

Create HintDb reads.
#[local] Hint Resolve reads_ret reads_throw reads_panic reads_driver_query : reads.
#[local] Hint Extern 2 (reads (bind _ _)) => apply reads_bind; [|intros ?] : reads.
#[local] Hint Extern 2 (reads (attempt _ _)) => apply reads_attempt; [|intros [?|?]] : reads.

Lemma reads_GetHighRatedGenres env userID threshold :
  reads (GetHighRatedGenres env userID threshold).
Proof. unfold GetHighRatedGenres. auto with reads. Qed.

Lemma reads_GetRatedMovieIDs userID : reads (GetRatedMovieIDs userID).
Proof. unfold GetRatedMovieIDs. auto with reads. Qed.

Lemma reads_GetWatchlistMovieIDs userID : reads (GetWatchlistMovieIDs userID).
Proof. unfold GetWatchlistMovieIDs. auto with reads. Qed.

Lemma reads_GetMoviesToExclude userID : reads (GetMoviesToExclude userID).
Proof.
  unfold GetMoviesToExclude.
  apply reads_bind; [apply reads_GetRatedMovieIDs|intros ?].
  apply reads_bind; [apply reads_GetWatchlistMovieIDs|intros ?].
  apply reads_ret.
Qed.

Lemma reads_GetMoviesByGenreExcludingIDs env genre excludeIDs limit :
  reads (GetMoviesByGenreExcludingIDs env genre excludeIDs limit).
Proof. unfold GetMoviesByGenreExcludingIDs. auto with reads. Qed.

Lemma reads_genre_loop env genres excludeIDs limit recs :
  reads (genre_loop env genres excludeIDs limit recs).
Proof.
  revert recs. induction genres as [|genre rest IH]; intros recs; simpl.
  - apply reads_ret.
  - destruct (limit <=? _); [apply reads_ret|].
    apply reads_attempt; [apply reads_GetMoviesByGenreExcludingIDs|].
    intros [ms|e]; apply IH.
Qed.

Lemma reads_getFallbackRecommendations excludeIDs limit :
  reads (getFallbackRecommendations excludeIDs limit).
Proof.
  unfold getFallbackRecommendations, FindAll.
  apply reads_attempt; [apply reads_driver_query|].
  intros [ms|e]; apply reads_ret.
Qed.

Lemma reads_limitResults ms limit : reads (limitResults ms limit).
Proof.
  unfold limitResults.
  destruct (_ <=? limit); [apply reads_ret|].
  destruct (limit <? 0); [apply reads_panic|apply reads_ret].
Qed.

(* ===================================================================== *)
(** * Sorting *)
(* ===================================================================== *)

Section sort_stable.
Context {A : Type} (first : A -> A -> bool).

Lemma sort_insert_perm x l : Permutation (sort_insert first x l) (x :: l).
Proof.
  induction l as [|y t IH]; simpl; [done|].
  destruct (first y x); [|done].
  rewrite IH. apply perm_swap.
Qed.

Lemma sort_stable_perm l : Permutation (sort_stable first l) l.
Proof.
  induction l as [|x t IH]; simpl; [done|].
  rewrite sort_insert_perm. by constructor.
Qed.

Lemma elem_of_sort_stable x l : x ∈ sort_stable first l <-> x ∈ l.
Proof. by rewrite sort_stable_perm. Qed.

End sort_stable.

(* ===================================================================== *)
(** * The exclusion set and the recommendations *)
(* ===================================================================== *)

Lemma GetRatedMovieIDs_ok userID w ids w' :
  GetRatedMovieIDs userID w = (Ok ids, w') ->
  forall id, id ∈ ids <-> rated w userID id.
Proof.
  unfold GetRatedMovieIDs, bind.
  destruct (driver_query_cases
              (fun w => Ok (List.filter (fun r => (Rating.UserID r =? userID)%N) (ratings w))) w)
    as [(fs & _ & ->)| ->]; [done|].
  intros [= <- <-] id. simpl. unfold rated.
  rewrite list_elem_of_In, in_map_iff. split.
  - intros (r & <- & Hr). apply filter_In in Hr as [Hr Hu].
    exists r. rewrite list_elem_of_In. by apply N.eqb_eq in Hu.
  - intros (r & Hr & Hu & Hm). exists r. split; [done|].
    apply filter_In. rewrite <- list_elem_of_In. split; [done|]. by apply N.eqb_eq.
Qed.

Lemma GetWatchlistMovieIDs_ok userID w ids w' :
  GetWatchlistMovieIDs userID w = (Ok ids, w') ->
  forall id, id ∈ ids <-> watchlisted w userID id.
Proof.
  unfold GetWatchlistMovieIDs, bind.
  destruct (driver_query_cases
              (fun w => Ok (List.filter (fun e => (Watchlist.UserID e =? userID)%N) (watchlists w))) w)
    as [(fs & _ & ->)| ->]; [done|].
  intros [= <- <-] id. simpl. unfold watchlisted.
  rewrite list_elem_of_In, in_map_iff. split.
  - intros (r & <- & Hr). apply filter_In in Hr as [Hr Hu].
    exists r. rewrite list_elem_of_In. by apply N.eqb_eq in Hu.
  - intros (r & Hr & Hu & Hm). exists r. split; [done|].
    apply filter_In. rewrite <- list_elem_of_In. split; [done|]. by apply N.eqb_eq.
Qed.

Lemma GetMoviesToExclude_ok userID w ids w' :
  GetMoviesToExclude userID w = (Ok ids, w') ->
  NoDup ids
  /\ forall id, id ∈ ids <-> rated w userID id \/ watchlisted w userID id.
Proof.
  unfold GetMoviesToExclude, bind.
  destruct (GetRatedMovieIDs userID w) as [[ratedIDs|e|msg] w1] eqn:E1; [|done..].
  destruct (GetWatchlistMovieIDs userID w1) as [[watchlistIDs|e|msg] w2] eqn:E2; [|done..].
  intros [= <- <-]. split; [apply NoDup_elements|].
  intros id. rewrite elem_of_elements, elem_of_union, !elem_of_list_to_set.
  rewrite (GetRatedMovieIDs_ok _ _ _ _ E1 id), (GetWatchlistMovieIDs_ok _ _ _ _ E2 id).
  apply reads_GetRatedMovieIDs in E1 as (_ & _ & Hw & _).
  unfold watchlisted. by rewrite Hw.
Qed.

Lemma GetMoviesToExclude_healthy userID w :
  healthy_for 2 w -> exists ids w', GetMoviesToExclude userID w = (Ok ids, w').
Proof.
  intros H. unfold GetMoviesToExclude, bind, GetRatedMovieIDs, GetWatchlistMovieIDs, bind.
  rewrite driver_query_healthy by (apply (healthy_for_le 2); [lia|done]).
  unfold ret at 1.
  rewrite driver_query_healthy by (by apply healthy_for_skip).
  unfold ret. eauto.
Qed.

Lemma GetMoviesByGenreExcludingIDs_avoids env genre excludeIDs limit w ms w' :
  GetMoviesByGenreExcludingIDs env genre excludeIDs limit w = (Ok ms, w') ->
  avoids excludeIDs ms.
Proof.
  unfold GetMoviesByGenreExcludingIDs.
  match goal with |- driver_query ?q w = _ -> _ =>
    destruct (driver_query_cases q w) as [(fs & _ & ->)| ->]; [done|] end.
  destruct (regex_i env genre) as [matches|]; [|done].
  intros [= <- <-] m Hm.
  assert (Hin : m ∈ sort_stable imdb_rating_desc
                  (List.filter
                     (fun m => matches (Movie.Genre m)
                               && (if 0 <? Z.of_nat (length excludeIDs)
                                   then negb (bool_decide (Movie.ID m ∈ excludeIDs))
                                   else true))
                     (movies (skip_fault w)))).
  { destruct (0 <? limit); [|done].
    apply elem_of_take in Hm as (i & Hi & _). by apply list_elem_of_lookup_2 in Hi. }
  apply elem_of_sort_stable, list_elem_of_In, filter_In in Hin as [_ Hp].
  apply andb_true_iff in Hp as [_ Hp].
  destruct excludeIDs as [|id0 ids]; [by intros ?%elem_of_nil|].
  simpl in Hp. apply negb_true_iff, bool_decide_eq_false in Hp. done.
Qed.

Lemma elem_of_append_movies limit recs ms m :
  m ∈ append_movies limit recs ms -> m ∈ recs \/ m ∈ ms.
Proof.
  revert recs. induction ms as [|x rest IH]; intros recs; simpl; [by left|].
  destruct (limit <=? _); [by left|].
  intros [[H|H%list_elem_of_singleton]%elem_of_app|H]%IH.
  - by left.
  - right. subst. by left.
  - right. by right.
Qed.

Lemma genre_loop_avoids env genres excludeIDs limit recs w r w' :
  genre_loop env genres excludeIDs limit recs w = (r, w') ->
  exists ms, r = Ok ms /\ (avoids excludeIDs recs -> avoids excludeIDs ms).
Proof.
  revert recs w. induction genres as [|genre rest IH]; intros recs w; simpl.
  - intros [= <- <-]. eauto.
  - destruct (limit <=? _); [intros [= <- <-]; eauto|].
    unfold attempt.
    destruct (GetMoviesByGenreExcludingIDs env genre excludeIDs _ w)
      as [[found|e|msg] w1] eqn:E.
    + intros H. apply IH in H as (ms & -> & Hms). exists ms. split; [done|].
      intros Hrecs. apply Hms. intros m [Hm|Hm]%elem_of_append_movies; [by apply Hrecs|].
      by apply (GetMoviesByGenreExcludingIDs_avoids _ _ _ _ _ _ _ E).
    + apply IH.
    + exfalso. revert E. unfold GetMoviesByGenreExcludingIDs.
      match goal with |- driver_query ?q w = _ -> _ =>
        destruct (driver_query_cases q w) as [(fs & _ & ->)| ->]; [done|] end.
      by destruct (regex_i env genre).
Qed.

Lemma elem_of_fallback_loop excludeMap limit fallback allMovies m :
  m ∈ fallback_loop excludeMap limit fallback allMovies ->
  m ∈ fallback \/ (m ∈ allMovies /\ Movie.ID m ∉ excludeMap).
Proof.
  revert fallback. induction allMovies as [|x rest IH]; intros fallback; simpl; [by left|].
  destruct (limit <=? _); [by left|].
  destruct (bool_decide (Movie.ID x ∈ excludeMap)) eqn:Hx; simpl.
  - intros [H|[H1 H2]]%IH; [by left|]. right. split; [by right|done].
  - apply bool_decide_eq_false in Hx.
    intros [[H|H%list_elem_of_singleton]%elem_of_app|[H1 H2]]%IH.
    + by left.
    + subst. right. split; [by left|done].
    + right. split; [by right|done].
Qed.

Lemma getFallbackRecommendations_avoids excludeIDs limit w r w' :
  getFallbackRecommendations excludeIDs limit w = (r, w') ->
  exists ms, r = Ok ms /\ avoids excludeIDs ms.
Proof.
  unfold getFallbackRecommendations, attempt, FindAll.
  destruct (driver_query_cases (fun w => Ok (movies w)) w) as [(fs & _ & ->)| ->].
  - intros [= <- <-]. exists []. split; [done|]. by intros m ?%elem_of_nil.
  - intros [= <- <-]. eexists. split; [done|].
    intros m [H|[_ H]]%elem_of_fallback_loop; [by apply elem_of_nil in H|].
    by rewrite elem_of_list_to_set in H.
Qed.

Lemma limitResults_ok movies limit w ms w' :
  limitResults movies limit w = (Ok ms, w') ->
  w' = w /\ ms = take (Z.to_nat limit) movies.
Proof.
  unfold limitResults.
  destruct (Z.leb_spec (Z.of_nat (length movies)) limit).
  - intros [= <- <-]. split; [done|]. rewrite take_ge; [done|lia].
  - destruct (limit <? 0); [done|]. by intros [= <- <-].
Qed.

(** How a run of [GetRecommendations] is put together once the preferred
    genres and the exclusions are there. *)
Lemma GetRecommendations_steps env userID limit w genres w1 excludeIDs w2 :
  GetHighRatedGenres env userID 4 w = (Ok genres, w1) ->
  GetMoviesToExclude userID w1 = (Ok excludeIDs, w2) ->
  exists recs w3 fallback w4,
    generateGenreBasedRecommendations env genres excludeIDs limit w2 = (Ok recs, w3)
    /\ avoids excludeIDs recs /\ avoids excludeIDs fallback
    /\ (if Z.of_nat (length recs) <? limit
        then getFallbackRecommendations excludeIDs (limit - Z.of_nat (length recs)) w3
             = (Ok fallback, w4)
        else fallback = [] /\ w4 = w3)
    /\ GetRecommendations env userID limit w = limitResults (recs ++ fallback) limit w4.
Proof.
  intros E1 E2. unfold GetRecommendations.
  unfold bind at 1. rewrite E1. unfold bind at 1. rewrite E2.
  destruct (generateGenreBasedRecommendations env genres excludeIDs limit w2)
    as [r w3] eqn:E3.
  pose proof E3 as E3'. unfold generateGenreBasedRecommendations in E3'.
  apply genre_loop_avoids in E3' as (recs & -> & Hrecs).
  assert (Hav : avoids excludeIDs recs) by (apply Hrecs; by intros m ?%elem_of_nil).
  unfold bind at 1. rewrite E3. unfold bind at 1.
  destruct (Z.of_nat (length recs) <? limit) eqn:Hlen.
  - destruct (getFallbackRecommendations excludeIDs (limit - Z.of_nat (length recs)) w3)
      as [r w4] eqn:E4.
    pose proof E4 as E4'. apply getFallbackRecommendations_avoids in E4' as (fb & -> & Hfb).
    exists recs, w3, fb, w4. rewrite Hlen. unfold bind at 1. rewrite E4. done.
  - exists recs, w3, [], w3. rewrite Hlen. rewrite app_nil_r.
    repeat split; try done. by intros m ?%elem_of_nil.
Qed.

(** C3. The list [GetMoviesToExclude] returns holds every movie the user
    has rated, with whatever value, and every movie of the user's
    watchlist, each once and nothing else; it is returned whenever the two
    queries go through; and no movie that [GetRecommendations] returns for
    the user has an identifier of that set. *)
Theorem C3_exclusions_never_recommended env userID limit w :
  (forall ids w', GetMoviesToExclude userID w = (Ok ids, w') ->
     NoDup ids
     /\ forall id, id ∈ ids <-> rated w userID id \/ watchlisted w userID id)
  /\ (healthy_for 2 w -> exists ids w', GetMoviesToExclude userID w = (Ok ids, w'))
  /\ (forall ms w', GetRecommendations env userID limit w = (Ok ms, w') ->
      forall m, m ∈ ms ->
        ~ (rated w userID (Movie.ID m) \/ watchlisted w userID (Movie.ID m))).
Proof.
  split; [apply GetMoviesToExclude_ok|].
  split; [apply GetMoviesToExclude_healthy|].
  intros ms w' E m Hm Hex.
  destruct (GetHighRatedGenres env userID 4 w) as [[genres|e|msg] w1] eqn:E1;
    [|unfold GetRecommendations, bind in E; rewrite E1 in E; done..].
  destruct (GetMoviesToExclude userID w1) as [[excludeIDs|e|msg] w2] eqn:E2;
    [|unfold GetRecommendations in E; unfold bind at 1 in E; rewrite E1 in E;
      unfold bind at 1 in E; rewrite E2 in E; done..].
  destruct (GetRecommendations_steps env userID limit w genres w1 excludeIDs w2 E1 E2)
    as (recs & w3 & fb & w4 & _ & Hrecs & Hfb & _ & Erun).
  rewrite Erun in E. apply limitResults_ok in E as [_ ->].
  apply elem_of_take in Hm as (i & Hi & _). apply list_elem_of_lookup_2 in Hi.
  assert (Hnot : Movie.ID m ∉ excludeIDs).
  { apply elem_of_app in Hi as [Hi|Hi]; [by apply Hrecs|by apply Hfb]. }
  apply Hnot. apply (GetMoviesToExclude_ok _ _ _ _ E2).
  apply reads_GetHighRatedGenres in E1 as (_ & Hr & Hw & _).
  unfold rated, watchlisted in *. by rewrite Hr, Hw.
Qed.

Lemma C3_witness :
  exists ms w',
    GetRecommendations Fixture.env Fixture.user 3 (Fixture.five_movies []) = (Ok ms, w')
    /\ ms <> []
    /\ forall m, m ∈ ms ->
         ~ (rated (Fixture.five_movies []) Fixture.user (Movie.ID m)
            \/ watchlisted (Fixture.five_movies []) Fixture.user (Movie.ID m)).
Proof.
  eexists _, _. split; [vm_compute; reflexivity|]. split; [discriminate|].
  eapply (C3_exclusions_never_recommended Fixture.env Fixture.user 3 (Fixture.five_movies [])).
  vm_compute. reflexivity.
Defined.

(** C7, on the store with one candidate. The candidate matches "Action"
    and "Sci-Fi", each genre query excludes only what the user rated or
    watchlisted, and so does the fallback: the movie is returned three
    times. *)
Theorem C7_same_movie_recommended_thrice :
  exists ms w',
    GetRecommendations Fixture.env Fixture.user 10 Fixture.one_candidate = (Ok ms, w')
    /\ ms = [Fixture.m88; Fixture.m88; Fixture.m88]
    /\ ~ NoDup (map Movie.ID ms).
Proof.
  eexists _, _. split; [vm_compute; reflexivity|]. split; [reflexivity|].
  intros H. apply NoDup_cons in H as [H _]. apply H. by left.
Qed.

Example C7_genres_of_the_one_candidate :
  fst (GetHighRatedGenres Fixture.env Fixture.user 4 Fixture.one_candidate)
  = Ok ["Action"; "Sci-Fi"].
Proof. vm_compute. reflexivity. Qed.

(** C2, on the store of five movies. For the user without ratings the
    whole answer comes from the fallback, which takes the movies in the
    order of the collection: 6.0, 7.1, 8.8. For the user who likes action,
    the genre query puts the text "N/A" ahead of "8.8" and "7.1", since it
    orders the rating texts as strings. Neither list descends by numeric
    rating with the texts that are no numbers last. *)
Theorem C2_candidates_not_in_rating_order :
  (exists ms w',
     GetRecommendations Fixture.env Fixture.user 3 Fixture.new_user = (Ok ms, w')
     /\ map Movie.IMDbRating ms = ["6.0"; "7.1"; "8.8"]
     /\ descending_by_rating ms = false)
  /\ (exists ms w',
        GetMoviesByGenreExcludingIDs Fixture.env "Action" [1%N; 5%N] 3 (Fixture.five_movies [])
        = (Ok ms, w')
        /\ map Movie.IMDbRating ms = ["N/A"; "8.8"; "7.1"]
        /\ descending_by_rating ms = false)
  /\ (exists ms w',
        GetRecommendations Fixture.env Fixture.user 3 (Fixture.five_movies []) = (Ok ms, w')
        /\ map Movie.IMDbRating ms = ["N/A"; "8.8"; "7.1"]).
Proof.
  split; [|split]; eexists _, _; (split; [vm_compute; reflexivity|]); by vm_compute.
Qed.

Example descending_by_rating_examples :
  descending_by_rating [Fixture.m88; Fixture.m71; Fixture.seen; Fixture.mNA] = true
  /\ rating_geq "10.0" "9.5" = true
  /\ rating_geq "N/A" "1.0" = false.
Proof. by vm_compute. Qed.

(** The order the phases assemble is the order returned: the last step
    only cuts the list. *)
Lemma GetRecommendations_order env userID limit w genres w1 excludeIDs w2 ms w' :
  GetHighRatedGenres env userID 4 w = (Ok genres, w1) ->
  GetMoviesToExclude userID w1 = (Ok excludeIDs, w2) ->
  GetRecommendations env userID limit w = (Ok ms, w') ->
  exists recs w3 fallback,
    generateGenreBasedRecommendations env genres excludeIDs limit w2 = (Ok recs, w3)
    /\ ms = take (Z.to_nat limit) (recs ++ fallback).
Proof.
  intros E1 E2 E.
  destruct (GetRecommendations_steps env userID limit w genres w1 excludeIDs w2 E1 E2)
    as (recs & w3 & fb & w4 & Egen & _ & _ & _ & Erun).
  rewrite Erun in E. apply limitResults_ok in E as [_ ->]. eauto.
Qed.

(* ===================================================================== *)
(** * Failures of the candidate queries, and the limit *)
(* ===================================================================== *)

Lemma limitResults_nonneg movies limit w :
  0 <= limit -> exists ms, limitResults movies limit w = (Ok ms, w).
Proof.
  intros H. unfold limitResults.
  destruct (_ <=? limit); [by eexists|].
  destruct (Z.ltb_spec limit 0); [lia|by eexists].
Qed.

(** C8 (as amended). A genre query that fails is passed over: the loop
    goes on with the next genre and the recommendations it has. A fallback
    query that fails yields no movies and no error. And once the preferred
    genres and the exclusions are there, [GetRecommendations] with a limit
    that is not negative returns a list and a nil error, whatever becomes of
    the candidate queries. *)
Theorem C8_candidate_query_errors_are_swallowed env userID limit w :
  0 <= limit ->
  (forall genre rest excludeIDs recs w0 e w1,
     Z.of_nat (length recs) < limit ->
     GetMoviesByGenreExcludingIDs env genre excludeIDs
       (limit - Z.of_nat (length recs)) w0 = (Err e, w1) ->
     genre_loop env (genre :: rest) excludeIDs limit recs w0
     = genre_loop env rest excludeIDs limit recs w1)
  /\ (forall excludeIDs n w0 e w1,
        FindAll w0 = (Err e, w1) ->
        getFallbackRecommendations excludeIDs n w0 = (Ok [], w1))
  /\ (forall genres w1 excludeIDs w2,
        GetHighRatedGenres env userID 4 w = (Ok genres, w1) ->
        GetMoviesToExclude userID w1 = (Ok excludeIDs, w2) ->
        exists ms w', GetRecommendations env userID limit w = (Ok ms, w')).
Proof.
  intros Hlimit. split; [|split].
  - intros genre rest excludeIDs recs w0 e w1 Hlen E. simpl.
    destruct (Z.leb_spec limit (Z.of_nat (length recs))); [lia|].
    unfold attempt. by rewrite E.
  - intros excludeIDs n w0 e w1 E. unfold getFallbackRecommendations, attempt.
    by rewrite E.
  - intros genres w1 excludeIDs w2 E1 E2.
    destruct (GetRecommendations_steps env userID limit w genres w1 excludeIDs w2 E1 E2)
      as (recs & w3 & fb & w4 & _ & _ & _ & _ & ->).
    destruct (limitResults_nonneg (recs ++ fb) limit w4 Hlimit) as [ms ->]. eauto.
Qed.

Lemma C8_witness :
  exists ms w',
    GetRecommendations Fixture.env Fixture.user 3
      (Fixture.five_movies [false; false; false; true; true]) = (Ok ms, w').
Proof.
  eapply (C8_candidate_query_errors_are_swallowed Fixture.env Fixture.user 3
            (Fixture.five_movies [false; false; false; true; true])).
  - lia.
  - vm_compute. reflexivity.
  - vm_compute. reflexivity.
Defined.

(** The claim of C8 as it is written fails when the query for the first
    preferred genre fails: the call returns the candidates of the second
    genre, and it returns the candidates of the genres when the fallback
    query fails. *)
Lemma C8_counterexample :
  ~ fails (fst (GetRecommendations Fixture.env Fixture.user 3
                  (Fixture.five_movies [false; false; false; true])))
  /\ ~ fails (fst (GetRecommendations Fixture.env Fixture.user 10
                     (Fixture.five_movies [false; false; false; false; false; true]))).
Proof. split; vm_compute; tauto. Qed.

Example C8_partial_results_are_returned :
  fst (GetRecommendations Fixture.env Fixture.user 3
         (Fixture.five_movies [false; false; false; true]))
  = Ok [Fixture.m88; Fixture.m71; Fixture.m71]
  /\ fst (GetRecommendations Fixture.env Fixture.user 10
            (Fixture.five_movies [false; false; false; false; false; true]))
     = Ok [Fixture.mNA; Fixture.m88; Fixture.m71; Fixture.m88; Fixture.m71].
Proof. by vm_compute. Qed.

(** C9 (as amended). [GetRecommendations] does not check the limit: with
    limit 0, once the preferred genres and the exclusions are there, it
    returns the empty list and a nil error, without a candidate query. *)
Theorem C9_limit_zero_returns_empty env userID w genres w1 excludeIDs w2 :
  GetHighRatedGenres env userID 4 w = (Ok genres, w1) ->
  GetMoviesToExclude userID w1 = (Ok excludeIDs, w2) ->
  GetRecommendations env userID 0 w = (Ok [], w2).
Proof.
  intros E1 E2. unfold GetRecommendations.
  unfold bind at 1. rewrite E1. unfold bind at 1. rewrite E2.
  unfold bind at 1, generateGenreBasedRecommendations.
  by destruct genres.
Qed.

Lemma C9_witness :
  exists w', GetRecommendations Fixture.env Fixture.user 0 (Fixture.five_movies []) = (Ok [], w').
Proof.
  eexists.
  eapply (C9_limit_zero_returns_empty Fixture.env Fixture.user (Fixture.five_movies [])).
  - vm_compute. reflexivity.
  - vm_compute. reflexivity.
Defined.

(** The claim of C9 as it is written fails for limit 0. *)
Lemma C9_counterexample :
  ~ rejects_limit Fixture.env Fixture.user 0 (Fixture.five_movies []).
Proof. vm_compute. tauto. Qed.

Example negative_limit_panics :
  fst (GetRecommendations Fixture.env Fixture.user (-1) (Fixture.five_movies []))
  = Panic "slice bounds out of range".
Proof. by vm_compute. Qed.

(* ===================================================================== *)
(** * Order within a list *)
(* ===================================================================== *)

Section ahead.
Context {A : Type}.
Implicit Types (x y : A) (l : list A).

Lemma ahead_nil x y : ~ ahead x y [].
Proof. intros (l1 & l2 & l3 & E). by destruct l1. Qed.

Lemma ahead_cons x y a l : ahead x y (a :: l) <-> (x = a /\ y ∈ l) \/ ahead x y l.
Proof.
  split.
  - intros (l1 & l2 & l3 & E). destruct l1 as [|b l1]; simpl in E.
    + injection E as <- ->. left. split; [done|].
      apply elem_of_app. right. by left.
    + injection E as <- ->. right. by exists l1, l2, l3.
  - intros [[-> Hy]|(l1 & l2 & l3 & ->)].
    + apply list_elem_of_split in Hy as (l2 & l3 & ->). by exists [], l2, l3.
    + by exists (a :: l1), l2, l3.
Qed.

Lemma ahead_app x y l k :
  ahead x y (l ++ k) <-> ahead x y l \/ ahead x y k \/ (x ∈ l /\ y ∈ k).
Proof.
  induction l as [|a l IH]; simpl.
  - split; [by auto|]. intros [H|[H|[H _]]]; [by apply ahead_nil in H|done|].
    by apply elem_of_nil in H.
  - rewrite !ahead_cons, IH, elem_of_app, elem_of_cons. tauto.
Qed.

Lemma ahead_elem_of x y l : ahead x y l -> x ∈ l /\ y ∈ l.
Proof.
  intros (l1 & l2 & l3 & ->). split.
  - apply elem_of_app. right. by left.
  - apply elem_of_app. right. right. apply elem_of_app. right. by left.
Qed.

End ahead.

Lemma ahead_map_inv {A B} (f : A -> B) (b1 b2 : B) (l : list A) :
  ahead b1 b2 (map f l) -> exists x y, b1 = f x /\ b2 = f y /\ ahead x y l.
Proof.
  induction l as [|a l IH]; simpl.
  - by intros ?%ahead_nil.
  - intros [[-> Hy]|H]%ahead_cons.
    + apply list_elem_of_In, in_map_iff in Hy as (y & <- & Hy).
      exists a, y. split; [done|]. split; [done|].
      apply ahead_cons. left. by rewrite list_elem_of_In.
    + destruct (IH H) as (x & y & -> & -> & Hxy).
      exists x, y. split; [done|]. split; [done|]. apply ahead_cons. by right.
Qed.


(** ** What the stable sort does to the order *)

Section sort_by_key.
Context {A : Type} (key : A -> Z) (first : A -> A -> bool).
Hypothesis first_key : forall a b, first a b = (key b <? key a).

Lemma ahead_sort_insert x y a l :
  ahead x y (sort_insert first a l) ->
  ahead x y l
  \/ (x = a /\ y ∈ l /\ exists b, key b <= key a /\ (y = b \/ ahead b y l))
  \/ (y = a /\ x ∈ l /\ key a < key x).
Proof.
  induction l as [|b t IH]; simpl.
  - intros [[_ H]|H]%ahead_cons; [by apply elem_of_nil in H|by apply ahead_nil in H].
  - rewrite first_key. destruct (Z.ltb_spec (key a) (key b)) as [Hlt|Hge].
    + intros [[-> Hy]|H]%ahead_cons.
      * rewrite (sort_insert_perm first a t) in Hy.
        apply elem_of_cons in Hy as [->|Hy].
        -- right; right. split; [done|]. split; [by left|done].
        -- left. apply ahead_cons. by left.
      * destruct (IH H) as [H1|[(-> & Hy & c & Hc & Hyc)|(-> & Hx & Hk)]].
        -- left. apply ahead_cons. by right.
        -- right; left. split; [done|]. split; [by right|].
           exists c. split; [done|]. destruct Hyc as [->|Hyc]; [by left|].
           right. apply ahead_cons. by right.
        -- right; right. split; [done|]. split; [by right|done].
    + intros [[-> Hy]|H]%ahead_cons; [|by left].
      right; left. split; [done|]. split; [done|].
      exists b. split; [done|].
      apply elem_of_cons in Hy as [->|Hy]; [by left|].
      right. apply ahead_cons. by left.
Qed.

(** The sorted list descends by key. *)
Lemma sort_stable_descending l x y :
  ahead x y (sort_stable first l) -> key y <= key x.
Proof.
  revert x y. induction l as [|a t IH]; intros x y; simpl.
  - by intros ?%ahead_nil.
  - intros [H|[(-> & _ & b & Hb & Hy)|(-> & _ & Hk)]]%ahead_sort_insert.
    + by apply IH.
    + destruct Hy as [->|Hy]; [done|]. apply IH in Hy. lia.
    + lia.
Qed.

(** Elements with equal keys keep the order they came in. *)
Lemma sort_stable_ties l x y :
  ahead x y (sort_stable first l) -> key x = key y -> ahead x y l.
Proof.
  revert x y. induction l as [|a t IH]; intros x y; simpl.
  - by intros ?%ahead_nil.
  - intros [H|[(-> & Hy & _)|(-> & _ & Hk)]]%ahead_sort_insert Hkey.
    + apply ahead_cons. right. by apply IH.
    + apply ahead_cons. left. split; [done|]. by apply elem_of_sort_stable in Hy.
    + lia.
Qed.

End sort_by_key.

(* ===================================================================== *)
(** * The preferred genres *)
(* ===================================================================== *)

Lemma occurrences_app g tokens more :
  occurrences g (tokens ++ more) = occurrences g tokens + occurrences g more.
Proof. unfold occurrences. rewrite List.filter_app, length_app. lia. Qed.

Lemma occurrences_snoc g tokens h :
  occurrences g (tokens ++ [h])
  = occurrences g tokens + (if String.eqb g h then 1 else 0).
Proof.
  rewrite occurrences_app. unfold occurrences at 2. simpl.
  by destruct (String.eqb g h).
Qed.

Lemma occurrences_pos g tokens : g ∈ tokens -> 0 < occurrences g tokens.
Proof.
  intros (t1 & t2 & ->)%list_elem_of_split.
  rewrite occurrences_app. unfold occurrences. simpl. rewrite String.eqb_refl. simpl. lia.
Qed.

Lemma occurrences_notin g tokens : g ∉ tokens -> occurrences g tokens = 0.
Proof.
  unfold occurrences. induction tokens as [|h t IH]; simpl; [done|].
  intros [Hne Ht]%not_elem_of_cons.
  destruct (String.eqb_spec g h) as [->|_]; [done|]. by apply IH.
Qed.

Lemma met_first_app g1 g2 tokens more :
  met_first g1 g2 tokens -> met_first g1 g2 (tokens ++ more).
Proof.
  intros (t1 & t2 & -> & H1 & H2). exists t1, (t2 ++ more).
  by rewrite <- app_assoc.
Qed.

Lemma elem_of_keys (g : string) (c : Z) groups : (g, c) ∈ groups -> g ∈ map fst groups.
Proof.
  rewrite !list_elem_of_In. intros H. by apply (in_map fst) in H.
Qed.

Lemma group_add_notin g groups :
  g ∉ map fst groups -> group_add g groups = groups ++ [(g, 1)].
Proof.
  induction groups as [|[h c] rest IH]; simpl; [done|].
  intros [Hne Hrest]%not_elem_of_cons.
  destruct (String.eqb_spec h g) as [->|_]; [done|]. by rewrite IH.
Qed.

Lemma group_add_in g groups :
  g ∈ map fst groups ->
  exists before c after,
    groups = before ++ (g, c) :: after
    /\ group_add g groups = before ++ (g, c + 1) :: after.
Proof.
  induction groups as [|[h c] rest IH]; simpl.
  - by intros ?%elem_of_nil.
  - destruct (String.eqb_spec h g) as [->|Hne].
    + intros _. by exists [], c, rest.
    + intros [->|Hin]%elem_of_cons; [done|].
      destruct (IH Hin) as (before & c' & after & -> & ->).
      by exists ((h, c) :: before), c', after.
Qed.

Lemma group_counts_snoc tokens g :
  group_counts (tokens ++ [g]) = group_add g (group_counts tokens).
Proof. unfold group_counts. by rewrite fold_left_app. Qed.

Lemma grouped_add tokens groups g :
  grouped tokens groups -> grouped (tokens ++ [g]) (group_add g groups).
Proof.
  intros (Hnodup & Hcount & Hkeys & Horder).
  destruct (decide (g ∈ map fst groups)) as [Hin|Hnotin].
  - destruct (group_add_in g groups Hin) as (before & c & after & -> & ->).
    assert (Ekeys : map fst (before ++ (g, c + 1) :: after)
                    = map fst (before ++ (g, c) :: after)) by (by rewrite !map_app).
    pose proof Hnodup as Hsplit.
    rewrite map_app in Hsplit. simpl in Hsplit.
    apply NoDup_app in Hsplit as (_ & Hbefore & [Hafter _]%NoDup_cons).
    repeat split.
    + by rewrite Ekeys.
    + intros h c' [Hh|[Heq|Hh]%elem_of_cons]%elem_of_app; [|injection Heq as -> ->|].
      * rewrite occurrences_snoc.
        destruct (String.eqb_spec h g) as [->|_].
        -- exfalso. apply (Hbefore g); [by apply (elem_of_keys g c')|by left].
        -- rewrite (Hcount h c'); [lia|]. apply elem_of_app. by left.
      * rewrite occurrences_snoc, String.eqb_refl.
        rewrite (Hcount g c); [done|]. apply elem_of_app. right. by left.
      * rewrite occurrences_snoc.
        destruct (String.eqb_spec h g) as [->|_].
        -- exfalso. apply Hafter. by apply (elem_of_keys g c').
        -- rewrite (Hcount h c'); [lia|]. apply elem_of_app. right. by right.
    + rewrite Ekeys. intros H. apply elem_of_app. left. by apply Hkeys.
    + rewrite Ekeys. intros [H| ->%list_elem_of_singleton]%elem_of_app.
      * by apply Hkeys.
      * done.
    + rewrite Ekeys. intros g1 g2 H. by apply met_first_app, Horder.
  - rewrite (group_add_notin g groups Hnotin).
    assert (Ekeys : map fst (groups ++ [(g, 1)]) = map fst groups ++ [g])
      by (by rewrite map_app).
    repeat split.
    + rewrite Ekeys. apply NoDup_app. split; [done|]. split.
      * intros h Hh ->%list_elem_of_singleton. done.
      * apply NoDup_singleton.
    + intros h c [Hh|Heq%list_elem_of_singleton]%elem_of_app; [|injection Heq as -> ->].
      * rewrite occurrences_snoc.
        destruct (String.eqb_spec h g) as [->|_].
        -- exfalso. apply Hnotin. by apply (elem_of_keys g c).
        -- rewrite (Hcount h c Hh). lia.
      * rewrite occurrences_snoc, String.eqb_refl.
        rewrite (occurrences_notin g tokens); [done|].
        intros H. by apply Hnotin, Hkeys.
    + rewrite Ekeys. intros [H| ->%list_elem_of_singleton]%elem_of_app.
      * apply elem_of_app. left. by apply Hkeys.
      * apply elem_of_app. right. by left.
    + rewrite Ekeys. intros [H| ->%list_elem_of_singleton]%elem_of_app.
      * apply elem_of_app. left. by apply Hkeys.
      * apply elem_of_app. right. by left.
    + rewrite Ekeys. intros g1 g2 [H|[H|[H1 ->%list_elem_of_singleton]]]%ahead_app.
      * by apply met_first_app, Horder.
      * apply ahead_cons in H as [[_ H]|H]; [by apply elem_of_nil in H|by apply ahead_nil in H].
      * apply Hkeys in H1.
        apply list_elem_of_split_l in H1 as (t1 & t2 & -> & Hg1).
        exists t1, (t2 ++ [g]). rewrite <- app_assoc. split; [done|]. split; [done|].
        intros Hg. apply Hnotin, Hkeys. apply elem_of_app. by left.
Qed.

Lemma group_counts_grouped tokens : grouped tokens (group_counts tokens).
Proof.
  induction tokens as [|g tokens IH] using rev_ind.
  - unfold grouped, group_counts; simpl.
    split; [constructor|]. split; [by intros g c ?%elem_of_nil|].
    split; [done|]. by intros g1 g2 ?%ahead_nil.
  - rewrite group_counts_snoc. by apply grouped_add.
Qed.

Lemma ahead_map {A B} (f : A -> B) (x y : A) (l : list A) :
  ahead x y l -> ahead (f x) (f y) (map f l).
Proof.
  intros (l1 & l2 & l3 & ->).
  exists (map f l1), (map f l2), (map f l3).
  by rewrite map_app, (map_cons f x), map_app.
Qed.

Lemma count_desc_key (a b : string * Z) : count_desc a b = (snd b <? snd a).
Proof. done. Qed.

Lemma stage_rated_movies_none userID threshold rs ms :
  (forall r, r ∈ rs -> Rating.UserID r = userID -> Rating.Rating r < threshold) ->
  stage_rated_movies userID threshold rs ms = [].
Proof.
  intros H. unfold stage_rated_movies.
  replace (List.filter _ rs) with (@nil Rating.t); [done|].
  symmetry. induction rs as [|r rs IH]; simpl; [done|].
  destruct (N.eqb_spec (Rating.UserID r) userID) as [Hu|_]; simpl.
  - destruct (Z.leb_spec threshold (Rating.Rating r)) as [Hge|_].
    + specialize (H r ltac:(by left) Hu). lia.
    + apply IH. intros r' Hr'. apply H. by right.
  - apply IH. intros r' Hr'. apply H. by right.
Qed.

(** C10 (as amended). With a store whose [$group] stage emits each group
    once and whose aggregation goes through, [GetHighRatedGenres] returns,
    without error, each genre among the preference tokens once, by
    descending number of occurrences. The tokens are the pieces that
    splitting the genre fields of the qualifying rated movies at commas
    leaves after trimming and dropping the empty ones: the field
    "  Action ,Sci-Fi ," gives "Action" and "Sci-Fi". The order among genres
    that occur equally often is the store's; it is the order in which they
    are first met when the store emits the groups in that order. A user
    with no qualifying rating gets the empty list. *)
Theorem C10_preferred_genres env userID threshold w :
  (forall groups, Permutation (group_order env groups) groups) ->
  healthy_for 1 w ->
  let tokens := preference_tokens userID threshold w in
  (forall m, Movie.Genre m = "  Action ,Sci-Fi ," ->
     stage_genres [m] = ["Action"; "Sci-Fi"])
  /\ exists genres,
       GetHighRatedGenres env userID threshold w = (Ok genres, skip_fault w)
       /\ NoDup genres
       /\ (forall g, g ∈ genres <-> g ∈ tokens)
       /\ (forall g1 g2, ahead g1 g2 genres ->
             occurrences g2 tokens <= occurrences g1 tokens)
       /\ ((forall groups, group_order env groups = groups) ->
           ties_by_first_met tokens genres)
       /\ ((forall r, r ∈ ratings w -> Rating.UserID r = userID ->
                      Rating.Rating r < threshold) ->
           genres = []).
Proof.
  intros Hperm Hok tokens. split.
  { intros m Hm. unfold stage_genres. simpl. rewrite Hm. by vm_compute. }
  unfold GetHighRatedGenres, bind. rewrite driver_query_healthy by done.
  unfold ret. eexists. split; [reflexivity|].
  unfold high_rated_pipeline.
  change (stage_genres _) with tokens.
  destruct (group_counts_grouped tokens) as (Hnodup & Hcount & Hkeys & Horder).
  set (groups := group_counts tokens) in *.
  set (sorted := sort_stable count_desc (group_order env groups)).
  assert (Psorted : Permutation sorted groups).
  { unfold sorted. by rewrite sort_stable_perm. }
  assert (Hocc : forall x, x ∈ sorted -> snd x = occurrences (fst x) tokens).
  { intros [g c] Hx. rewrite Psorted in Hx. by apply Hcount. }
  assert (Hdesc : forall g1 g2, ahead g1 g2 (map fst sorted) ->
            exists x y, g1 = fst x /\ g2 = fst y /\ ahead x y sorted
                        /\ occurrences g2 tokens <= occurrences g1 tokens).
  { intros g1 g2 (x & y & -> & -> & Hxy)%ahead_map_inv.
    exists x, y. repeat split; try done.
    destruct (ahead_elem_of _ _ _ Hxy) as [Hx Hy].
    rewrite <- (Hocc x Hx), <- (Hocc y Hy).
    by apply (sort_stable_descending snd count_desc count_desc_key
                (group_order env groups)). }
  split; [by rewrite (Permutation_map fst Psorted)|].
  split; [intros g; by rewrite (Permutation_map fst Psorted)|].
  split; [intros g1 g2 H; by destruct (Hdesc g1 g2 H) as (_ & _ & _ & _ & _ & ?)|].
  split.
  - intros Hid g1 g2 H.
    destruct (Hdesc g1 g2 H) as (x & y & -> & -> & Hxy & Hle).
    destruct (Z.eq_dec (occurrences (fst x) tokens) (occurrences (fst y) tokens))
      as [Heq|Hne]; [|left; lia].
    right. split; [done|]. apply Horder, ahead_map.
    destruct (ahead_elem_of _ _ _ Hxy) as [Hx Hy].
    unfold sorted in Hxy. rewrite Hid in Hxy.
    apply (sort_stable_ties snd count_desc count_desc_key) in Hxy; [done|].
    by rewrite (Hocc x Hx), (Hocc y Hy).
  - intros Hnone.
    assert (Etok : tokens = []).
    { unfold tokens, preference_tokens.
      by rewrite (stage_rated_movies_none userID threshold (ratings w) (movies w) Hnone). }
    assert (Egroups : groups = []) by (unfold groups; by rewrite Etok).
    unfold sorted. rewrite Egroups.
    pose proof (Hperm []) as Hnil. apply Permutation_nil_r in Hnil.
    by rewrite Hnil.
Qed.

Lemma C10_witness :
  prefers_by_count_then_first_met Fixture.env Fixture.user 4 Fixture.two_likes.
Proof.
  destruct (C10_preferred_genres Fixture.env Fixture.user 4 Fixture.two_likes)
    as (_ & genres & E & _ & _ & _ & Hties & _).
  - intros groups. reflexivity.
  - by apply healthy_for_nil.
  - exists genres, (skip_fault Fixture.two_likes). split; [exact E|].
    apply Hties. intros groups. reflexivity.
Defined.

(** The claim of C10 as it is written fails with a store that emits the
    groups last first: of two genres met once each, the one met second is
    returned first. *)
Lemma C10_counterexample :
  ~ prefers_by_count_then_first_met Fixture.env_rev Fixture.user 4 Fixture.two_likes.
Proof.
  intros (genres & w' & E & Hties).
  vm_compute in E. injection E as <- _.
  destruct (Hties "Drama" "Action") as [Hlt|[_ (t1 & t2 & Etok & _ & Hnot)]].
  - by exists [], [], [].
  - vm_compute in Hlt. discriminate.
  - vm_compute in Etok. destruct t1 as [|a t1]; simpl in Etok; [discriminate|].
    injection Etok as <- _. apply Hnot. by left.
Qed.

Example C10_the_store_decides_ties :
  preference_tokens Fixture.user 4 Fixture.two_likes = ["Action"; "Drama"]
  /\ fst (GetHighRatedGenres Fixture.env Fixture.user 4 Fixture.two_likes)
     = Ok ["Action"; "Drama"]
  /\ fst (GetHighRatedGenres Fixture.env_rev Fixture.user 4 Fixture.two_likes)
     = Ok ["Drama"; "Action"]
  /\ (forall groups, Permutation (group_order Fixture.env_rev groups) groups).
Proof.
  repeat split; try by vm_compute.
  intros groups. simpl. symmetry. apply Permutation_rev.
Qed.

Example C10_counts_come_first :
  fst (GetHighRatedGenres Fixture.env_rev Fixture.user 4
         (Fixture.world [Fixture.seen; Fixture.mNA] 
            [Fixture.rating 1%N Fixture.user 4%N 5; Fixture.rating 2%N Fixture.user 1%N 4]
            [] []))
  = Ok ["Action"; "Sci-Fi"].
Proof. by vm_compute. Qed.

(* ===================================================================== *)
(** * More on the recommendations *)
(* ===================================================================== *)

Lemma append_movies_length limit recs ms :
  Z.of_nat (length (append_movies limit recs ms))
  <= Z.max limit (Z.of_nat (length recs)).
Proof.
  revert recs. induction ms as [|m rest IH]; intros recs; simpl; [lia|].
  destruct (Z.leb_spec limit (Z.of_nat (length recs))); [lia|].
  specialize (IH (recs ++ [m])). rewrite length_app in IH. simpl in IH. lia.
Qed.

Lemma genre_loop_length env genres excludeIDs limit recs w out w' :
  genre_loop env genres excludeIDs limit recs w = (Ok out, w') ->
  Z.of_nat (length out) <= Z.max limit (Z.of_nat (length recs)).
Proof.
  revert recs w. induction genres as [|genre rest IH]; intros recs w; simpl.
  - intros [= <- <-]. lia.
  - destruct (limit <=? _); [intros [= <- <-]; lia|].
    unfold attempt.
    destruct (GetMoviesByGenreExcludingIDs env genre excludeIDs _ w)
      as [[found|e|msg] w1]; [| |done].
    + intros H%IH. pose proof (append_movies_length limit recs found). lia.
    + apply IH.
Qed.

Lemma GetMoviesByGenreExcludingIDs_ok env genre excludeIDs limit w ms w' :
  GetMoviesByGenreExcludingIDs env genre excludeIDs limit w = (Ok ms, w') ->
  exists matches,
    regex_i env genre = Some matches
    /\ forall m, m ∈ ms -> m ∈ movies w /\ matches (Movie.Genre m) = true.
Proof.
  unfold GetMoviesByGenreExcludingIDs.
  match goal with |- driver_query ?q w = _ -> _ =>
    destruct (driver_query_cases q w) as [(fs & _ & ->)| -> ]; [done|] end.
  destruct (regex_i env genre) as [matches|]; [|done].
  intros [= <- <-]. exists matches. split; [done|]. intros m Hm.
  assert (Hin : m ∈ sort_stable imdb_rating_desc
                  (List.filter
                     (fun m => matches (Movie.Genre m)
                               && (if 0 <? Z.of_nat (length excludeIDs)
                                   then negb (bool_decide (Movie.ID m ∈ excludeIDs))
                                   else true))
                     (movies (skip_fault w)))).
  { destruct (0 <? limit); [|done].
    apply elem_of_take in Hm as (i & Hi & _). by apply list_elem_of_lookup_2 in Hi. }
  apply elem_of_sort_stable, list_elem_of_In, filter_In in Hin as [Hin Hp].
  apply andb_true_iff in Hp as [Hp _]. by rewrite list_elem_of_In.
Qed.

(** What the genre phase hands on: stored movies, each matching one of the
    preferred genres. *)
Lemma genre_loop_matches env genres excludeIDs limit recs w out w' :
  genre_loop env genres excludeIDs limit recs w = (Ok out, w') ->
  forall m, m ∈ out ->
    m ∈ recs
    \/ (m ∈ movies w
        /\ exists genre matches,
             genre ∈ genres /\ regex_i env genre = Some matches
             /\ matches (Movie.Genre m) = true).
Proof.
  revert recs w. induction genres as [|genre rest IH]; intros recs w; simpl.
  - intros [= <- <-] m Hm. by left.
  - destruct (limit <=? _); [intros [= <- <-] m Hm; by left|].
    unfold attempt.
    destruct (GetMoviesByGenreExcludingIDs env genre excludeIDs _ w)
      as [[found|e|msg] w1] eqn:E; [| |done].
    + intros H m Hm.
      pose proof (reads_GetMoviesByGenreExcludingIDs _ _ _ _ _ _ _ E) as (Hms & _).
      destruct (IH _ _ H m Hm) as [Hrec|(Hst & g & mt & Hg & Hre & Hmt)].
      * apply elem_of_append_movies in Hrec as [Hrec|Hfound]; [by left|].
        right. destruct (GetMoviesByGenreExcludingIDs_ok _ _ _ _ _ _ _ E)
          as (matches & Hre & Hall).
        destruct (Hall m Hfound) as [Hst Hmt]. split; [done|].
        exists genre, matches. split; [by left|done].
      * right. split; [by rewrite <- Hms|].
        exists g, mt. split; [by right|done].
    + intros H m Hm.
      pose proof (reads_GetMoviesByGenreExcludingIDs _ _ _ _ _ _ _ E) as (Hms & _).
      destruct (IH _ _ H m Hm) as [Hrec|(Hst & g & mt & Hg & Hre & Hmt)]; [by left|].
      right. split; [by rewrite <- Hms|].
      exists g, mt. split; [by right|done].
Qed.

Lemma fallback_loop_take excludeMap limit fallback allMovies :
  fallback_loop excludeMap limit fallback allMovies
  = fallback
    ++ take (Z.to_nat (limit - Z.of_nat (length fallback)))
         (List.filter (fun m => negb (bool_decide (Movie.ID m ∈ excludeMap))) allMovies).
Proof.
  revert fallback. induction allMovies as [|m rest IH]; intros fallback; simpl.
  - by rewrite take_nil, app_nil_r.
  - destruct (Z.leb_spec limit (Z.of_nat (length fallback))) as [Hle|Hlt].
    + replace (Z.to_nat _) with 0%nat by lia. by rewrite take_0, app_nil_r.
    + destruct (negb (bool_decide (Movie.ID m ∈ excludeMap))); [|apply IH].
      rewrite IH, length_app. simpl. rewrite <- app_assoc. simpl.
      replace (Z.to_nat (limit - Z.of_nat (length fallback)))
        with (S (Z.to_nat (limit - Z.of_nat (length fallback + 1)))) by lia.
      done.
Qed.

Lemma getFallbackRecommendations_healthy excludeIDs limit w :
  healthy_for 1 w ->
  getFallbackRecommendations excludeIDs limit w
  = (Ok (take (Z.to_nat limit)
           (List.filter (fun m => negb (bool_decide (Movie.ID m ∈ excludeIDs)))
              (movies w))),
     skip_fault w).
Proof.
  intros Hok. unfold getFallbackRecommendations, attempt, FindAll.
  rewrite driver_query_healthy by done. unfold ret.
  rewrite fallback_loop_take. simpl. rewrite Z.sub_0_r.
  rewrite (List.filter_ext
             (fun m => negb (bool_decide (Movie.ID m ∈ (list_to_set excludeIDs : gset ObjectID))))
             (fun m => negb (bool_decide (Movie.ID m ∈ excludeIDs)))); [done|].
  intros m. f_equal. apply bool_decide_ext. by rewrite elem_of_list_to_set.
Qed.

(** X1. [getFallbackRecommendations] on a store that answers returns the
    first [limit] movies of the collection, in collection order, whose
    identifier is not excluded; it never fails, and when the query fails it
    returns no movie. *)
Theorem X1_fallback_is_first_candidates excludeIDs limit w :
  (healthy_for 1 w ->
   getFallbackRecommendations excludeIDs limit w
   = (Ok (take (Z.to_nat limit)
            (List.filter (fun m => negb (bool_decide (Movie.ID m ∈ excludeIDs)))
               (movies w))),
      skip_fault w))
  /\ (forall fs, db_faults w = true :: fs ->
      getFallbackRecommendations excludeIDs limit w = (Ok [], set_db_faults fs w)).
Proof.
  split; [apply getFallbackRecommendations_healthy|].
  intros fs Hfs. unfold getFallbackRecommendations, attempt, FindAll.
  destruct (driver_query_cases (fun w => Ok (movies w)) w) as [(fs' & E & ->)| E].
  - rewrite Hfs in E. by injection E as <-.
  - exfalso. revert E. unfold driver_query, driver_call. rewrite Hfs. done.
Qed.

Lemma X1_witness :
  fst (getFallbackRecommendations [1%N; 5%N] 2 (Fixture.five_movies []))
  = Ok [Fixture.m71; Fixture.m88].
Proof.
  rewrite (proj1 (X1_fallback_is_first_candidates [1%N; 5%N] 2 (Fixture.five_movies []))).
  - reflexivity.
  - by apply healthy_for_nil.
Defined.

Lemma reads_generateGenreBasedRecommendations env genres excludeIDs limit :
  reads (generateGenreBasedRecommendations env genres excludeIDs limit).
Proof. apply reads_genre_loop. Qed.

Lemma reads_GetRecommendations env userID limit :
  reads (GetRecommendations env userID limit).
Proof.
  unfold GetRecommendations.
  apply reads_bind; [apply reads_GetHighRatedGenres|intros genres].
  apply reads_bind; [apply reads_GetMoviesToExclude|intros excludeIDs].
  apply reads_bind; [apply reads_generateGenreBasedRecommendations|intros recs].
  apply reads_bind; [|intros ?; apply reads_limitResults].
  destruct (_ <? limit); [|apply reads_ret].
  apply reads_bind; [apply reads_getFallbackRecommendations|intros ?; apply reads_ret].
Qed.

(** A run of [GetRecommendations] that returns a list has got the genres
    and the exclusions. *)
Lemma GetRecommendations_ok_inv env userID limit w ms w' :
  GetRecommendations env userID limit w = (Ok ms, w') ->
  exists genres w1 excludeIDs w2,
    GetHighRatedGenres env userID 4 w = (Ok genres, w1)
    /\ GetMoviesToExclude userID w1 = (Ok excludeIDs, w2).
Proof.
  intros E.
  destruct (GetHighRatedGenres env userID 4 w) as [[genres|e|msg] w1] eqn:E1;
    [|unfold GetRecommendations, bind in E; rewrite E1 in E; done..].
  destruct (GetMoviesToExclude userID w1) as [[excludeIDs|e|msg] w2] eqn:E2;
    [|unfold GetRecommendations in E; unfold bind at 1 in E; rewrite E1 in E;
      unfold bind at 1 in E; rewrite E2 in E; done..].
  by exists genres, w1, excludeIDs, w2.
Qed.

(** X2. A list that [GetRecommendations] returns has at most [limit]
    entries (so the limit was not negative), and every entry is a movie of
    the store. *)
Theorem X2_at_most_limit_stored_movies env userID limit w ms w' :
  GetRecommendations env userID limit w = (Ok ms, w') ->
  0 <= limit
  /\ Z.of_nat (length ms) <= limit
  /\ forall m, m ∈ ms -> m ∈ movies w.
Proof.
  intros E.
  destruct (GetRecommendations_ok_inv _ _ _ _ _ _ E)
    as (genres & w1 & excludeIDs & w2 & E1 & E2).
  destruct (GetRecommendations_steps env userID limit w genres w1 excludeIDs w2 E1 E2)
    as (recs & w3 & fb & w4 & Egen & _ & _ & Efb & Erun).
  rewrite Erun in E.
  assert (Hlimit : 0 <= limit).
  { revert E. unfold limitResults.
    destruct (Z.leb_spec (Z.of_nat (length (recs ++ fb))) limit); [lia|].
    destruct (Z.ltb_spec limit 0); [done|lia]. }
  apply limitResults_ok in E as [-> ->].
  split; [done|]. split; [rewrite length_take; lia|].
  intros m (i & Hi & _)%elem_of_take. apply list_elem_of_lookup_2 in Hi.
  pose proof (reads_GetHighRatedGenres _ _ _ _ _ _ E1) as (M1 & _).
  pose proof (reads_GetMoviesToExclude _ _ _ _ E2) as (M2 & _).
  pose proof (reads_generateGenreBasedRecommendations _ _ _ _ _ _ _ Egen) as (M3 & _).
  apply elem_of_app in Hi as [Hi|Hi].
  - unfold generateGenreBasedRecommendations in Egen.
    destruct (genre_loop_matches _ _ _ _ _ _ _ _ Egen m Hi) as [H|[H _]].
    + by apply elem_of_nil in H.
    + by rewrite <- M1, <- M2.
  - destruct (Z.of_nat (length recs) <? limit); [|destruct Efb as [-> _]; by apply elem_of_nil in Hi].
    revert Efb. unfold getFallbackRecommendations, attempt, FindAll.
    destruct (driver_query_cases (fun w => Ok (movies w)) w3) as [(fs & _ & ->)| -> ].
    + intros [= <- _]. by apply elem_of_nil in Hi.
    + intros [= <- _]. apply elem_of_fallback_loop in Hi as [Hi|[Hi _]].
      * by apply elem_of_nil in Hi.
      * simpl in Hi. by rewrite <- M1, <- M2, <- M3.
Qed.

Lemma X2_witness :
  Forall (fun m => m ∈ movies (Fixture.five_movies []))
    [Fixture.mNA; Fixture.m88; Fixture.m71].
Proof.
  apply Forall_forall.
  eapply (X2_at_most_limit_stored_movies Fixture.env Fixture.user 3 (Fixture.five_movies [])).
  vm_compute. reflexivity.
Defined.

(** X3. [GetRecommendations] only reads: however it ends, with a list, an
    error or a panic, the three collections hold what they held and no
    request has gone to the catalog. *)
Theorem X3_recommendations_only_read env userID limit w r w' :
  GetRecommendations env userID limit w = (r, w') ->
  movies w' = movies w /\ ratings w' = ratings w
  /\ watchlists w' = watchlists w /\ omdb_calls w' = omdb_calls w.
Proof. apply reads_GetRecommendations. Qed.

Lemma X3_witness :
  movies (snd (GetRecommendations Fixture.env Fixture.user 3 (Fixture.five_movies [false; true])))
  = movies (Fixture.five_movies [false; true]).
Proof.
  eapply (X3_recommendations_only_read Fixture.env Fixture.user 3
            (Fixture.five_movies [false; true])).
  apply surjective_pairing.
Defined.

Lemma existsb_rating_of userID movieID w :
  existsb (rating_of userID movieID) (ratings w) = true <-> rated w userID movieID.
Proof.
  rewrite existsb_exists. unfold rated, rating_of. split.
  - intros (r & Hr & [Hu Hm]%andb_true_iff).
    exists r. rewrite list_elem_of_In. by apply N.eqb_eq in Hu, Hm.
  - intros (r & Hr & <- & <-). exists r. rewrite <- list_elem_of_In.
    by rewrite !N.eqb_refl.
Qed.

Lemma existsb_same_pair userID movieID w :
  existsb (same_pair userID movieID) (watchlists w) = true
  <-> watchlisted w userID movieID.
Proof.
  rewrite existsb_exists. unfold watchlisted, same_pair. split.
  - intros (r & Hr & [Hu Hm]%andb_true_iff).
    exists r. rewrite list_elem_of_In. by apply N.eqb_eq in Hu, Hm.
  - intros (r & Hr & <- & <-). exists r. rewrite <- list_elem_of_In.
    by rewrite !N.eqb_refl.
Qed.

Lemma candidates_filter userID w (excludeIDs : list ObjectID) (ms : list Movie.t) :
  (forall id, id ∈ excludeIDs <-> rated w userID id \/ watchlisted w userID id) ->
  ms = movies w ->
  List.filter (fun m => negb (bool_decide (Movie.ID m ∈ excludeIDs))) ms
  = candidates userID w.
Proof.
  intros Hex ->. unfold candidates. apply List.filter_ext. intros m.
  rewrite <- negb_orb. f_equal. apply eq_true_iff_eq.
  rewrite bool_decide_eq_true, orb_true_iff, existsb_rating_of, existsb_same_pair.
  apply Hex.
Qed.

Lemma GetRecommendations_no_genres env userID limit w w1 :
  GetHighRatedGenres env userID 4 w = (Ok [], w1) ->
  healthy_for 3 w1 ->
  0 <= limit ->
  exists w',
    GetRecommendations env userID limit w
    = (Ok (take (Z.to_nat limit) (candidates userID w)), w').
Proof.
  intros E1 Hok Hlimit.
  destruct (GetMoviesToExclude_healthy userID w1) as (excludeIDs & w2 & E2).
  { apply (healthy_for_le 3); [lia|done]. }
  pose proof (GetMoviesToExclude_ok _ _ _ _ E2) as [_ Hex].
  pose proof (reads_GetHighRatedGenres _ _ _ _ _ _ E1) as (M1 & R1 & W1 & _).
  pose proof (reads_GetMoviesToExclude _ _ _ _ E2) as (M2 & _).
  assert (Hex' : forall id, id ∈ excludeIDs <-> rated w userID id \/ watchlisted w userID id).
  { intros id. rewrite Hex. unfold rated, watchlisted. by rewrite R1, W1. }
  unfold GetRecommendations.
  unfold bind at 1. rewrite E1. unfold bind at 1. rewrite E2.
  unfold bind at 1, generateGenreBasedRecommendations. simpl.
  unfold bind at 1. change (Z.of_nat 0) with 0. rewrite Z.sub_0_r.
  destruct (Z.ltb_spec 0 limit) as [Hpos|Hzero].
  - unfold bind at 1. rewrite getFallbackRecommendations_healthy.
    2:{ revert E2 Hok. unfold GetMoviesToExclude, bind, GetRatedMovieIDs, GetWatchlistMovieIDs, bind.
        intros E2 Hok.
        rewrite driver_query_healthy in E2 by (apply (healthy_for_le 3); [lia|done]).
        unfold ret at 1 in E2.
        rewrite driver_query_healthy in E2
          by (apply (healthy_for_le 2); [lia|by apply healthy_for_skip]).
        injection E2 as _ <-. by do 2 apply healthy_for_skip. }
    unfold ret. simpl.
    rewrite (candidates_filter userID w excludeIDs) by (done || congruence).
    unfold limitResults.
    destruct (Z.leb_spec (Z.of_nat (length (take (Z.to_nat limit) (candidates userID w)))) limit)
      as [_|Hgt]; [by eexists|].
    rewrite length_take in Hgt. lia.
  - unfold ret. simpl. replace limit with 0 by lia. by eexists.
Qed.

(** X4. For a user for whom [GetHighRatedGenres] finds no genre,
    [GetRecommendations] with a limit that is not negative, on a store that
    answers, returns the first [limit] movies of the collection that the
    user has neither rated nor watchlisted, in collection order. *)
Theorem X4_no_genres_fallback_only env userID limit w w1 :
  GetHighRatedGenres env userID 4 w = (Ok [], w1) ->
  healthy_for 3 w1 ->
  0 <= limit ->
  fst (GetRecommendations env userID limit w)
  = Ok (take (Z.to_nat limit) (candidates userID w)).
Proof.
  intros E1 Hok Hlimit.
  destruct (GetRecommendations_no_genres env userID limit w w1 E1 Hok Hlimit) as [w' ->].
  done.
Qed.

Lemma X4_witness :
  fst (GetRecommendations Fixture.env Fixture.user 3 Fixture.new_user)
  = Ok [Fixture.seen; Fixture.m71; Fixture.m88].
Proof.
  rewrite (X4_no_genres_fallback_only Fixture.env Fixture.user 3 Fixture.new_user
             (skip_fault Fixture.new_user)).
  - reflexivity.
  - vm_compute. reflexivity.
  - by apply healthy_for_nil.
  - lia.
Defined.

(** X5. With a negative limit [GetRecommendations] panics, for the slice
    expression [movies[:limit]], as soon as the preferred genres and the
    exclusions are there; it asks for no candidates before. *)
Theorem X5_negative_limit_panics env userID limit w genres w1 excludeIDs w2 :
  limit < 0 ->
  GetHighRatedGenres env userID 4 w = (Ok genres, w1) ->
  GetMoviesToExclude userID w1 = (Ok excludeIDs, w2) ->
  GetRecommendations env userID limit w = (Panic "slice bounds out of range", w2).
Proof.
  intros Hneg E1 E2. unfold GetRecommendations.
  unfold bind at 1. rewrite E1. unfold bind at 1. rewrite E2.
  unfold bind at 1, generateGenreBasedRecommendations.
  assert (Egen : genre_loop env genres excludeIDs limit [] w2 = (Ok [], w2)).
  { destruct genres; simpl; [done|]. change (Z.of_nat 0) with 0.
    destruct (Z.leb_spec limit 0); [done|lia]. }
  rewrite Egen. unfold bind at 1. change (Z.of_nat (length [])) with 0.
  destruct (Z.ltb_spec 0 limit); [lia|].
  unfold ret, limitResults. simpl. change (Z.of_nat 0) with 0.
  destruct (Z.leb_spec 0 limit); [lia|].
  destruct (Z.ltb_spec limit 0); [done|lia].
Qed.

Lemma X5_witness :
  exists w2,
    GetRecommendations Fixture.env Fixture.user (-3) (Fixture.five_movies [])
    = (Panic "slice bounds out of range", w2).
Proof.
  eexists.
  eapply (X5_negative_limit_panics Fixture.env Fixture.user (-3) (Fixture.five_movies [])).
  - lia.
  - vm_compute. reflexivity.
  - vm_compute. reflexivity.
Defined.

(** X6. The genre phase returns at most [limit] movies (for a limit that
    is not negative); each is a movie of the store, is not excluded, and has
    a genre field that one of the preferred genres matches as a regular
    expression of the store. *)
Theorem X6_genre_phase_candidates env genres excludeIDs limit w recs w' :
  generateGenreBasedRecommendations env genres excludeIDs limit w = (Ok recs, w') ->
  0 <= limit ->
  Z.of_nat (length recs) <= limit
  /\ forall m, m ∈ recs ->
       m ∈ movies w
       /\ (Movie.ID m ∉ excludeIDs)
       /\ exists genre matches,
            genre ∈ genres /\ regex_i env genre = Some matches
            /\ matches (Movie.Genre m) = true.
Proof.
  unfold generateGenreBasedRecommendations. intros E Hlimit. split.
  - apply genre_loop_length in E. simpl in E. lia.
  - intros m Hm. destruct (genre_loop_matches _ _ _ _ _ _ _ _ E m Hm) as [H|[Hst Hg]].
    + by apply elem_of_nil in H.
    + split; [done|]. split; [|done].
      destruct (genre_loop_avoids _ _ _ _ _ _ _ _ E) as (ms & [= <-] & Hav).
      apply Hav; [|done]. by intros ? ?%elem_of_nil.
Qed.

Lemma X6_witness :
  Forall (fun m => Movie.ID m ∉ [1%N; 5%N]) [Fixture.mNA; Fixture.m88].
Proof.
  apply Forall_forall. intros m Hm.
  eapply (X6_genre_phase_candidates Fixture.env ["Action"; "Sci-Fi"] [1%N; 5%N] 2
            (Fixture.five_movies [])).
  - vm_compute. reflexivity.
  - lia.
  - exact Hm.
Defined.

(* ===================================================================== *)
(** * The order of the genre query *)
(* ===================================================================== *)

Lemma string_compare_gt_trans a b c :
  String.compare a b = Gt -> String.compare b c = Gt -> String.compare a c = Gt.
Proof.
  revert b c. induction a as [|x a IH]; intros [|y b] [|z c]; simpl; try done.
  unfold Ascii.compare.
  destruct (N.compare_spec (N_of_ascii x) (N_of_ascii y)) as [Exy|Hxy|Hxy]; [|done|];
    destruct (N.compare_spec (N_of_ascii y) (N_of_ascii z)) as [Eyz|Hyz|Hyz]; try done;
    destruct (N.compare_spec (N_of_ascii x) (N_of_ascii z)) as [Exz|Hxz|Hxz];
    try done; try lia.
  apply IH.
Qed.

Lemma string_compare_refl a : String.compare a a = Eq.
Proof.
  induction a as [|x a IH]; simpl; [done|].
  unfold Ascii.compare. by rewrite N.compare_refl.
Qed.

Lemma string_ltb_asym a b : String.ltb a b = true -> String.ltb b a = false.
Proof.
  unfold String.ltb. rewrite (String.compare_antisym a b).
  by destruct (String.compare b a).
Qed.

(** "Not less" is transitive in the order of strings. *)
Lemma string_ltb_false_trans a b c :
  String.ltb a b = false -> String.ltb b c = false -> String.ltb a c = false.
Proof.
  unfold String.ltb.
  destruct (String.compare a b) eqn:Eab; [|done|];
    destruct (String.compare b c) eqn:Ebc; try done; intros _ _.
  - apply String.compare_eq_iff in Eab, Ebc. subst.
    by rewrite string_compare_refl.
  - apply String.compare_eq_iff in Eab. subst. by rewrite Ebc.
  - apply String.compare_eq_iff in Ebc. subst. by rewrite Eab.
  - by rewrite (string_compare_gt_trans a b c).
Qed.

Section sort_by_order.
Context {A : Type} (first : A -> A -> bool).
Hypothesis first_trans :
  forall a b c, first b a = false -> first c b = false -> first c a = false.
Hypothesis first_asym : forall a b, first a b = true -> first b a = false.

Lemma ahead_sort_insert_order x y a l :
  ahead x y (sort_insert first a l) ->
  ahead x y l
  \/ (x = a /\ exists b, first b a = false /\ (y = b \/ ahead b y l))
  \/ (y = a /\ first x a = true).
Proof.
  induction l as [|b t IH]; simpl.
  - intros [[_ H]|H]%ahead_cons; [by apply elem_of_nil in H|by apply ahead_nil in H].
  - destruct (first b a) eqn:Hba.
    + intros [[-> Hy]|H]%ahead_cons.
      * rewrite (sort_insert_perm first a t) in Hy.
        apply elem_of_cons in Hy as [->|Hy].
        -- right; right. done.
        -- left. apply ahead_cons. by left.
      * destruct (IH H) as [H1|[(-> & c & Hc & Hyc)|(-> & Hk)]].
        -- left. apply ahead_cons. by right.
        -- right; left. split; [done|].
           exists c. split; [done|]. destruct Hyc as [->|Hyc]; [by left|].
           right. apply ahead_cons. by right.
        -- right; right. done.
    + intros [[-> Hy]|H]%ahead_cons; [|by left].
      right; left. split; [done|].
      exists b. split; [done|].
      apply elem_of_cons in Hy as [->|Hy]; [by left|].
      right. apply ahead_cons. by left.
Qed.

(** In the sorted list nothing stands behind an element that the order
    puts after it. *)
Lemma sort_stable_ordered l x y :
  ahead x y (sort_stable first l) -> first y x = false.
Proof.
  revert x y. induction l as [|a t IH]; intros x y; simpl.
  - by intros ?%ahead_nil.
  - intros [H|[(-> & b & Hb & Hy)|(-> & Hk)]]%ahead_sort_insert_order.
    + by apply IH.
    + destruct Hy as [->|Hy]; [done|]. apply IH in Hy.
      by apply (first_trans _ b).
    + by apply first_asym.
Qed.

End sort_by_order.

Lemma imdb_rating_desc_trans (a b c : Movie.t) :
  imdb_rating_desc b a = false -> imdb_rating_desc c b = false ->
  imdb_rating_desc c a = false.
Proof. unfold imdb_rating_desc. apply string_ltb_false_trans. Qed.

Lemma imdb_rating_desc_asym (a b : Movie.t) :
  imdb_rating_desc a b = true -> imdb_rating_desc b a = false.
Proof. unfold imdb_rating_desc. apply string_ltb_asym. Qed.

Lemma ahead_take {A} (x y : A) n l : ahead x y (take n l) -> ahead x y l.
Proof.
  intros H. rewrite <- (take_drop n l). apply ahead_app. by left.
Qed.

(** X7. The movies [GetMoviesByGenreExcludingIDs] returns come by
    descending rating text, in the byte order of strings: no movie stands
    behind one whose rating text is smaller. With a positive limit they are
    at most [limit]; with a limit that is not positive they are all the
    matching movies. *)
Theorem X7_genre_query_ordered env genre excludeIDs limit w ms w' :
  GetMoviesByGenreExcludingIDs env genre excludeIDs limit w = (Ok ms, w') ->
  (forall x y, ahead x y ms ->
     String.ltb (Movie.IMDbRating x) (Movie.IMDbRating y) = false)
  /\ (0 < limit -> Z.of_nat (length ms) <= limit)
  /\ (limit <= 0 ->
      exists matches,
        regex_i env genre = Some matches
        /\ forall m, m ∈ movies w -> matches (Movie.Genre m) = true ->
                     Movie.ID m ∉ excludeIDs -> m ∈ ms).
Proof.
  unfold GetMoviesByGenreExcludingIDs.
  match goal with |- driver_query ?q w = _ -> _ =>
    destruct (driver_query_cases q w) as [(fs & _ & ->)| -> ]; [done|] end.
  destruct (regex_i env genre) as [matches|]; [|done].
  intros [= <- <-]. split; [|split].
  - intros x y H.
    assert (H' : ahead x y (sort_stable imdb_rating_desc
                   (List.filter
                      (fun m => matches (Movie.Genre m)
                                && (if 0 <? Z.of_nat (length excludeIDs)
                                    then negb (bool_decide (Movie.ID m ∈ excludeIDs))
                                    else true))
                      (movies (skip_fault w))))).
    { destruct (0 <? limit); [by apply ahead_take in H|done]. }
    apply (sort_stable_ordered imdb_rating_desc imdb_rating_desc_trans
             imdb_rating_desc_asym) in H'.
    exact H'.
  - intros Hpos. destruct (Z.ltb_spec 0 limit); [|lia].
    rewrite length_take. lia.
  - intros Hle. destruct (Z.ltb_spec 0 limit); [lia|].
    exists matches. split; [done|]. intros m Hm Hg Hex.
    apply elem_of_sort_stable, list_elem_of_In, filter_In. split.
    + by apply list_elem_of_In.
    + rewrite Hg. simpl. destruct (0 <? _); [|done].
      apply negb_true_iff, bool_decide_eq_false. done.
Qed.

Lemma X7_witness :
  String.ltb (Movie.IMDbRating Fixture.mNA) (Movie.IMDbRating Fixture.m71) = false.
Proof.
  eapply (X7_genre_query_ordered Fixture.env "Action" [1%N; 5%N] 3 (Fixture.five_movies [])).
  - vm_compute. reflexivity.
  - exists [], [Fixture.m88], []. reflexivity.
Defined.

(* ===================================================================== *)
(** * The movies collection as a cache *)
(* ===================================================================== *)

Lemma cache_grows_same {A} (m : M A) :
  (forall w r w', m w = (r, w') ->
     movies w' = movies w /\ ratings w' = ratings w /\ watchlists w' = watchlists w) ->
  cache_grows m.
Proof.
  intros H w r w' E. destruct (H w r w' E) as (Hm & Hr & Hw).
  split; [exists []; by rewrite app_nil_r|].
  split; [|done]. unfold movies_unique. by rewrite Hm.
Qed.

Lemma cache_grows_reads {A} (m : M A) : reads m -> cache_grows m.
Proof.
  intros H. apply cache_grows_same. intros w r w' E.
  by destruct (H w r w' E) as (? & ? & ? & _).
Qed.

Lemma cache_grows_bind {A B} (m : M A) (k : A -> M B) :
  cache_grows m -> (forall a, cache_grows (k a)) -> cache_grows (bind m k).
Proof.
  intros Hm Hk w r w'. unfold bind.
  destruct (m w) as [[a|e|msg] w1] eqn:E; intros H;
    destruct (Hm _ _ _ E) as ([add1 A1] & U1 & R1 & W1).
  - destruct (Hk a _ _ _ H) as ([add2 A2] & U2 & R2 & W2).
    split; [exists (add1 ++ add2); by rewrite A2, A1, app_assoc|].
    split; [auto|]. split; congruence.
  - injection H as _ <-. split; [by exists add1|done].
  - injection H as _ <-. split; [by exists add1|done].
Qed.

Lemma cache_grows_attempt {A B} (m : M A) (k : A + GoError -> M B) :
  cache_grows m -> (forall x, cache_grows (k x)) -> cache_grows (attempt m k).
Proof.
  intros Hm Hk w r w'. unfold attempt.
  destruct (m w) as [[a|e|msg] w1] eqn:E; intros H;
    destruct (Hm _ _ _ E) as ([add1 A1] & U1 & R1 & W1).
  - destruct (Hk _ _ _ _ H) as ([add2 A2] & U2 & R2 & W2).
    split; [exists (add1 ++ add2); by rewrite A2, A1, app_assoc|].
    split; [auto|]. split; congruence.
  - destruct (Hk _ _ _ _ H) as ([add2 A2] & U2 & R2 & W2).
    split; [exists (add1 ++ add2); by rewrite A2, A1, app_assoc|].
    split; [auto|]. split; congruence.
  - injection H as _ <-. split; [by exists add1|done].
Qed.

Lemma cache_grows_driver_call {A} (f : M A) :
  cache_grows f -> cache_grows (driver_call f).
Proof.
  intros Hf w r w'.
  destruct (driver_call_cases f w) as [(fs & _ & ->)| -> ].
  - intros [= _ <-]. split; [exists []; by rewrite app_nil_r|done].
  - intros H. destruct (Hf _ _ _ H) as (A1 & U1 & R1 & W1). done.
Qed.

Lemma cache_grows_NewObjectID : cache_grows NewObjectID.
Proof. apply cache_grows_same. by intros w r w' [= _ <-]. Qed.

Lemma cache_grows_time_Now : cache_grows time_Now.
Proof. apply cache_grows_same. by intros w r w' [= _ <-]. Qed.

Lemma cache_grows_ret {A} (a : A) : cache_grows (ret a).
Proof. apply cache_grows_reads, reads_ret. Qed.

Lemma cache_grows_throw {A} e : cache_grows (@throw A e).
Proof. apply cache_grows_reads, reads_throw. Qed.

Lemma cache_grows_omdb_detail env imdbID : cache_grows (omdb_detail env imdbID).
Proof.
  apply cache_grows_same. intros w r w'. unfold omdb_detail.
  destruct (omdb env imdbID) as [| |code [o|]].
  - by intros [= _ <-].
  - by intros [= _ <-].
  - simpl. repeat case_match; by intros [= _ <-].
  - simpl. repeat case_match; by intros [= _ <-].
Qed.

Lemma movies_unique_snoc w doc :
  movies_unique w ->
  (forall d, d ∈ movies w ->
     Movie.ID d <> Movie.ID doc /\ Movie.IMDbID d <> Movie.IMDbID doc) ->
  NoDup (map Movie.ID (movies w ++ [doc]))
  /\ NoDup (map Movie.IMDbID (movies w ++ [doc])).
Proof.
  intros [U1 U2] Hnew. rewrite !map_app. simpl. split.
  - apply NoDup_app. split; [done|]. split; [|apply NoDup_singleton].
    intros id Hid ->%list_elem_of_singleton.
    apply list_elem_of_In, in_map_iff in Hid as (d & Ed & Hd).
    apply list_elem_of_In in Hd. by destruct (Hnew d Hd).
  - apply NoDup_app. split; [done|]. split; [|apply NoDup_singleton].
    intros id Hid ->%list_elem_of_singleton.
    apply list_elem_of_In, in_map_iff in Hid as (d & Ed & Hd).
    apply list_elem_of_In in Hd. by destruct (Hnew d Hd).
Qed.

Lemma existsb_false_elem {A} (p : A -> bool) (l : list A) x :
  existsb p l = false -> x ∈ l -> p x = false.
Proof.
  intros H Hx. apply not_true_is_false. intros Hp.
  assert (existsb p l = true); [|congruence].
  apply existsb_exists. exists x. by rewrite <- list_elem_of_In.
Qed.

Lemma cache_grows_movies_InsertOne m : cache_grows (movies_InsertOne m).
Proof.
  unfold movies_InsertOne. apply cache_grows_driver_call.
  apply cache_grows_bind.
  { destruct (_ =? _)%N; [apply cache_grows_NewObjectID|apply cache_grows_ret]. }
  intros id w r w'.
  destruct (existsb _ (movies w)) eqn:Hex.
  - intros [= _ <-]. split; [exists []; by rewrite app_nil_r|done].
  - intros [= _ <-]. simpl. split; [by eexists|]. split; [|done].
    intros Hu. apply movies_unique_snoc; [done|].
    intros d Hd. apply (existsb_false_elem _ _ d Hex) in Hd.
    apply orb_false_iff in Hd as [H1 H2]. simpl.
    apply N.eqb_neq in H1. apply String.eqb_neq in H2. done.
Qed.

Lemma cache_grows_Create movie : cache_grows (Create movie).
Proof.
  unfold Create, getCurrentTime.
  apply cache_grows_bind; [apply cache_grows_time_Now|intros ?].
  apply cache_grows_bind; [apply cache_grows_time_Now|intros ?].
  apply cache_grows_bind; [apply cache_grows_time_Now|intros ?].
  apply cache_grows_bind.
  { destruct (_ =? _)%N; [apply cache_grows_NewObjectID|apply cache_grows_ret]. }
  intros ?. apply cache_grows_bind; [apply cache_grows_movies_InsertOne|intros ?].
  apply cache_grows_ret.
Qed.

Lemma cache_grows_movies_FindOne filter : cache_grows (movies_FindOne filter).
Proof.
  unfold movies_FindOne. apply cache_grows_driver_call, cache_grows_same.
  intros w r w'. destruct (List.find filter (movies w)); by intros [= _ <-].
Qed.

Lemma cache_grows_FindByIMDbID imdbID : cache_grows (FindByIMDbID imdbID).
Proof.
  unfold FindByIMDbID.
  apply cache_grows_attempt; [apply cache_grows_movies_FindOne|].
  intros [m|e]; [apply cache_grows_ret|].
  destruct (is_ErrNoDocuments e); [apply cache_grows_ret|apply cache_grows_throw].
Qed.

Lemma cache_grows_GetOrCreateByIMDbID env imdbID :
  cache_grows (GetOrCreateByIMDbID env imdbID).
Proof.
  unfold GetOrCreateByIMDbID, GetOrCreateByIMDbID_lookup_fetch,
    GetOrCreateByIMDbID_insert, getCurrentTime.
  apply cache_grows_bind.
  - apply cache_grows_attempt; [apply cache_grows_movies_FindOne|].
    intros [m|e]; [apply cache_grows_ret|].
    destruct (negb _); [apply cache_grows_throw|].
    destruct (String.eqb (apiKey env) ""); [apply cache_grows_throw|].
    apply cache_grows_bind; [apply cache_grows_omdb_detail|intros o].
    repeat (destruct (String.eqb _ ""); [apply cache_grows_throw|]).
    repeat (apply cache_grows_bind;
            [first [apply cache_grows_NewObjectID|apply cache_grows_time_Now]|intros ?]).
    apply cache_grows_ret.
  - intros [m|m]; [apply cache_grows_ret|].
    apply cache_grows_attempt; [apply cache_grows_movies_InsertOne|].
    intros [?|?]; [apply cache_grows_ret|apply cache_grows_throw].
Qed.

Lemma cache_grows_GetMovieDetails env imdbID :
  cache_grows (GetMovieDetails env imdbID).
Proof.
  unfold GetMovieDetails.
  destruct (String.eqb _ ""); [apply cache_grows_throw|].
  apply cache_grows_attempt; [apply cache_grows_FindByIMDbID|].
  intros [m|e]; [apply cache_grows_ret|].
  destruct (String.eqb (apiKey env) ""); [apply cache_grows_throw|].
  apply cache_grows_bind; [apply cache_grows_omdb_detail|intros o].
  repeat (destruct (String.eqb _ ""); [apply cache_grows_throw|]).
  repeat (apply cache_grows_bind;
          [first [apply cache_grows_NewObjectID|apply cache_grows_time_Now]|intros ?]).
  apply cache_grows_attempt; [apply cache_grows_Create|].
  intros [?|?]; [apply cache_grows_ret|apply cache_grows_throw].
Qed.

Lemma cache_grows_cache_search_result env item :
  cache_grows (cache_search_result env item).
Proof.
  unfold cache_search_result, fetchMovieDetails.
  apply cache_grows_attempt; [apply cache_grows_FindByIMDbID|].
  assert (Hrest : cache_grows
    (let? fetched := omdb_detail env (OMDbResponse.IMDbID item) in
     match fetched with
     | inr _ => ret tt
     | inl details =>
         let! cached := time_Now in
         let! created := time_Now in
         let! updated := time_Now in
         let? _ := Create
           {| Movie.ID := 0%N;
              Movie.IMDbID := OMDbResponse.IMDbID details;
              Movie.Title := strings.TrimSpace (OMDbResponse.Title details);
              Movie.Year := strings.TrimSpace (OMDbResponse.Year details);
              Movie.Genre := strings.TrimSpace (OMDbResponse.Genre details);
              Movie.Director := strings.TrimSpace (OMDbResponse.Director details);
              Movie.Plot := strings.TrimSpace (OMDbResponse.Plot details);
              Movie.Poster := strings.TrimSpace (OMDbResponse.Poster details);
              Movie.Runtime := strings.TrimSpace (OMDbResponse.Runtime details);
              Movie.IMDbRating := strings.TrimSpace (OMDbResponse.IMDbRating details);
              Movie.CachedAt := cached;
              Movie.CreatedAt := created;
              Movie.UpdatedAt := updated |} in
         ret tt
     end)).
  { apply cache_grows_attempt; [apply cache_grows_omdb_detail|].
    intros [details|e]; [|apply cache_grows_ret].
    repeat (apply cache_grows_bind; [apply cache_grows_time_Now|intros ?]).
    apply cache_grows_attempt; [apply cache_grows_Create|intros ?; apply cache_grows_ret]. }
  intros [[m|]|e]; [apply cache_grows_ret|exact Hrest|exact Hrest].
Qed.

Lemma cache_grows_cache_search_results env items :
  cache_grows (cache_search_results env items).
Proof.
  induction items as [|item rest IH]; simpl; [apply cache_grows_ret|].
  apply cache_grows_bind; [apply cache_grows_cache_search_result|by intros ?].
Qed.

Lemma cache_grows_SearchMovies env search query :
  cache_grows (SearchMovies env search query).
Proof.
  unfold SearchMovies.
  destruct (String.eqb (apiKey env) ""); [apply cache_grows_throw|].
  destruct (String.eqb _ ""); [apply cache_grows_throw|].
  destruct (search query) as [| |code [resp|]]; try apply cache_grows_throw.
  - destruct (negb _); [apply cache_grows_throw|].
    destruct (String.eqb _ "False").
    { destruct (negb _); apply cache_grows_throw. }
    destruct (OMDbSearchResponse.Search resp) as [|item rest] eqn:Eitems;
      [apply cache_grows_ret|].
    apply cache_grows_bind; [apply cache_grows_cache_search_results|].
    intros ?. apply cache_grows_ret.
  - destruct (negb _); apply cache_grows_throw.
Qed.

(** X8. The operations that write to the movies collection,
    [GetOrCreateByIMDbID], [GetMovieDetails], [SearchMovies] and [Create],
    only ever add records at its end: whatever they return, the records
    that were there are still there, unchanged and in the same places. *)
Theorem X8_movie_cache_is_append_only env search :
  (forall imdbID, appends_movies (GetOrCreateByIMDbID env imdbID))
  /\ (forall imdbID, appends_movies (GetMovieDetails env imdbID))
  /\ (forall query, appends_movies (SearchMovies env search query))
  /\ (forall movie, appends_movies (Create movie)).
Proof.
  split; [|split; [|split]]; intros x w r w' E.
  - by apply (cache_grows_GetOrCreateByIMDbID env x w r w').
  - by apply (cache_grows_GetMovieDetails env x w r w').
  - by apply (cache_grows_SearchMovies env search x w r w').
  - by apply (cache_grows_Create x w r w').
Qed.

Lemma X8_witness :
  exists added,
    movies (snd (GetOrCreateByIMDbID Fixture.env "tt0133093" (Fixture.five_movies [])))
    = movies (Fixture.five_movies []) ++ added.
Proof.
  eapply (proj1 (X8_movie_cache_is_append_only Fixture.env Sample.search)).
  apply surjective_pairing.
Defined.




(** X11. Without an API key [GetOrCreateByIMDbID] never contacts the
    catalog and never writes: a stored record is still returned, and a miss
    on a store that answers fails with "OMDb API key not configured". *)
Theorem X11_no_api_key env imdbID w r w' :
  apiKey env = "" ->
  GetOrCreateByIMDbID env imdbID w = (r, w') ->
  omdb_calls w' = omdb_calls w
  /\ movies w' = movies w
  /\ (healthy_for 1 w ->
      r = match stored w imdbID with
          | Some movie => Ok movie
          | None => Err (Errorf "OMDb API key not configured")
          end).
Proof.
  intros Hkey.
  unfold GetOrCreateByIMDbID, bind at 1, GetOrCreateByIMDbID_lookup_fetch, attempt at 1.
  unfold movies_FindOne.
  match goal with |- context [driver_call ?f w] =>
    destruct (driver_call_cases f w) as [(fs & Efs & ->)| -> ] end.
  { simpl. intros [= <- <-]. split; [done|]. split; [done|].
    intros Hok. exfalso. apply (Hok 0%nat); [lia|]. by rewrite Efs. }
  simpl. fold (stored w imdbID).
  destruct (stored w imdbID) as [movie|]; simpl.
  - by intros [= <- <-].
  - rewrite Hkey. simpl. by intros [= <- <-].
Qed.

Lemma X11_witness :
  fst (GetOrCreateByIMDbID Sample.env_no_key "tt0133093" Fixture.empty)
  = Err (Errorf "OMDb API key not configured").
Proof.
  destruct (X11_no_api_key Sample.env_no_key "tt0133093" Fixture.empty _ _
              eq_refl (surjective_pairing _)) as (_ & _ & H).
  rewrite H; [reflexivity|by apply healthy_for_nil].
Defined.

Lemma Create_fresh movie w :
  healthy_for 1 w ->
  let id := if (Movie.ID movie =? 0)%N then Npos (next_oid w) else Movie.ID movie in
  id <> 0%N ->
  (forall d, d ∈ movies w -> Movie.ID d <> id /\ Movie.IMDbID d <> Movie.IMDbID movie) ->
  exists created w1,
    Create movie w = (Ok created, w1)
    /\ Movie.ID created = id
    /\ Movie.IMDbID created = Movie.IMDbID movie
    /\ Movie.Title created = Movie.Title movie
    /\ Movie.Genre created = Movie.Genre movie
    /\ Movie.IMDbRating created = Movie.IMDbRating movie
    /\ movies w1 = movies w ++ [created]
    /\ db_faults w1 = tl (db_faults w)
    /\ omdb_calls w1 = omdb_calls w
    /\ next_oid w1 = (if (Movie.ID movie =? 0)%N then Pos.succ (next_oid w) else next_oid w).
Proof.
  intros Hok id Hid Hnew.
  unfold Create, bind at 1, getCurrentTime, time_Now.
  unfold bind at 1. unfold bind at 1. unfold bind at 1.
  destruct (N.eqb_spec (Movie.ID movie) 0) as [Hzero|Hnz].
  - unfold NewObjectID at 1. cbn [next_oid set_clock].
    unfold bind at 1.
    erewrite movies_InsertOne_healthy.
    + unfold ret. cbn. eexists _, _. split; [reflexivity|]. cbn. done.
    + by apply (healthy_for_faults 1 w).
    + cbn. done.
    + intros d Hd. cbn in *. by apply Hnew.
  - unfold ret at 1. unfold bind at 1.
    erewrite movies_InsertOne_healthy.
    + unfold ret. cbn. apply N.eqb_neq in Hnz. rewrite Hnz.
      eexists _, _. split; [reflexivity|]. cbn. done.
    + by apply (healthy_for_faults 1 w).
    + cbn. done.
    + intros d Hd. cbn in *. by apply Hnew.
Qed.

Lemma find_app_new {A} (p : A -> bool) (l : list A) x :
  (forall d, d ∈ l -> p d = false) -> p x = true ->
  List.find p (l ++ [x]) = Some x.
Proof.
  intros Hl Hx. induction l as [|d l IH]; simpl; [by rewrite Hx|].
  rewrite (Hl d) by (by left). apply IH. intros d' Hd'. apply Hl. by right.
Qed.

Lemma FindByID_healthy id w :
  healthy_for 1 w ->
  FindByID id w
  = (Ok (List.find (fun d => (Movie.ID d =? id)%N) (movies w)), skip_fault w).
Proof.
  intros Hok. unfold FindByID, attempt. rewrite movies_FindOne_healthy by done.
  by destruct (List.find _ (movies w)).
Qed.

Lemma FindByIMDbID_healthy imdbID w :
  healthy_for 1 w ->
  FindByIMDbID imdbID w = (Ok (stored w imdbID), skip_fault w).
Proof.
  intros Hok. destruct (FindByIMDbID_cases imdbID w) as [(fs & Efs & _)|E]; [|done].
  exfalso. apply (Hok 0%nat); [lia|]. by rewrite Efs.
Qed.

(** X12. [Create] on a store that answers, for a movie whose IMDb ID is
    not in the store (and whose identifier, the fresh one for a zero ID, is
    not either): it returns the record with that identifier, one document
    is added to the store, and [FindByIMDbID] and [FindByID] then each find
    a record that agrees with the one returned in the identifier and in
    every field of the movie; nothing is said of the time stamps, which
    the store does not keep at full resolution. When the IMDb ID is in the
    store, [Create] fails with the duplicate key error and adds nothing. *)
Theorem X12_create_then_find movie w :
  healthy_for 2 w ->
  let id := if (Movie.ID movie =? 0)%N then Npos (next_oid w) else Movie.ID movie in
  id <> 0%N ->
  ((forall d, d ∈ movies w -> Movie.ID d <> id /\ Movie.IMDbID d <> Movie.IMDbID movie) ->
   exists created w1,
     Create movie w = (Ok created, w1)
     /\ Movie.ID created = id
     /\ Movie.IMDbID created = Movie.IMDbID movie
     /\ Movie.Title created = Movie.Title movie
     /\ Movie.Genre created = Movie.Genre movie
     /\ (exists doc, movies w1 = movies w ++ [doc] /\ same_but_times doc created)
     /\ (exists found,
           fst (FindByIMDbID (Movie.IMDbID movie) w1) = Ok (Some found)
           /\ same_but_times found created)
     /\ (exists found,
           fst (FindByID id w1) = Ok (Some found)
           /\ same_but_times found created))
  /\ ((exists d, d ∈ movies w /\ Movie.IMDbID d = Movie.IMDbID movie) ->
      exists w1, Create movie w = (Err mongo_DuplicateKey, w1)
                 /\ movies w1 = movies w).
Proof.
  intros Hok id Hid. split.
  - intros Hnew.
    destruct (Create_fresh movie w (healthy_for_le 2 1 w ltac:(lia) Hok) Hid Hnew)
      as (created & w1 & E & Eid & Eimdb & Et & Eg & _ & Em & Ef & _).
    exists created, w1. repeat (split; [done|]).
    assert (Hsame : same_but_times created created) by (by repeat split).
    split; [by exists created|].
    assert (Hok1 : healthy_for 1 w1).
    { apply (healthy_for_faults 1 (skip_fault w)); [done|]. by apply healthy_for_skip. }
    rewrite FindByIMDbID_healthy, FindByID_healthy by done. cbn [fst].
    unfold stored. rewrite Em. split; exists created; (split; [|done]);
      f_equal; apply find_app_new.
    + intros d Hd. apply String.eqb_neq. by apply Hnew.
    + rewrite Eimdb. apply String.eqb_refl.
    + intros d Hd. apply N.eqb_neq. by apply Hnew.
    + rewrite Eid. apply N.eqb_refl.
  - intros (d & Hd & Hsame).
    unfold Create, bind at 1, getCurrentTime, time_Now.
    unfold bind at 1. unfold bind at 1. unfold bind at 1.
    destruct (N.eqb_spec (Movie.ID movie) 0) as [Hzero|Hnz].
    + unfold NewObjectID at 1. cbn [next_oid set_clock]. unfold bind at 1.
      erewrite (movies_InsertOne_duplicate _ _ d).
      * eexists. split; [reflexivity|]. done.
      * apply (healthy_for_faults 1 w); [done|]. apply (healthy_for_le 2); [lia|done].
      * cbn. done.
      * done.
      * done.
    + unfold ret at 1. unfold bind at 1.
      erewrite (movies_InsertOne_duplicate _ _ d).
      * eexists. split; [reflexivity|]. done.
      * apply (healthy_for_faults 1 w); [done|]. apply (healthy_for_le 2); [lia|done].
      * cbn. done.
      * done.
      * done.
Qed.

Lemma X12_witness :
  exists created w1 found,
    Create (Fixture.movie 0%N "tt0000099" "New" "Drama" "7.0") (Fixture.five_movies [])
    = (Ok created, w1)
    /\ fst (FindByIMDbID "tt0000099" w1) = Ok (Some found)
    /\ Movie.Title found = Movie.Title created.
Proof.
  destruct (X12_create_then_find (Fixture.movie 0%N "tt0000099" "New" "Drama" "7.0")
              (Fixture.five_movies [])) as [H _].
  - by apply healthy_for_nil.
  - discriminate.
  - destruct H as (created & w1 & E & _ & _ & _ & _ & _ & (found & Hfind & Hsame) & _).
    + intros d Hd. vm_compute in Hd.
      repeat (apply elem_of_cons in Hd as [->|Hd]; [split; discriminate|]).
      by apply elem_of_nil in Hd.
    + exists created, w1, found. split; [exact E|]. split; [exact Hfind|].
      by destruct Hsame as (_ & _ & Htitle & _).
Defined.

(** X13. [GetMovieDetails] goes to the catalog, or writes to the store,
    only when its lookup in the store has failed: if a call changes the log
    of catalog requests or the movies collection, the ID was not blank and
    the first driver call of that run was a failing one. *)
Theorem X13_details_fetch_only_after_failed_lookup env imdbID w r w' :
  GetMovieDetails env imdbID w = (r, w') ->
  omdb_calls w' <> omdb_calls w \/ movies w' <> movies w ->
  strings.TrimSpace imdbID <> "" /\ exists fs, db_faults w = true :: fs.
Proof.
  unfold GetMovieDetails.
  destruct (String.eqb_spec (strings.TrimSpace imdbID) "") as [Hblank|Hid].
  { intros [= _ <-] [H|H]; done. }
  unfold attempt at 1.
  destruct (FindByIMDbID_cases imdbID w) as [(fs & Efs & ->)| -> ].
  - intros _ _. split; [done|by exists fs].
  - intros [= _ <-] [H|H]; done.
Qed.

Lemma X13_witness :
  strings.TrimSpace "tt0133093" <> ""
  /\ exists fs, db_faults (Fixture.world [] [] [] [true]) = true :: fs.
Proof.
  eapply (X13_details_fetch_only_after_failed_lookup Fixture.env "tt0133093"
            (Fixture.world [] [] [] [true])).
  - apply surjective_pairing.
  - left. vm_compute. discriminate.
Defined.



(* ===================================================================== *)
(** * Properties that operations keep *)
(* ===================================================================== *)

Section keeps.
Context (I : World -> Prop).

Lemma keeps_ret {A} (a : A) : keeps I (ret a).
Proof. by intros w r w' H [= _ <-]. Qed.

Lemma keeps_throw {A} e : keeps I (@throw A e).
Proof. by intros w r w' H [= _ <-]. Qed.

Lemma keeps_bind {A B} (m : M A) (k : A -> M B) :
  keeps I m -> (forall a, keeps I (k a)) -> keeps I (bind m k).
Proof.
  intros Hm Hk w r w' H. unfold bind.
  destruct (m w) as [[a|e|msg] w1] eqn:E; intros E'; apply (Hm _ _ _ H) in E.
  - by apply (Hk a _ _ _ E) in E'.
  - by injection E' as _ <-.
  - by injection E' as _ <-.
Qed.

Lemma keeps_attempt {A B} (m : M A) (k : A + GoError -> M B) :
  keeps I m -> (forall x, keeps I (k x)) -> keeps I (attempt m k).
Proof.
  intros Hm Hk w r w' H. unfold attempt.
  destruct (m w) as [[a|e|msg] w1] eqn:E; intros E'; apply (Hm _ _ _ H) in E.
  - by apply (Hk _ _ _ _ E) in E'.
  - by apply (Hk _ _ _ _ E) in E'.
  - by injection E' as _ <-.
Qed.

(** For a property that does not look at the faults to come. *)
Lemma keeps_driver_call {A} (f : M A) :
  (forall fs w, I w -> I (set_db_faults fs w)) ->
  keeps I f -> keeps I (driver_call f).
Proof.
  intros Hfs Hf w r w' H.
  destruct (driver_call_cases f w) as [(fs & _ & ->)| -> ].
  - intros [= _ <-]. by apply Hfs.
  - apply Hf. by apply Hfs.
Qed.

End keeps.

Lemma skip_fault_nil w : db_faults w = [] -> skip_fault w = w.
Proof. destruct w. simpl. by intros ->. Qed.

Lemma keeps_reads {A} (m : M A) c :
  reads m -> keeps (fun w => omdb_calls w = c) m.
Proof.
  intros Hm w r w' H E. apply Hm in E as (_ & _ & _ & E). congruence.
Qed.

Lemma keeps_calls_movies_InsertOne m c :
  keeps (fun w => omdb_calls w = c) (movies_InsertOne m).
Proof.
  unfold movies_InsertOne. apply keeps_driver_call; [done|].
  apply keeps_bind.
  - destruct (_ =? _)%N; [|apply keeps_ret]. by intros w r w' H [= _ <-].
  - intros id w r w' H. destruct (existsb _ _); by intros [= _ <-].
Qed.

Lemma keeps_calls_Create movie c :
  keeps (fun w => omdb_calls w = c) (Create movie).
Proof.
  unfold Create, getCurrentTime.
  do 3 (apply keeps_bind; [by intros w r w' H [= _ <-]|intros ?]).
  apply keeps_bind.
  - destruct (_ =? _)%N; [|apply keeps_ret]. by intros w r w' H [= _ <-].
  - intros ?. apply keeps_bind; [apply keeps_calls_movies_InsertOne|intros ?].
    apply keeps_ret.
Qed.

Lemma reads_FindByIMDbID imdbID : reads (FindByIMDbID imdbID).
Proof.
  intros w r w'.
  destruct (FindByIMDbID_cases imdbID w) as [(fs & _ & ->)| -> ];
    intros [= _ <-]; by repeat split.
Qed.

Lemma omdb_detail_calls env imdbID w r w' :
  omdb_detail env imdbID w = (r, w') ->
  (omdb_calls w' = omdb_calls w \/ omdb_calls w' = omdb_calls w ++ [imdbID])
  /\ movies w' = movies w /\ db_faults w' = db_faults w /\ next_oid w' = next_oid w
  /\ forall msg, r <> Panic msg.
Proof.
  unfold omdb_detail.
  destruct (omdb env imdbID) as [| |code [o|]]; simpl;
    repeat case_match; intros [= <- <-]; simpl; repeat split; auto; done.
Qed.

(** One turn of the caching loop sends at most one detail request, for
    the ID of the search result. *)
Lemma cache_search_result_calls env item w r w' :
  cache_search_result env item w = (r, w') ->
  omdb_calls w' = omdb_calls w
  \/ omdb_calls w' = omdb_calls w ++ [OMDbResponse.IMDbID item].
Proof.
  unfold cache_search_result, attempt at 1.
  destruct (FindByIMDbID (OMDbResponse.IMDbID item) w) as [x w1] eqn:E1.
  pose proof (reads_FindByIMDbID _ _ _ _ E1) as (_ & _ & _ & C1).
  assert (Hrest : forall r w',
    (let? fetched := fetchMovieDetails env (OMDbResponse.IMDbID item) in
     match fetched with
     | inr _ => ret tt
     | inl details =>
         let! cached := time_Now in
         let! created := time_Now in
         let! updated := time_Now in
         let? _ := Create
           {| Movie.ID := 0%N;
              Movie.IMDbID := OMDbResponse.IMDbID details;
              Movie.Title := strings.TrimSpace (OMDbResponse.Title details);
              Movie.Year := strings.TrimSpace (OMDbResponse.Year details);
              Movie.Genre := strings.TrimSpace (OMDbResponse.Genre details);
              Movie.Director := strings.TrimSpace (OMDbResponse.Director details);
              Movie.Plot := strings.TrimSpace (OMDbResponse.Plot details);
              Movie.Poster := strings.TrimSpace (OMDbResponse.Poster details);
              Movie.Runtime := strings.TrimSpace (OMDbResponse.Runtime details);
              Movie.IMDbRating := strings.TrimSpace (OMDbResponse.IMDbRating details);
              Movie.CachedAt := cached;
              Movie.CreatedAt := created;
              Movie.UpdatedAt := updated |} in
         ret tt
     end) w1 = (r, w') ->
    omdb_calls w' = omdb_calls w
    \/ omdb_calls w' = omdb_calls w ++ [OMDbResponse.IMDbID item]).
  { clear r w'. intros r w'. unfold attempt at 1, fetchMovieDetails.
    destruct (omdb_detail env (OMDbResponse.IMDbID item) w1) as [y w2] eqn:E2.
    pose proof (omdb_detail_calls _ _ _ _ _ E2) as (C2 & _).
    rewrite C1 in C2.
    destruct y as [details|e|msg]; [|by intros [= _ <-]..].
    intros E3.
    assert (K : keeps (fun w => omdb_calls w = omdb_calls w2)
      (let! cached := time_Now in
       let! created := time_Now in
       let! updated := time_Now in
       let? _ := Create
         {| Movie.ID := 0%N;
            Movie.IMDbID := OMDbResponse.IMDbID details;
            Movie.Title := strings.TrimSpace (OMDbResponse.Title details);
            Movie.Year := strings.TrimSpace (OMDbResponse.Year details);
            Movie.Genre := strings.TrimSpace (OMDbResponse.Genre details);
            Movie.Director := strings.TrimSpace (OMDbResponse.Director details);
            Movie.Plot := strings.TrimSpace (OMDbResponse.Plot details);
            Movie.Poster := strings.TrimSpace (OMDbResponse.Poster details);
            Movie.Runtime := strings.TrimSpace (OMDbResponse.Runtime details);
            Movie.IMDbRating := strings.TrimSpace (OMDbResponse.IMDbRating details);
            Movie.CachedAt := cached;
            Movie.CreatedAt := created;
            Movie.UpdatedAt := updated |} in
       ret tt)).
    { do 3 (apply keeps_bind; [by intros ? ? ? H [= _ <-]|intros ?]).
      apply keeps_attempt; [apply keeps_calls_Create|intros ?; apply keeps_ret]. }
    apply (K w2) in E3; [|done]. by rewrite E3. }
  destruct x as [[m|]|e|msg].
  - intros [= _ <-]. by left.
  - apply Hrest.
  - apply Hrest.
  - intros [= _ <-]. by left.
Qed.

Lemma cache_search_results_calls env items w r w' :
  cache_search_results env items w = (r, w') ->
  exists requested,
    omdb_calls w' = omdb_calls w ++ requested
    /\ requested `sublist_of` map OMDbResponse.IMDbID items.
Proof.
  revert w. induction items as [|item rest IH]; intros w; simpl.
  - intros [= _ <-]. exists []. by rewrite app_nil_r.
  - unfold bind.
    destruct (cache_search_result env item w) as [x w1] eqn:E1.
    apply cache_search_result_calls in E1.
    destruct x as [[]|e|msg].
    + intros (requested & C & S)%IH. destruct E1 as [E1|E1]; rewrite E1 in C.
      * exists requested. split; [done|]. by apply sublist_cons.
      * exists (OMDbResponse.IMDbID item :: requested).
        rewrite <- app_assoc in C. split; [done|]. by apply sublist_skip.
    + intros [= _ <-]. destruct E1 as [E1|E1].
      * exists []. rewrite app_nil_r. split; [done|]. apply sublist_nil_l.
      * exists [OMDbResponse.IMDbID item]. split; [done|].
        apply sublist_skip, sublist_nil_l.
    + intros [= _ <-]. destruct E1 as [E1|E1].
      * exists []. rewrite app_nil_r. split; [done|]. apply sublist_nil_l.
      * exists [OMDbResponse.IMDbID item]. split; [done|].
        apply sublist_skip, sublist_nil_l.
Qed.

(** [Create] of a movie with a zero ID on a store with no fault to come
    and fresh object IDs: when the IMDb ID is stored the insert is refused
    for the duplicate key, and otherwise the record gets the next object ID
    and goes in. *)
Lemma Create_zero_nil movie w :
  db_faults w = [] ->
  oids_fresh w ->
  Movie.ID movie = 0%N ->
  exists r w',
    Create movie w = (r, w')
    /\ db_faults w' = [] /\ oids_fresh w' /\ omdb_calls w' = omdb_calls w
    /\ match stored w (Movie.IMDbID movie) with
       | Some _ => r = Err mongo_DuplicateKey /\ movies w' = movies w
       | None =>
           exists created,
             r = Ok created /\ movies w' = movies w ++ [created]
             /\ Movie.ID created = Npos (next_oid w)
             /\ Movie.IMDbID created = Movie.IMDbID movie
             /\ Movie.Genre created = Movie.Genre movie
       end.
Proof.
  intros Hnil Hfresh Hzero.
  destruct (Create movie w) as [o w'] eqn:E. exists o, w'. split; [done|].
  revert E.
  unfold Create, bind at 1, getCurrentTime, time_Now.
  unfold bind at 1. unfold bind at 1. unfold bind at 1.
  destruct (N.eqb_spec (Movie.ID movie) 0) as [_|Hnz]; [|done].
  unfold NewObjectID at 1. cbn [next_oid set_clock].
  unfold bind at 1, movies_InsertOne.
  rewrite driver_call_healthy by (by apply healthy_for_nil).
  rewrite skip_fault_nil by done.
  unfold bind at 1. cbn [Movie.ID N.eqb]. unfold ret at 1.
  match goal with |- context [existsb ?p ?l] => destruct (existsb p l) eqn:Ex end.
  - intros [= <- <-]. cbn in Ex |- *. split; [done|]. split.
    { intros d Hd. specialize (Hfresh d Hd). cbn in Hd |- *. lia. }
    split; [done|].
    apply existsb_exists in Ex as (d & Hd & Hp). apply list_elem_of_In in Hd.
    apply orb_true_iff in Hp as [Hp|Hp].
    + apply N.eqb_eq in Hp. specialize (Hfresh d Hd). lia.
    + apply String.eqb_eq in Hp.
      destruct (stored w (Movie.IMDbID movie)) eqn:Es; [done|].
      by destruct (stored_none_elem _ _ _ Es Hd).
  - cbn in Ex |- *. intros [= <- <-]. cbn. split; [done|]. split.
    { intros d [Hd| ->%list_elem_of_singleton]%elem_of_app; cbn; [|lia].
      specialize (Hfresh d Hd). lia. }
    split; [done|].
    destruct (stored w (Movie.IMDbID movie)) as [m|] eqn:Es.
    + apply List.find_some in Es as [Hm Hp].
      apply list_elem_of_In in Hm.
      apply (existsb_false_elem _ _ _ Ex) in Hm. rewrite Hp, orb_true_r in Hm. done.
    + eexists. split; [reflexivity|]. done.
Qed.

Lemma omdb_detail_fst env imdbID w w0 :
  fst (omdb_detail env imdbID w) = fst (omdb_detail env imdbID w0).
Proof.
  unfold omdb_detail.
  destruct (omdb env imdbID) as [| |code [o|]]; simpl; repeat case_match; done.
Qed.

Lemma omdb_detail_ok env imdbID w details w' :
  omdb_detail env imdbID w = (Ok details, w') ->
  omdb_calls w' = omdb_calls w ++ [imdbID].
Proof.
  unfold omdb_detail.
  destruct (omdb env imdbID) as [| |code [o|]]; simpl;
    repeat case_match; intros [= <- <-]; done.
Qed.

Lemma omdb_detail_valid env imdbID w details :
  omdb env imdbID = HttpResponse 200 (Some details) ->
  OMDbResponse.Response details <> "False" ->
  fst (omdb_detail env imdbID w) = Ok details.
Proof.
  intros Hreply Hvalid%String.eqb_neq. unfold omdb_detail.
  rewrite Hreply. simpl. by rewrite Hvalid.
Qed.

(** One turn of the caching loop on a store with no fault to come. *)
Lemma cache_search_result_nil env item w :
  db_faults w = [] -> oids_fresh w ->
  exists w',
    cache_search_result env item w = (Ok tt, w')
    /\ db_faults w' = [] /\ oids_fresh w'
    /\ match stored w (OMDbResponse.IMDbID item) with
       | Some _ => movies w' = movies w /\ omdb_calls w' = omdb_calls w
       | None =>
           match fst (omdb_detail env (OMDbResponse.IMDbID item) w) with
           | Ok details =>
               omdb_calls w' = omdb_calls w ++ [OMDbResponse.IMDbID item]
               /\ match stored w (OMDbResponse.IMDbID details) with
                  | Some _ => movies w' = movies w
                  | None =>
                      exists created,
                        movies w' = movies w ++ [created]
                        /\ Movie.IMDbID created = OMDbResponse.IMDbID details
                        /\ Movie.Genre created
                           = strings.TrimSpace (OMDbResponse.Genre details)
                  end
           | _ =>
               movies w' = movies w
               /\ (omdb_calls w' = omdb_calls w
                   \/ omdb_calls w' = omdb_calls w ++ [OMDbResponse.IMDbID item])
           end
       end.
Proof.
  intros Hnil Hfresh.
  unfold cache_search_result, attempt at 1.
  rewrite FindByIMDbID_healthy by (by apply healthy_for_nil).
  rewrite skip_fault_nil by done.
  destruct (stored w (OMDbResponse.IMDbID item)) as [m|] eqn:Es.
  { exists w. done. }
  unfold attempt at 1, fetchMovieDetails.
  destruct (omdb_detail env (OMDbResponse.IMDbID item) w) as [y w2] eqn:E2.
  pose proof (omdb_detail_calls _ _ _ _ _ E2) as (Ec2 & Em & Ef & En & Hnp).
  cbn [fst].
  assert (Hfresh2 : oids_fresh w2).
  { intros d Hd. rewrite Em in Hd. rewrite En. by apply Hfresh. }
  destruct y as [details|e|msg]; [|exists w2; split; [done|]; by rewrite Ef..|by destruct (Hnp msg)].
  apply omdb_detail_ok in E2.
  unfold bind at 1, time_Now. unfold bind at 1. unfold bind at 1. unfold attempt.
  match goal with |- context [Create ?m ?w0] =>
    destruct (Create_zero_nil m w0) as (r & w' & E & Ef' & Hfresh' & Ec & Hcase)
  end.
  - cbn. by rewrite Ef.
  - intros d Hd. cbn in Hd |- *. by apply Hfresh2.
  - done.
  - rewrite E. exists w'.
    cbn in Ec. rewrite Ec, E2.
    replace (stored _ _) with (stored w (OMDbResponse.IMDbID details)) in Hcase
      by (unfold stored; cbn; by rewrite Em).
    cbn in Hcase. rewrite Em in Hcase.
    destruct (stored w (OMDbResponse.IMDbID details)).
    + destruct Hcase as [-> Hm]. done.
    + destruct Hcase as (created & -> & Hm & _ & Hi & Hg).
      repeat (split; [done|]). by exists created.
Qed.

Lemma movies_InsertOne_no_panic m w msg : fst (movies_InsertOne m w) <> Panic msg.
Proof.
  unfold movies_InsertOne.
  match goal with |- context [driver_call ?f w] =>
    destruct (driver_call_cases f w) as [(fs & _ & ->)| -> ]
  end; [done|].
  unfold bind. destruct (_ =? _)%N; simpl; destruct (existsb _ _); done.
Qed.

Lemma Create_no_panic movie w msg : fst (Create movie w) <> Panic msg.
Proof.
  unfold Create, bind at 1, getCurrentTime, time_Now.
  unfold bind at 1. unfold bind at 1. unfold bind at 1.
  destruct (_ =? _)%N; [unfold NewObjectID at 1|unfold ret at 1]; unfold bind at 1;
    match goal with |- context [movies_InsertOne ?m ?w0] =>
      pose proof (movies_InsertOne_no_panic m w0 msg) as H;
      destruct (movies_InsertOne m w0) as [[id|e|msg'] w1]
    end; simpl in *; congruence.
Qed.

(** The caching loop of [SearchMovies] swallows every error. *)
Lemma cache_search_result_ok env item w :
  fst (cache_search_result env item w) = Ok tt.
Proof.
  unfold cache_search_result, attempt at 1.
  match goal with |- context [attempt (fetchMovieDetails env ?i) ?k] =>
    assert (Hrest : forall w1, fst (attempt (fetchMovieDetails env i) k w1) = Ok tt)
  end.
  { intros w1. unfold attempt at 1, fetchMovieDetails.
    destruct (omdb_detail env (OMDbResponse.IMDbID item) w1) as [y w2] eqn:E2.
    pose proof (omdb_detail_calls _ _ _ _ _ E2) as (_ & _ & _ & _ & Hnp).
    destruct y as [details|e|msg]; [|done|by destruct (Hnp msg)].
    unfold bind at 1, time_Now. unfold bind at 1. unfold bind at 1. unfold attempt.
    match goal with |- context [Create ?m ?w0] =>
      pose proof (Create_no_panic m w0) as H;
      destruct (Create m w0) as [[c|e|msg] w3]
    end; [done|done|by destruct (H msg)]. }
  destruct (FindByIMDbID_cases (OMDbResponse.IMDbID item) w) as [(fs & _ & ->)| -> ].
  - apply Hrest.
  - destruct (stored w (OMDbResponse.IMDbID item)); [done|apply Hrest].
Qed.

Lemma cache_search_results_ok env items w :
  fst (cache_search_results env items w) = Ok tt.
Proof.
  revert w. induction items as [|item rest IH]; intros w; simpl; [done|].
  unfold bind. pose proof (cache_search_result_ok env item w) as H.
  destruct (cache_search_result env item w) as [[[]|e|msg] w1]; simpl in H; done.
Qed.

Lemma find_app_cases {A} (p : A -> bool) (l1 l2 : list A) :
  List.find p (l1 ++ l2)
  = match List.find p l1 with Some x => Some x | None => List.find p l2 end.
Proof. induction l1 as [|x l1 IH]; simpl; [done|]. by destruct (p x). Qed.

(** The caching loop on a store with no fault to come. *)
Lemma cache_search_results_nil env items w :
  db_faults w = [] -> oids_fresh w ->
  exists w' requested,
    cache_search_results env items w = (Ok tt, w')
    /\ db_faults w' = [] /\ oids_fresh w'
    /\ (exists added, movies w' = movies w ++ added)
    /\ omdb_calls w' = omdb_calls w ++ requested
    /\ (forall id, id ∈ requested -> stored w id = None)
    /\ (forall item details,
          item ∈ items ->
          fst (omdb_detail env (OMDbResponse.IMDbID item) w) = Ok details ->
          stored w' (OMDbResponse.IMDbID item) <> None
          \/ stored w' (OMDbResponse.IMDbID details) <> None).
Proof.
  revert w. induction items as [|item rest IH]; intros w Hnil Hfresh; simpl.
  { exists w, []. rewrite !app_nil_r. repeat (split; [done|]). split.
    - exists []. by rewrite app_nil_r.
    - split; [done|].
      split; [by intros id Hid%elem_of_nil|by intros item details Hi%elem_of_nil]. }
  unfold bind.
  destruct (cache_search_result_nil env item w Hnil Hfresh)
    as (w1 & -> & Hnil1 & Hfresh1 & Hturn).
  destruct (IH w1 Hnil1 Hfresh1)
    as (w' & requested & -> & Hnil' & Hfresh' & [added Hm] & Hc & Hreq & Hall).
  assert (Hgrow : exists first, movies w1 = movies w ++ first
                    /\ (omdb_calls w1 = omdb_calls w
                        \/ omdb_calls w1 = omdb_calls w ++ [OMDbResponse.IMDbID item]
                           /\ stored w (OMDbResponse.IMDbID item) = None)).
  { destruct (stored w (OMDbResponse.IMDbID item)) eqn:Es.
    - destruct Hturn as [E1 E2]. exists []. rewrite app_nil_r. split; [done|by left].
    - destruct (fst (omdb_detail env (OMDbResponse.IMDbID item) w)) as [details|e|msg].
      + destruct Hturn as [E1 E2]. destruct (stored w (OMDbResponse.IMDbID details)).
        * exists []. rewrite app_nil_r. split; [done|by right].
        * destruct E2 as (created & E2 & _). exists [created]. split; [done|by right].
      + destruct Hturn as [E1 [E2|E2]]; exists []; rewrite app_nil_r;
          (split; [done|]); [by left|by right].
      + destruct Hturn as [E1 [E2|E2]]; exists []; rewrite app_nil_r;
          (split; [done|]); [by left|by right]. }
  destruct Hgrow as (first & Hm1 & Hc1).
  assert (Hmono : forall id, stored w1 id = None -> stored w id = None).
  { intros id. unfold stored. rewrite Hm1, find_app_cases.
    by destruct (List.find _ (movies w)). }
  assert (Hmono' : forall id, stored w1 id <> None -> stored w' id <> None).
  { intros id. unfold stored. rewrite Hm, find_app_cases.
    by destruct (List.find _ (movies w1)). }
  assert (Hreq1 : exists req1, omdb_calls w1 = omdb_calls w ++ req1
                     /\ forall id, id ∈ req1 -> stored w id = None).
  { destruct Hc1 as [Hc1|[Hc1 Hs]].
    - exists []. rewrite app_nil_r. split; [done|by intros id Hid%elem_of_nil].
    - exists [OMDbResponse.IMDbID item]. split; [done|].
      by intros id ->%list_elem_of_singleton. }
  destruct Hreq1 as (req1 & Hc1' & Hreq1).
  exists w', (req1 ++ requested).
  split; [done|]. split; [done|]. split; [done|]. split.
  { exists (first ++ added). by rewrite Hm, Hm1, app_assoc. }
  split.
  { by rewrite Hc, Hc1', app_assoc. }
  split.
  { intros id [Hid|Hid]%elem_of_app; [by apply Hreq1|]. apply Hmono. by apply Hreq. }
  intros item' details [->|Hin]%elem_of_cons Hd.
  - destruct (stored w (OMDbResponse.IMDbID item)) eqn:Es.
    + left. apply Hmono'. destruct Hturn as [E1 _]. unfold stored. rewrite E1.
      fold (stored w (OMDbResponse.IMDbID item)). by rewrite Es.
    + right. apply Hmono'. rewrite Hd in Hturn. destruct Hturn as [_ E2].
      destruct (stored w (OMDbResponse.IMDbID details)) eqn:Es'.
      * unfold stored. rewrite E2. fold (stored w (OMDbResponse.IMDbID details)).
        by rewrite Es'.
      * destruct E2 as (created & E2 & Hi & _). unfold stored. rewrite E2.
        by erewrite stored_app_new.
  - apply (Hall item' details Hin).
    by rewrite (omdb_detail_fst env _ w1 w).
Qed.

(* ===================================================================== *)
(** * Searching the catalog *)
(* ===================================================================== *)

(** X15. [SearchMovies] checks its configuration and its argument before
    anything else: without an API key it fails with "OMDb API key not
    configured", whatever the query, and with a key and a query that is
    blank after trimming it fails with "search query cannot be empty";
    neither touches the store or the catalog. *)
Theorem X15_search_rejects_bad_arguments env search query w :
  apiKey env = "" \/ strings.TrimSpace query = "" ->
  SearchMovies env search query w
  = (Err (Errorf (if String.eqb (apiKey env) ""
                  then "OMDb API key not configured"
                  else "search query cannot be empty")), w).
Proof.
  intros H. unfold SearchMovies.
  destruct (String.eqb_spec (apiKey env) "") as [Hkey|Hkey]; [done|].
  destruct H as [H|H]; [done|]. by rewrite H.
Qed.

Lemma X15_witness :
  SearchMovies Sample.env_no_key Sample.search "matrix" Fixture.empty
  = (Err (Errorf "OMDb API key not configured"), Fixture.empty)
  /\ SearchMovies Fixture.env Sample.search "  " Fixture.empty
     = (Err (Errorf "search query cannot be empty"), Fixture.empty).
Proof.
  split.
  - apply (X15_search_rejects_bad_arguments Sample.env_no_key Sample.search "matrix").
    left. reflexivity.
  - apply (X15_search_rejects_bad_arguments Fixture.env Sample.search "  ").
    right. reflexivity.
Defined.

Lemma SearchMovies_valid env search query resp w :
  apiKey env <> "" ->
  strings.TrimSpace query <> "" ->
  search query = SearchHttpResponse 200 (Some resp) ->
  OMDbSearchResponse.Response resp <> "False" ->
  SearchMovies env search query w
  = (Ok (OMDbSearchResponse.Search resp),
     snd (cache_search_results env (OMDbSearchResponse.Search resp) w)).
Proof.
  intros Hkey%String.eqb_neq Hquery%String.eqb_neq Hsearch Hvalid%String.eqb_neq.
  unfold SearchMovies. rewrite Hkey, Hquery, Hsearch. simpl. rewrite Hvalid.
  destruct (OMDbSearchResponse.Search resp) as [|item rest] eqn:Es; [done|].
  unfold bind at 1.
  pose proof (cache_search_results_ok env (item :: rest) w) as Hok.
  destruct (cache_search_results env (item :: rest) w) as [r w1].
  simpl in Hok. by rewrite Hok.
Qed.

(** X16. With a key and a query, a search the catalog answers with status
    200 and a document that is not an error document returns the
    document's list of results, whatever happens while the results are
    cached: faults of the store and failures of the detail requests are
    swallowed. The detail requests sent are for IDs of the results, in
    the order of the results and at most one for each result, and the
    movies collection only grows at its end. *)
Theorem X16_search_returns_results env search query resp w :
  apiKey env <> "" ->
  strings.TrimSpace query <> "" ->
  search query = SearchHttpResponse 200 (Some resp) ->
  OMDbSearchResponse.Response resp <> "False" ->
  exists w' requested added,
    SearchMovies env search query w = (Ok (OMDbSearchResponse.Search resp), w')
    /\ omdb_calls w' = omdb_calls w ++ requested
    /\ requested `sublist_of` map OMDbResponse.IMDbID (OMDbSearchResponse.Search resp)
    /\ movies w' = movies w ++ added.
Proof.
  intros Hkey Hquery Hsearch Hvalid.
  rewrite (SearchMovies_valid env search query resp w) by done.
  destruct (cache_search_results env (OMDbSearchResponse.Search resp) w)
    as [r w'] eqn:E.
  destruct (cache_search_results_calls _ _ _ _ _ E) as (requested & Hc & Hs).
  destruct (cache_grows_cache_search_results env _ _ _ _ E) as ([added Hm] & _).
  by exists w', requested, added.
Qed.

Lemma X16_witness :
  exists w',
    SearchMovies Fixture.env Sample.search "matrix" (Fixture.world [] [] [] [true; true; true])
    = ( Ok [Sample.result "tt0133093" "The Matrix"; Sample.result "tt7777777" "Lost"], w').
Proof.
  destruct (X16_search_returns_results Fixture.env Sample.search "matrix"
              {| OMDbSearchResponse.Search :=
                   [Sample.result "tt0133093" "The Matrix";
                    Sample.result "tt7777777" "Lost"];
                 OMDbSearchResponse.TotalResults := "2";
                 OMDbSearchResponse.Response := "True";
                 OMDbSearchResponse.Error := "" |}
              (Fixture.world [] [] [] [true; true; true]))
    as (w' & requested & added & E & _).
  - vm_compute. discriminate.
  - vm_compute. discriminate.
  - reflexivity.
  - vm_compute. discriminate.
  - by exists w'.
Defined.

(** X17. The same search on a store with no fault to come and fresh
    object IDs. A detail request goes out only for an ID that was not in
    the store when the search began; and afterwards, for every result
    whose ID the catalog serves details for, the store holds a record under
    the result's ID or under the ID the details carry. *)
Theorem X17_search_caches_details env search query resp w :
  db_faults w = [] ->
  oids_fresh w ->
  apiKey env <> "" ->
  strings.TrimSpace query <> "" ->
  search query = SearchHttpResponse 200 (Some resp) ->
  OMDbSearchResponse.Response resp <> "False" ->
  exists w' requested,
    SearchMovies env search query w = (Ok (OMDbSearchResponse.Search resp), w')
    /\ omdb_calls w' = omdb_calls w ++ requested
    /\ (forall id, id ∈ requested -> stored w id = None)
    /\ (forall item details,
          item ∈ OMDbSearchResponse.Search resp ->
          omdb env (OMDbResponse.IMDbID item) = HttpResponse 200 (Some details) ->
          OMDbResponse.Response details <> "False" ->
          stored w' (OMDbResponse.IMDbID item) <> None
          \/ stored w' (OMDbResponse.IMDbID details) <> None).
Proof.
  intros Hnil Hfresh Hkey Hquery Hsearch Hvalid.
  rewrite (SearchMovies_valid env search query resp w) by done.
  destruct (cache_search_results_nil env (OMDbSearchResponse.Search resp) w Hnil Hfresh)
    as (w' & requested & -> & _ & _ & _ & Hc & Hreq & Hall).
  exists w', requested. repeat (split; [done|]).
  intros item details Hin Hreply Hok. apply (Hall item details Hin).
  by apply omdb_detail_valid.
Qed.

Lemma X17_witness :
  exists w',
    snd (SearchMovies Fixture.env Sample.search "matrix" Fixture.empty) = w'
    /\ stored w' "tt0133093" <> None.
Proof.
  destruct (X17_search_caches_details Fixture.env Sample.search "matrix"
              {| OMDbSearchResponse.Search :=
                   [Sample.result "tt0133093" "The Matrix";
                    Sample.result "tt7777777" "Lost"];
                 OMDbSearchResponse.TotalResults := "2";
                 OMDbSearchResponse.Response := "True";
                 OMDbSearchResponse.Error := "" |}
              Fixture.empty)
    as (w' & requested & E & _ & _ & Hall).
  - reflexivity.
  - intros d Hd. vm_compute in Hd. by apply elem_of_nil in Hd.
  - vm_compute. discriminate.
  - vm_compute. discriminate.
  - reflexivity.
  - vm_compute. discriminate.
  - exists w'. split; [by rewrite E|].
    destruct (Hall (Sample.result "tt0133093" "The Matrix")
                (Fixture.detail "tt0133093" " The Matrix " "Action, Sci-Fi" "8.7"))
      as [H|H]; [by left|reflexivity|vm_compute; discriminate|exact H|exact H].
Defined.

(* ===================================================================== *)
(** * The watchlist *)
(* ===================================================================== *)

Lemma count_pos_existsb {A} (p : A -> bool) (l : list A) :
  (0 <? Z.of_nat (length (List.filter p l))) = existsb p l.
Proof.
  induction l as [|x l IH]; simpl; [done|].
  destruct (p x); simpl; [|done]. apply Z.ltb_lt. lia.
Qed.

Lemma existsb_orb_false {A} (f g : A -> bool) (l : list A) :
  existsb (fun d => f d || g d) l = false -> existsb g l = false.
Proof.
  induction l as [|x l IH]; simpl; [done|].
  intros [[_ ->]%orb_false_iff H]%orb_false_iff. by rewrite IH.
Qed.

Lemma not_watchlisted userID movieID w :
  existsb (same_pair userID movieID) (watchlists w) = false
  <-> ~ watchlisted w userID movieID.
Proof.
  rewrite <- existsb_same_pair. by destruct (existsb _ _).
Qed.

Lemma Exists_cases userID movieID w :
  (exists fs, db_faults w = true :: fs
              /\ WatchlistRepository.Exists userID movieID w
                 = (Err mongo_DriverError, set_db_faults fs w))
  \/ WatchlistRepository.Exists userID movieID w
     = (Ok (existsb (same_pair userID movieID) (watchlists w)), skip_fault w).
Proof.
  unfold WatchlistRepository.Exists, bind.
  match goal with |- context [driver_query ?q w] =>
    destruct (driver_query_cases q w) as [(fs & Efs & ->)| -> ]
  end.
  - left. by exists fs.
  - right. unfold ret. by rewrite count_pos_existsb.
Qed.

Lemma watchlists_InsertOne_inv e w r w' :
  Watchlist.ID e = 0%N ->
  watchlists_InsertOne e w = (r, w') ->
  movies w' = movies w /\ ratings w' = ratings w /\ omdb_calls w' = omdb_calls w
  /\ match r with
     | Ok id =>
         existsb (same_pair (Watchlist.UserID e) (Watchlist.MovieID e)) (watchlists w)
         = false
         /\ watchlists w'
            = watchlists w
              ++ [{| Watchlist.ID := id; Watchlist.UserID := Watchlist.UserID e;
                     Watchlist.MovieID := Watchlist.MovieID e;
                     Watchlist.AddedAt := Watchlist.AddedAt e;
                     Watchlist.CreatedAt := Watchlist.CreatedAt e;
                     Watchlist.UpdatedAt := Watchlist.UpdatedAt e |}]
     | _ => watchlists w' = watchlists w
     end.
Proof.
  intros Hzero. unfold watchlists_InsertOne.
  match goal with |- context [driver_call ?f w] =>
    destruct (driver_call_cases f w) as [(fs & _ & ->)| -> ]
  end.
  { by intros [= <- <-]. }
  unfold bind. rewrite Hzero. simpl.
  destruct (existsb _ _) eqn:Ex; intros [= <- <-]; [done|].
  repeat (split; [done|]). split; [|done].
  by apply existsb_orb_false in Ex.
Qed.

Lemma Add_inv e w r w' :
  Watchlist.ID e = 0%N ->
  WatchlistRepository.Add e w = (r, w') ->
  movies w' = movies w /\ ratings w' = ratings w /\ omdb_calls w' = omdb_calls w
  /\ match r with
     | Ok added =>
         existsb (same_pair (Watchlist.UserID e) (Watchlist.MovieID e)) (watchlists w)
         = false
         /\ watchlists w' = watchlists w ++ [added]
         /\ Watchlist.UserID added = Watchlist.UserID e
         /\ Watchlist.MovieID added = Watchlist.MovieID e
     | _ => watchlists w' = watchlists w
     end.
Proof.
  intros Hzero.
  unfold WatchlistRepository.Add, bind at 1, getCurrentTime, time_Now.
  unfold bind at 1. unfold bind at 1. unfold bind at 1.
  match goal with |- context [watchlists_InsertOne ?e0 ?w0] =>
    destruct (watchlists_InsertOne e0 w0) as [[id|err|msg] w1] eqn:E;
    (apply watchlists_InsertOne_inv in E; [|done])
  end; cbn in E; intros [= <- <-]; cbn; tauto.
Qed.

Lemma AddToWatchlist_inv userID movieID w r w' :
  AddToWatchlist userID movieID w = (r, w') ->
  movies w' = movies w /\ ratings w' = ratings w /\ omdb_calls w' = omdb_calls w
  /\ match r with
     | Ok _ =>
         ~ watchlisted w userID movieID
         /\ exists added,
              watchlists w' = watchlists w ++ [added]
              /\ Watchlist.UserID added = userID
              /\ Watchlist.MovieID added = movieID
     | _ => watchlists w' = watchlists w
     end.
Proof.
  unfold AddToWatchlist, bind at 1.
  destruct (Exists_cases userID movieID w) as [(fs & _ & ->)| -> ].
  { by intros [= <- <-]. }
  destruct (existsb _ (watchlists w)) eqn:Ex.
  { by intros [= <- <-]. }
  unfold bind.
  match goal with |- context [WatchlistRepository.Add ?e0 ?w0] =>
    destruct (WatchlistRepository.Add e0 w0) as [[added|err|msg] w1] eqn:E;
    (apply Add_inv in E; [|done])
  end; cbn in E; intros [= <- <-]; [|tauto..].
  destruct E as (Em & Er & Ec & _ & Ew & Eu & Emv).
  repeat (split; [done|]). split; [by apply not_watchlisted|by exists added].
Qed.

Lemma watchlists_unique_snoc w w' added :
  watchlists_unique w ->
  ~ watchlisted w (Watchlist.UserID added) (Watchlist.MovieID added) ->
  watchlists w' = watchlists w ++ [added] ->
  watchlists_unique w'.
Proof.
  unfold watchlists_unique. intros Hu Hnot ->. rewrite map_app. simpl.
  apply NoDup_app. split; [done|]. split; [|apply NoDup_singleton].
  intros p Hp ->%list_elem_of_singleton. apply Hnot.
  apply list_elem_of_In, in_map_iff in Hp as (e & [= Eu Em] & He).
  apply list_elem_of_In in He. by exists e.
Qed.

(** X18. Whatever [AddToWatchlist] comes back with, it leaves the movies
    and the ratings alone and keeps the watchlists free of double entries.
    When it succeeds, the movie was not in the user's watchlist, and the
    watchlist collection has one more entry at its end, for this user and
    this movie; when it fails, the collection is as it was. *)
Theorem X18_add_to_watchlist userID movieID w r w' :
  AddToWatchlist userID movieID w = (r, w') ->
  movies w' = movies w /\ ratings w' = ratings w
  /\ (watchlists_unique w -> watchlists_unique w')
  /\ match r with
     | Ok _ =>
         ~ watchlisted w userID movieID
         /\ exists added,
              watchlists w' = watchlists w ++ [added]
              /\ Watchlist.UserID added = userID
              /\ Watchlist.MovieID added = movieID
     | _ => watchlists w' = watchlists w
     end.
Proof.
  intros (Em & Er & _ & H)%AddToWatchlist_inv. repeat (split; [done|]).
  split; [|done]. intros Hu.
  destruct r as [[]|e|msg]; [|unfold watchlists_unique; by rewrite H..].
  destruct H as (Hnot & added & Ew & <- & <-).
  by apply (watchlists_unique_snoc w w' added).
Qed.

Lemma X18_witness :
  exists added,
    watchlists (snd (AddToWatchlist Fixture.user 3%N (Fixture.five_movies [])))
    = watchlists (Fixture.five_movies []) ++ [added]
    /\ Watchlist.MovieID added = 3%N.
Proof.
  destruct (X18_add_to_watchlist Fixture.user 3%N (Fixture.five_movies [])
              (Ok tt) (snd (AddToWatchlist Fixture.user 3%N (Fixture.five_movies []))))
    as (_ & _ & _ & _ & added & E & _ & Em).
  - vm_compute. reflexivity.
  - by exists added.
Defined.

Lemma Exists_healthy userID movieID w :
  healthy_for 1 w ->
  WatchlistRepository.Exists userID movieID w
  = (Ok (existsb (same_pair userID movieID) (watchlists w)), skip_fault w).
Proof.
  intros Hok. destruct (Exists_cases userID movieID w) as [(fs & Efs & _)|E]; [|done].
  exfalso. apply (Hok 0%nat); [lia|]. by rewrite Efs.
Qed.

Lemma existsb_orb_false_intro {A} (f g : A -> bool) (l : list A) :
  (forall d, d ∈ l -> f d = false) -> existsb g l = false ->
  existsb (fun d => f d || g d) l = false.
Proof.
  induction l as [|x l IH]; simpl; [done|].
  intros Hf [Hg Hl]%orb_false_iff. rewrite (Hf x), Hg by (by left). simpl.
  apply IH; [|done]. intros d Hd. apply Hf. by right.
Qed.

Lemma AddToWatchlist_healthy userID movieID w :
  healthy_for 2 w ->
  ~ watchlisted w userID movieID ->
  (forall e, e ∈ watchlists w -> Watchlist.ID e <> Npos (next_oid w)) ->
  exists added w',
    AddToWatchlist userID movieID w = (Ok tt, w')
    /\ watchlists w' = watchlists w ++ [added]
    /\ Watchlist.ID added = Npos (next_oid w)
    /\ Watchlist.UserID added = userID
    /\ Watchlist.MovieID added = movieID.
Proof.
  intros Hok Hnot%not_watchlisted Hfresh.
  unfold AddToWatchlist, bind at 1.
  rewrite Exists_healthy by (apply (healthy_for_le 2); [lia|done]).
  rewrite Hnot.
  unfold bind at 1, WatchlistRepository.Add, bind at 1, getCurrentTime, time_Now.
  unfold bind at 1. unfold bind at 1. unfold bind at 1.
  unfold watchlists_InsertOne.
  rewrite driver_call_healthy
    by (apply (healthy_for_faults 1 (skip_fault w)); [done|by apply healthy_for_skip]).
  unfold bind at 1. cbn [Watchlist.ID N.eqb]. unfold NewObjectID at 1.
  cbn [Watchlist.UserID Watchlist.MovieID].
  match goal with |- context [existsb ?p ?l] =>
    replace (existsb p l) with false
  end.
  - unfold ret. eexists _, _. split; [reflexivity|]. done.
  - symmetry. apply existsb_orb_false_intro; [|exact Hnot].
    intros d Hd. apply N.eqb_neq. by apply Hfresh.
Qed.

(** X19. [AddToWatchlist] on a store whose next two driver calls go
    through. For a movie that is in the user's watchlist it fails with
    "movie already in watchlist" and changes nothing. For one that is not
    (and with the next object ID not yet in use) it succeeds, the new
    entry for this user and movie carries the next object ID, and the movie
    is in the user's watchlist afterwards. *)
Theorem X19_add_to_watchlist_on_healthy_store userID movieID w :
  healthy_for 2 w ->
  (watchlisted w userID movieID ->
   AddToWatchlist userID movieID w
   = (Err (Errorf "movie already in watchlist"), skip_fault w))
  /\ (~ watchlisted w userID movieID ->
      (forall e, e ∈ watchlists w -> Watchlist.ID e <> Npos (next_oid w)) ->
      exists added w',
        AddToWatchlist userID movieID w = (Ok tt, w')
        /\ watchlists w' = watchlists w ++ [added]
        /\ Watchlist.ID added = Npos (next_oid w)
        /\ watchlisted w' userID movieID).
Proof.
  intros Hok. split.
  - intros Hin%existsb_same_pair. unfold AddToWatchlist, bind.
    rewrite Exists_healthy by (apply (healthy_for_le 2); [lia|done]).
    by rewrite Hin.
  - intros Hnot Hfresh.
    destruct (AddToWatchlist_healthy userID movieID w Hok Hnot Hfresh)
      as (added & w' & E & Ew & Eid & Eu & Em).
    exists added, w'. repeat (split; [done|]).
    exists added. rewrite Ew. split; [|done].
    apply elem_of_app. right. by apply list_elem_of_singleton.
Qed.

Lemma X19_witness :
  AddToWatchlist Fixture.user 5%N (Fixture.five_movies [])
  = (Err (Errorf "movie already in watchlist"), skip_fault (Fixture.five_movies [])).
Proof.
  apply (X19_add_to_watchlist_on_healthy_store Fixture.user 5%N (Fixture.five_movies [])).
  - by apply healthy_for_nil.
  - exists (Fixture.watch 1%N Fixture.user 5%N). split; [|done].
    apply list_elem_of_singleton. reflexivity.
Defined.

Lemma delete_first_absent {A} (p : A -> bool) (l : list A) :
  existsb p l = false -> delete_first p l = l.
Proof.
  induction l as [|x l IH]; simpl; [done|].
  intros [-> H]%orb_false_iff. by rewrite IH.
Qed.

Lemma delete_first_snoc {A} (p : A -> bool) (l : list A) x :
  existsb p l = false -> p x = true -> delete_first p (l ++ [x]) = l.
Proof.
  intros Hl Hx. induction l as [|y l IH]; simpl in *; [by rewrite Hx|].
  apply orb_false_iff in Hl as [-> Hl]. by rewrite IH.
Qed.

Lemma elem_of_delete_first {A} (p : A -> bool) (l : list A) x :
  x ∈ delete_first p l -> x ∈ l.
Proof.
  induction l as [|y l IH]; simpl; [done|].
  destruct (p y); [by right|].
  intros [->|H]%elem_of_cons; [by left|right; by apply IH].
Qed.

Lemma elem_of_delete_first_other {A} (p : A -> bool) (l : list A) x :
  p x = false -> x ∈ l -> x ∈ delete_first p l.
Proof.
  intros Hx. induction l as [|y l IH]; simpl; [done|].
  intros [->|H]%elem_of_cons; [rewrite Hx; by left|].
  destruct (p y); [done|right; by apply IH].
Qed.

Lemma NoDup_map_delete_first {A B} (f : A -> B) (p : A -> bool) (l : list A) :
  NoDup (map f l) -> NoDup (map f (delete_first p l)).
Proof.
  induction l as [|x l IH]; simpl; [done|].
  intros [Hx Hl]%NoDup_cons. destruct (p x); [done|]. simpl.
  apply NoDup_cons. split; [|by apply IH].
  intros Hin. apply Hx.
  apply list_elem_of_In, in_map_iff in Hin as (y & Ey & Hy).
  apply list_elem_of_In, elem_of_delete_first, list_elem_of_In in Hy.
  apply list_elem_of_In, in_map_iff. by exists y.
Qed.

Lemma delete_first_gone userID movieID (l : list Watchlist.t) :
  NoDup (map (fun e => (Watchlist.UserID e, Watchlist.MovieID e)) l) ->
  existsb (same_pair userID movieID) (delete_first (same_pair userID movieID) l) = false.
Proof.
  induction l as [|x l IH]; simpl; [done|].
  intros [Hx Hl]%NoDup_cons.
  destruct (same_pair userID movieID x) eqn:Ex; simpl.
  - apply not_true_is_false. intros (y & Hy & Hp)%existsb_exists. apply Hx.
    apply list_elem_of_In, in_map_iff. exists y. split; [|done].
    unfold same_pair in *.
    apply andb_true_iff in Ex as [->%N.eqb_eq ->%N.eqb_eq].
    by apply andb_true_iff in Hp as [->%N.eqb_eq ->%N.eqb_eq].
  - rewrite Ex. simpl. by apply IH.
Qed.

Lemma Remove_cases userID movieID w :
  (exists fs, db_faults w = true :: fs
              /\ WatchlistRepository.Remove userID movieID w
                 = (Err mongo_DriverError, set_db_faults fs w))
  \/ WatchlistRepository.Remove userID movieID w
     = (Ok tt,
        set_watchlists (delete_first (same_pair userID movieID) (watchlists w))
          (skip_fault w)).
Proof.
  unfold WatchlistRepository.Remove.
  match goal with |- context [driver_call ?f w] =>
    destruct (driver_call_cases f w) as [(fs & Efs & ->)| -> ]
  end; [left; by exists fs|by right].
Qed.

(** X20. On a store that answers, [RemoveFromWatchlist] returns no error,
    whether or not the movie is in the user's watchlist. Whatever it comes
    back with, it leaves the movies and the ratings alone and keeps the
    watchlists free of double entries; a failure leaves the watchlists as
    they were. When it succeeds, the entries for other users or other
    movies are the ones there were; for a movie that was not in the user's
    watchlist nothing changes; and in watchlists without double entries
    the movie is no longer in the user's watchlist. *)
Theorem X20_remove_from_watchlist userID movieID w r w' :
  RemoveFromWatchlist userID movieID w = (r, w') ->
  (healthy_for 1 w -> r = Ok tt)
  /\ movies w' = movies w /\ ratings w' = ratings w
  /\ (watchlists_unique w -> watchlists_unique w')
  /\ match r with
     | Ok _ =>
         (forall e, same_pair userID movieID e = false ->
                    e ∈ watchlists w' <-> e ∈ watchlists w)
         /\ (~ watchlisted w userID movieID -> watchlists w' = watchlists w)
         /\ (watchlists_unique w -> ~ watchlisted w' userID movieID)
     | _ => watchlists w' = watchlists w
     end.
Proof.
  unfold RemoveFromWatchlist.
  destruct (Remove_cases userID movieID w) as [(fs & Efs & ->)| -> ];
    intros [= <- <-].
  { split; [|done]. intros Hok. exfalso. apply (Hok 0%nat); [lia|]. by rewrite Efs. }
  cbn. repeat (split; [done|]). split; [apply NoDup_map_delete_first|].
  split; [|split].
  - intros e He. split; [apply elem_of_delete_first|by apply elem_of_delete_first_other].
  - intros Hnot%not_watchlisted. by apply delete_first_absent.
  - intros Hu. apply not_watchlisted. cbn. by apply delete_first_gone.
Qed.

Lemma X20_witness :
  fst (RemoveFromWatchlist Fixture.user 3%N (Fixture.five_movies [])) = Ok tt
  /\ watchlists (snd (RemoveFromWatchlist Fixture.user 3%N (Fixture.five_movies [])))
     = watchlists (Fixture.five_movies []).
Proof.
  destruct (X20_remove_from_watchlist Fixture.user 3%N (Fixture.five_movies [])
              (fst (RemoveFromWatchlist Fixture.user 3%N (Fixture.five_movies [])))
              (snd (RemoveFromWatchlist Fixture.user 3%N (Fixture.five_movies []))))
    as (Hok & _ & _ & _ & H).
  - apply surjective_pairing.
  - assert (E : fst (RemoveFromWatchlist Fixture.user 3%N (Fixture.five_movies [])) = Ok tt).
    { apply Hok. by apply healthy_for_nil. }
    split; [exact E|]. rewrite E in H. destruct H as (_ & H & _). apply H.
    intros (e & He & _ & Hm). vm_compute in He.
    apply list_elem_of_singleton in He. subst e. discriminate Hm.
Defined.

(** X21. Removing a movie right after it was added puts the watchlist
    collection back as it was before the two calls. *)
Theorem X21_add_then_remove userID movieID w w1 w2 :
  AddToWatchlist userID movieID w = (Ok tt, w1) ->
  RemoveFromWatchlist userID movieID w1 = (Ok tt, w2) ->
  watchlists w2 = watchlists w.
Proof.
  intros (_ & _ & _ & Hnot & added & Ew & Eu & Em)%AddToWatchlist_inv.
  unfold RemoveFromWatchlist.
  destruct (Remove_cases userID movieID w1) as [(fs & _ & ->)| -> ]; [done|].
  intros [= <-]. cbn. rewrite Ew. apply delete_first_snoc.
  - by apply not_watchlisted.
  - unfold same_pair. by rewrite Eu, Em, !N.eqb_refl.
Qed.

Lemma X21_witness :
  watchlists
    (snd (RemoveFromWatchlist Fixture.user 3%N
            (snd (AddToWatchlist Fixture.user 3%N (Fixture.five_movies [])))))
  = watchlists (Fixture.five_movies []).
Proof.
  apply (X21_add_then_remove Fixture.user 3%N (Fixture.five_movies [])
           (snd (AddToWatchlist Fixture.user 3%N (Fixture.five_movies [])))).
  - vm_compute. reflexivity.
  - vm_compute. reflexivity.
Defined.

Lemma driver_call_step {A} (f : M A) w :
  driver_call f w = (Err mongo_DriverError, skip_fault w)
  \/ driver_call f w = f (skip_fault w).
Proof.
  destruct (driver_call_cases f w) as [(fs & Efs & ->)| -> ]; [left|by right].
  unfold skip_fault. by rewrite Efs.
Qed.

Lemma getMovieByID_step movieID w :
  exists r, WatchlistRepository.getMovieByID movieID w = (r, skip_fault w)
            /\ forall msg, r <> Panic msg.
Proof.
  unfold WatchlistRepository.getMovieByID, attempt, movies_FindOne.
  match goal with |- context [driver_call ?f w] =>
    destruct (driver_call_step f w) as [-> | -> ]
  end; simpl.
  - by eexists.
  - destruct (List.find _ _); by eexists.
Qed.

Lemma skip_fault_same_store w : same_store w (skip_fault w).
Proof. by repeat split. Qed.

Lemma db_faults_skip_fault w : db_faults (skip_fault w) = drop 1 (db_faults w).
Proof. unfold skip_fault. simpl. by destruct (db_faults w). Qed.

(** The loop of [GetUserWatchlist] makes one driver call for each entry
    and comes to its end whatever the calls answer. *)
Lemma populate_steps watchlist w :
  exists w',
    WatchlistRepository.populate watchlist w = (Ok tt, w')
    /\ same_store w w'
    /\ db_faults w' = drop (length watchlist) (db_faults w).
Proof.
  revert w. induction watchlist as [|entry rest IH]; intros w; simpl.
  { exists w. split; [done|]. split; [apply same_store_refl|done]. }
  unfold attempt.
  destruct (getMovieByID_step (Watchlist.MovieID entry) w) as (r & -> & Hnp).
  destruct (IH (skip_fault w)) as (w' & E & Hs & Hf).
  exists w'.
  assert (Hf' : db_faults w' = drop (S (length rest)) (db_faults w)).
  { rewrite Hf, db_faults_skip_fault, drop_drop. done. }
  assert (Hs' : same_store w w').
  { apply (same_store_trans _ (skip_fault w)); [apply skip_fault_same_store|done]. }
  destruct r as [m|e|msg]; [done|done|by destruct (Hnp msg)].
Qed.

(** X22. [GetUserWatchlist] changes nothing in the store. When its query
    fails it returns the store's error. Otherwise it returns the user's
    entries in the order of the collection, after one more driver call for
    each entry, to look the movie up; whether these find the movie, find
    nothing or fail makes no difference to what is returned. *)
Theorem X22_user_watchlist userID w r w' :
  WatchlistRepository.GetUserWatchlist userID w = (r, w') ->
  same_store w w'
  /\ ((r = Err mongo_DriverError /\ exists fs, db_faults w = true :: fs)
      \/ (r = Ok (List.filter (fun e => (Watchlist.UserID e =? userID)%N) (watchlists w))
          /\ db_faults w'
             = drop (S (length (List.filter (fun e => (Watchlist.UserID e =? userID)%N)
                                  (watchlists w))))
                 (db_faults w))).
Proof.
  unfold WatchlistRepository.GetUserWatchlist, bind at 1.
  match goal with |- context [driver_query ?q w] =>
    destruct (driver_query_cases q w) as [(fs & Efs & ->)| -> ]
  end.
  { intros [= <- <-]. split; [by repeat split|]. left. split; [done|by exists fs]. }
  unfold bind.
  match goal with |- context [WatchlistRepository.populate ?l ?w0] =>
    destruct (populate_steps l w0) as (w1 & -> & Hs & Hf)
  end.
  intros [= <- <-]. split.
  - apply (same_store_trans _ (skip_fault w)); [apply skip_fault_same_store|done].
  - right. split; [done|].
    by rewrite Hf, db_faults_skip_fault, drop_drop.
Qed.

Lemma X22_witness :
  fst (WatchlistRepository.GetUserWatchlist Fixture.user
         (Fixture.five_movies [false; true]))
  = Ok [Fixture.watch 1%N Fixture.user 5%N].
Proof.
  destruct (X22_user_watchlist Fixture.user (Fixture.five_movies [false; true]) _ _
              (surjective_pairing _)) as (_ & [[_ [fs Hfs]]|[-> _]]).
  - discriminate Hfs.
  - reflexivity.
Defined.

Lemma added_at_desc_trans a b c :
  WatchlistRepository.added_at_desc b a = false ->
  WatchlistRepository.added_at_desc c b = false ->
  WatchlistRepository.added_at_desc c a = false.
Proof.
  unfold WatchlistRepository.added_at_desc. rewrite !N.ltb_ge. lia.
Qed.

Lemma added_at_desc_asym a b :
  WatchlistRepository.added_at_desc a b = true ->
  WatchlistRepository.added_at_desc b a = false.
Proof.
  unfold WatchlistRepository.added_at_desc. rewrite N.ltb_lt, N.ltb_ge. lia.
Qed.

Lemma filter_none {A} (p : A -> bool) (l : list A) :
  (forall x, x ∈ l -> p x = false) -> List.filter p l = [] /\ existsb p l = false.
Proof.
  induction l as [|x l IH]; simpl; [done|].
  intros H. rewrite (H x) by (by left). simpl. apply IH.
  intros y Hy. apply H. by right.
Qed.

Lemma lookup_unique_id {A} (e : A) k (ms : list Movie.t) :
  NoDup (map Movie.ID ms) ->
  map (fun _ => e) (List.filter (fun m => (Movie.ID m =? k)%N) ms)
  = if existsb (fun m => (Movie.ID m =? k)%N) ms then [e] else [].
Proof.
  induction ms as [|m ms IH]; simpl; [done|].
  intros [Hm Hms]%NoDup_cons. destruct (N.eqb_spec (Movie.ID m) k) as [<-|Hk]; simpl.
  - destruct (filter_none (fun d => (Movie.ID d =? Movie.ID m)%N) ms) as [-> _]; [|done].
    intros d Hd. apply N.eqb_neq. intros Ed. apply Hm.
    apply list_elem_of_In, in_map_iff. exists d. by rewrite <- list_elem_of_In.
  - by apply IH.
Qed.

Lemma flat_map_optional {A} (p : A -> bool) (l : list A) :
  flat_map (fun e => if p e then [e] else []) l = List.filter p l.
Proof.
  induction l as [|x l IH]; simpl; [done|]. rewrite IH. by destruct (p x).
Qed.

Lemma GetWatchlistWithMovies_ok userID w l w' :
  WatchlistRepository.GetWatchlistWithMovies userID w = (Ok l, w') ->
  (forall e, e ∈ l <->
             e ∈ watchlists w /\ Watchlist.UserID e = userID
             /\ exists m, m ∈ movies w /\ Movie.ID m = Watchlist.MovieID e)
  /\ (forall a b, ahead a b l -> (Watchlist.AddedAt b <= Watchlist.AddedAt a)%N)
  /\ (NoDup (map Movie.ID (movies w)) ->
      Permutation l
        (List.filter
           (fun e => (Watchlist.UserID e =? userID)%N
                     && existsb (fun m => (Movie.ID m =? Watchlist.MovieID e)%N) (movies w))
           (watchlists w))).
Proof.
  unfold WatchlistRepository.GetWatchlistWithMovies.
  match goal with |- context [driver_query ?q w] =>
    destruct (driver_query_cases q w) as [(fs & Efs & ->)| -> ]
  end; [done|].
  intros [= <- <-]. cbn [movies watchlists skip_fault set_db_faults].
  split; [|split].
  - intros e. rewrite elem_of_sort_stable, list_elem_of_In, in_flat_map. split.
    + intros (x & [Hx Hu]%filter_In & He).
      apply in_map_iff in He as (m & -> & [Hm Hid]%filter_In).
      apply N.eqb_eq in Hu, Hid. apply list_elem_of_In in Hx, Hm. eauto.
    + intros (He & Hu & m & Hm & Hid). exists e. split.
      * apply filter_In. rewrite <- list_elem_of_In. by rewrite Hu, N.eqb_refl.
      * apply in_map_iff. exists m. split; [done|].
        apply filter_In. rewrite <- list_elem_of_In. by rewrite Hid, N.eqb_refl.
  - intros a b Hab.
    apply (sort_stable_ordered _ added_at_desc_trans added_at_desc_asym) in Hab.
    unfold WatchlistRepository.added_at_desc in Hab. by apply N.ltb_ge in Hab.
  - intros Hu. rewrite sort_stable_perm.
    erewrite flat_map_ext; [|intros e; by apply lookup_unique_id].
    rewrite flat_map_optional.
    induction (watchlists w) as [|e es IH]; simpl; [done|].
    destruct (_ =? _)%N; simpl; [|done].
    destruct (existsb _ _); [by constructor|done].
Qed.

(** X23. The entries [GetWatchlistWithMovies] returns are the entries of
    the user whose movie is in the movies collection (an entry for a movie
    the store does not hold is left out), with the entries added later
    ahead of those added earlier; with movie IDs that are unique each such
    entry comes once. *)
Theorem X23_watchlist_with_movies userID w l w' :
  WatchlistRepository.GetWatchlistWithMovies userID w = (Ok l, w') ->
  (forall e, e ∈ l <->
             e ∈ watchlists w /\ Watchlist.UserID e = userID
             /\ exists m, m ∈ movies w /\ Movie.ID m = Watchlist.MovieID e)
  /\ (forall a b, ahead a b l -> (Watchlist.AddedAt b <= Watchlist.AddedAt a)%N)
  /\ (NoDup (map Movie.ID (movies w)) ->
      Permutation l
        (List.filter
           (fun e => (Watchlist.UserID e =? userID)%N
                     && existsb (fun m => (Movie.ID m =? Watchlist.MovieID e)%N) (movies w))
           (watchlists w))).
Proof. apply GetWatchlistWithMovies_ok. Qed.

Lemma X23_witness :
  Forall (fun e => Watchlist.UserID e = Fixture.user)
    [{| Watchlist.ID := 2%N; Watchlist.UserID := Fixture.user;
        Watchlist.MovieID := 3%N; Watchlist.AddedAt := 9%N;
        Watchlist.CreatedAt := 0%N; Watchlist.UpdatedAt := 0%N |};
     Fixture.watch 1%N Fixture.user 5%N].
Proof.
  apply Forall_forall. intros e He.
  destruct (X23_watchlist_with_movies Fixture.user
              (Fixture.world [Fixture.m71; Fixture.drama] []
                 [Fixture.watch 1%N Fixture.user 5%N;
                  Fixture.watch 3%N Fixture.user 9%N;
                  {| Watchlist.ID := 2%N; Watchlist.UserID := Fixture.user;
                     Watchlist.MovieID := 3%N; Watchlist.AddedAt := 9%N;
                     Watchlist.CreatedAt := 0%N; Watchlist.UpdatedAt := 0%N |}] [])
              _ _ eq_refl) as (H & _).
  by apply H in He as (_ & Hu & _).
Defined.

(* ===================================================================== *)
(** * Ratings *)
(* ===================================================================== *)

Lemma not_rated userID movieID w :
  existsb (rating_of userID movieID) (ratings w) = false <-> ~ rated w userID movieID.
Proof. rewrite <- existsb_rating_of. by destruct (existsb _ _). Qed.

Lemma find_existsb {A} (p : A -> bool) (l : list A) :
  existsb p l = match List.find p l with Some _ => true | None => false end.
Proof. induction l as [|x l IH]; simpl; [done|]. by destruct (p x). Qed.

Lemma GetUserRating_step userID movieID w :
  RatingRepository.GetUserRating userID movieID w = (Err mongo_DriverError, skip_fault w)
  \/ RatingRepository.GetUserRating userID movieID w
     = (Ok (List.find (rating_of userID movieID) (ratings w)), skip_fault w).
Proof.
  unfold RatingRepository.GetUserRating, attempt.
  match goal with |- context [driver_call ?f w] =>
    destruct (driver_call_step f w) as [-> | -> ]
  end; simpl; [by left|right].
  by destruct (List.find _ _).
Qed.

Lemma ratings_InsertOne_inv r w res w' :
  Rating.ID r = 0%N ->
  ratings_InsertOne r w = (res, w') ->
  movies w' = movies w /\ watchlists w' = watchlists w /\ omdb_calls w' = omdb_calls w
  /\ match res with
     | Ok id =>
         existsb (rating_of (Rating.UserID r) (Rating.MovieID r)) (ratings w) = false
         /\ ratings w'
            = ratings w
              ++ [{| Rating.ID := id; Rating.UserID := Rating.UserID r;
                     Rating.MovieID := Rating.MovieID r;
                     Rating.Rating := Rating.Rating r;
                     Rating.CreatedAt := Rating.CreatedAt r;
                     Rating.UpdatedAt := Rating.UpdatedAt r |}]
     | _ => ratings w' = ratings w
     end.
Proof.
  intros Hzero. unfold ratings_InsertOne.
  match goal with |- context [driver_call ?f w] =>
    destruct (driver_call_cases f w) as [(fs & _ & ->)| -> ]
  end.
  { by intros [= <- <-]. }
  unfold bind. rewrite Hzero. simpl.
  destruct (existsb _ _) eqn:Ex; intros [= <- <-]; [done|].
  repeat (split; [done|]). split; [|done].
  by apply existsb_orb_false in Ex.
Qed.

Lemma RatingRepository_Create_inv r w res w' :
  Rating.ID r = 0%N ->
  RatingRepository.Create r w = (res, w') ->
  movies w' = movies w /\ watchlists w' = watchlists w /\ omdb_calls w' = omdb_calls w
  /\ match res with
     | Ok added =>
         existsb (rating_of (Rating.UserID r) (Rating.MovieID r)) (ratings w) = false
         /\ ratings w' = ratings w ++ [added]
         /\ Rating.UserID added = Rating.UserID r
         /\ Rating.MovieID added = Rating.MovieID r
         /\ Rating.Rating added = Rating.Rating r
     | _ => ratings w' = ratings w
     end.
Proof.
  intros Hzero.
  unfold RatingRepository.Create, bind at 1, getCurrentTime, time_Now.
  unfold bind at 1. unfold bind at 1.
  match goal with |- context [ratings_InsertOne ?r0 ?w0] =>
    destruct (ratings_InsertOne r0 w0) as [[id|err|msg] w1] eqn:E;
    (apply ratings_InsertOne_inv in E; [|done])
  end; cbn in E; intros [= <- <-]; cbn; tauto.
Qed.

Lemma RateMovie_inv userID movieID rating w res w' :
  RateMovie userID movieID rating w = (res, w') ->
  movies w' = movies w /\ watchlists w' = watchlists w /\ omdb_calls w' = omdb_calls w
  /\ match res with
     | Ok _ =>
         1 <= rating <= 5
         /\ ~ rated w userID movieID
         /\ exists added,
              ratings w' = ratings w ++ [added]
              /\ Rating.UserID added = userID
              /\ Rating.MovieID added = movieID
              /\ Rating.Rating added = rating
     | _ => ratings w' = ratings w
     end.
Proof.
  unfold RateMovie.
  destruct (Z.ltb_spec rating 1) as [|Hlo]; simpl; [by intros [= <- <-]|].
  destruct (Z.ltb_spec 5 rating) as [|Hhi]; simpl; [by intros [= <- <-]|].
  unfold attempt.
  assert (Hcreate : forall w0 res w',
    ratings w0 = ratings w -> movies w0 = movies w ->
    watchlists w0 = watchlists w -> omdb_calls w0 = omdb_calls w ->
    (let! _ := RatingRepository.Create
                 {| Rating.ID := 0%N; Rating.UserID := userID;
                    Rating.MovieID := movieID; Rating.Rating := rating;
                    Rating.CreatedAt := 0%N; Rating.UpdatedAt := 0%N |} in
     ret tt) w0 = (res, w') ->
    movies w' = movies w /\ watchlists w' = watchlists w /\ omdb_calls w' = omdb_calls w
    /\ match res with
       | Ok _ =>
           1 <= rating <= 5
           /\ ~ rated w userID movieID
           /\ exists added,
                ratings w' = ratings w ++ [added]
                /\ Rating.UserID added = userID
                /\ Rating.MovieID added = movieID
                /\ Rating.Rating added = rating
       | _ => ratings w' = ratings w
       end).
  { clear res w'. intros w0 res w' Er Em Ew Ec. unfold bind.
    match goal with |- context [RatingRepository.Create ?r0 ?w0] =>
      destruct (RatingRepository.Create r0 w0) as [[added|err|msg] w1] eqn:E;
      (apply RatingRepository_Create_inv in E; [|done])
    end; cbn in E; intros [= <- <-];
      destruct E as (Em1 & Ew1 & Ec1 & E); rewrite Em1, Ew1, Ec1;
      repeat (split; [done|]); [|congruence..].
    destruct E as (Ex & Eadd & Eu & Emv & Erat).
    split.
    - apply not_rated. unfold rated in *. by rewrite <- Er.
    - exists added. by rewrite Eadd, Er. }
  destruct (GetUserRating_step userID movieID w) as [-> | -> ].
  - by apply Hcreate.
  - destruct (List.find _ _); [by intros [= <- <-]|by apply Hcreate].
Qed.

Lemma map_update_first {A B} (f : A -> B) (p : A -> bool) (c : A -> A) (l : list A) :
  (forall d, f (c d) = f d) -> map f (update_first p c l) = map f l.
Proof.
  intros Hc. induction l as [|x l IH]; simpl; [done|].
  destruct (p x); simpl; [by rewrite Hc|by rewrite IH].
Qed.

Lemma elem_of_update_first {A} (p : A -> bool) (c : A -> A) (l : list A) x :
  x ∈ update_first p c l -> x ∈ l \/ exists d, d ∈ l /\ p d = true /\ x = c d.
Proof.
  induction l as [|y l IH]; simpl; [by left|].
  destruct (p y) eqn:Ey.
  - intros [->|H]%elem_of_cons.
    + right. exists y. split; [by left|done].
    + left. by right.
  - intros [->|H]%elem_of_cons; [left; by left|].
    destruct (IH H) as [H'|(d & Hd & Hp & ->)]; [left; by right|].
    right. exists d. split; [by right|done].
Qed.

Lemma update_first_other {A} (p : A -> bool) (c : A -> A) (l : list A) x :
  (forall d, p d = true -> p (c d) = true) ->
  p x = false -> (x ∈ update_first p c l <-> x ∈ l).
Proof.
  intros Hc Hx. induction l as [|y l IH]; simpl; [done|].
  destruct (p y) eqn:Ey; rewrite !elem_of_cons.
  - split; intros [->|H]; [|by right| |by right].
    + rewrite Hc in Hx; done.
    + congruence.
  - by rewrite IH.
Qed.

Lemma find_update_first {A} (p : A -> bool) (c : A -> A) (l : list A) :
  (forall d, p d = true -> p (c d) = true) ->
  List.find p (update_first p c l) = option_map c (List.find p l).
Proof.
  intros Hc. induction l as [|x l IH]; simpl; [done|].
  destruct (p x) eqn:Ex; simpl; [by rewrite Hc|by rewrite Ex].
Qed.

Lemma Update_inv userID movieID rating w res w' :
  RatingRepository.Update userID movieID rating w = (res, w') ->
  movies w' = movies w /\ watchlists w' = watchlists w /\ omdb_calls w' = omdb_calls w
  /\ match res with
     | Ok _ =>
         exists change,
           revalues rating change
           /\ ratings w' = update_first (rating_of userID movieID) change (ratings w)
     | _ => ratings w' = ratings w
     end.
Proof.
  unfold RatingRepository.Update, bind, getCurrentTime, time_Now.
  match goal with |- context [driver_call ?f ?w0] =>
    destruct (driver_call_cases f w0) as [(fs & _ & ->)| -> ]
  end; intros [= <- <-]; [done|].
  repeat (split; [done|]). eexists. split; [|reflexivity]. by intros d.
Qed.

Lemma UpdateRating_inv userID movieID rating w res w' :
  UpdateRating userID movieID rating w = (res, w') ->
  movies w' = movies w /\ watchlists w' = watchlists w /\ omdb_calls w' = omdb_calls w
  /\ match res with
     | Ok _ =>
         1 <= rating <= 5
         /\ rated w userID movieID
         /\ exists change,
              revalues rating change
              /\ ratings w' = update_first (rating_of userID movieID) change (ratings w)
     | _ => ratings w' = ratings w
     end.
Proof.
  unfold UpdateRating.
  destruct (Z.ltb_spec rating 1) as [|Hlo]; simpl; [by intros [= <- <-]|].
  destruct (Z.ltb_spec 5 rating) as [|Hhi]; simpl; [by intros [= <- <-]|].
  unfold attempt.
  destruct (GetUserRating_step userID movieID w) as [-> | -> ];
    [by intros [= <- <-]|].
  pose proof (find_existsb (rating_of userID movieID) (ratings w)) as Hex.
  destruct (List.find _ _); [|by intros [= <- <-]].
  apply existsb_rating_of in Hex.
  intros (Em & Ew & Ec & H)%Update_inv. cbn in *.
  repeat (split; [done|]). destruct res as [[]|e|msg]; [|done..].
  split; [lia|]. by split.
Qed.

(** X24. [RateMovie] and [UpdateRating] look at the value first: a value
    below one or above five is refused with "rating must be between 1 and
    5 stars" before any driver call, and nothing changes. *)
Theorem X24_rating_value_checked_first userID movieID rating w :
  rating < 1 \/ 5 < rating ->
  RateMovie userID movieID rating w
  = (Err (Errorf "rating must be between 1 and 5 stars"), w)
  /\ UpdateRating userID movieID rating w
     = (Err (Errorf "rating must be between 1 and 5 stars"), w).
Proof.
  intros H. unfold RateMovie, UpdateRating.
  replace ((rating <? 1) || (5 <? rating)) with true; [done|].
  symmetry. apply orb_true_iff. rewrite !Z.ltb_lt. done.
Qed.

Lemma X24_witness :
  RateMovie Fixture.user 3%N 6 (Fixture.five_movies [true])
  = (Err (Errorf "rating must be between 1 and 5 stars"), Fixture.five_movies [true]).
Proof.
  apply (X24_rating_value_checked_first Fixture.user 3%N 6 (Fixture.five_movies [true])).
  right. lia.
Defined.

Lemma ratings_unique_snoc w w' added :
  ratings_unique w ->
  ~ rated w (Rating.UserID added) (Rating.MovieID added) ->
  ratings w' = ratings w ++ [added] ->
  ratings_unique w'.
Proof.
  unfold ratings_unique. intros Hu Hnot ->. rewrite map_app. simpl.
  apply NoDup_app. split; [done|]. split; [|apply NoDup_singleton].
  intros p Hp ->%list_elem_of_singleton. apply Hnot.
  apply list_elem_of_In, in_map_iff in Hp as (e & [= Eu Em] & He).
  apply list_elem_of_In in He. by exists e.
Qed.

Lemma keeps_ratings_RateMovie userID movieID rating :
  keeps ratings_in_range (RateMovie userID movieID rating)
  /\ keeps ratings_unique (RateMovie userID movieID rating).
Proof.
  split; intros w res w' H (_ & _ & _ & E)%RateMovie_inv;
    (destruct res as [[]|e|msg];
     [|unfold ratings_in_range, ratings_unique in *; by rewrite E..]);
    destruct E as (Hrange & Hnot & added & Eadd & Eu & Em & Er).
  - intros r. rewrite Eadd. intros [Hr| ->%list_elem_of_singleton]%elem_of_app.
    + by apply H.
    + by rewrite Er.
  - apply (ratings_unique_snoc w w' added); [done| |done]. by rewrite Eu, Em.
Qed.

Lemma keeps_ratings_UpdateRating userID movieID rating :
  keeps ratings_in_range (UpdateRating userID movieID rating)
  /\ keeps ratings_unique (UpdateRating userID movieID rating).
Proof.
  split; intros w res w' H (_ & _ & _ & E)%UpdateRating_inv;
    (destruct res as [[]|e|msg];
     [|unfold ratings_in_range, ratings_unique in *; by rewrite E..]);
    destruct E as (Hrange & Hrated & change & Hchange & Eup).
  - intros r. rewrite Eup.
    intros [Hr|(d & Hd & _ & ->)]%elem_of_update_first; [by apply H|].
    destruct (Hchange d) as (_ & _ & _ & -> & _). done.
  - unfold ratings_unique in *. rewrite Eup, map_update_first; [done|].
    intros d. destruct (Hchange d) as (_ & -> & -> & _). done.
Qed.

(** X25. Two properties of the ratings collection stay true over every
    call of [RateMovie] and of [UpdateRating], whatever the arguments and
    whatever the store does: every rating is one to five stars, and no user
    has two ratings for one movie. Neither call touches the movies or the
    watchlists. *)
Theorem X25_ratings_stay_valid userID movieID rating :
  keeps (fun w => ratings_in_range w /\ ratings_unique w)
    (RateMovie userID movieID rating)
  /\ keeps (fun w => ratings_in_range w /\ ratings_unique w)
       (UpdateRating userID movieID rating)
  /\ (forall w res w',
        RateMovie userID movieID rating w = (res, w')
        \/ UpdateRating userID movieID rating w = (res, w') ->
        movies w' = movies w /\ watchlists w' = watchlists w).
Proof.
  destruct (keeps_ratings_RateMovie userID movieID rating) as [R1 R2].
  destruct (keeps_ratings_UpdateRating userID movieID rating) as [U1 U2].
  split; [|split].
  - intros w res w' [H1 H2] E. split; [by apply (R1 w res w')|by apply (R2 w res w')].
  - intros w res w' [H1 H2] E. split; [by apply (U1 w res w')|by apply (U2 w res w')].
  - intros w res w' [(Em & Ew & _)%RateMovie_inv|(Em & Ew & _)%UpdateRating_inv]; done.
Qed.

Lemma X25_witness :
  ratings_in_range (snd (UpdateRating Fixture.user 1%N 2 (Fixture.five_movies [])))
  /\ ratings_unique (snd (UpdateRating Fixture.user 1%N 2 (Fixture.five_movies []))).
Proof.
  destruct (X25_ratings_stay_valid Fixture.user 1%N 2) as (_ & H & _).
  eapply (H (Fixture.five_movies [])); [|apply surjective_pairing].
  split.
  - intros r ->%list_elem_of_singleton. simpl. lia.
  - apply NoDup_singleton.
Defined.

Lemma RateMovie_rated_healthy userID movieID rating w :
  1 <= rating <= 5 ->
  healthy_for 1 w ->
  rated w userID movieID ->
  RateMovie userID movieID rating w
  = (Err (Errorf "user has already rated this movie"), skip_fault w).
Proof.
  intros [Hlo Hhi] Hok Hrated%existsb_rating_of. unfold RateMovie.
  apply Z.ltb_ge in Hlo, Hhi. rewrite Hlo, Hhi. simpl.
  unfold attempt.
  destruct (GetUserRating_step userID movieID w) as [E|E].
  - exfalso. revert E. unfold RatingRepository.GetUserRating, attempt.
    rewrite driver_call_healthy by done. simpl. by destruct (List.find _ _).
  - rewrite E. rewrite find_existsb in Hrated. by destruct (List.find _ _).
Qed.

(** X26. When [RateMovie] succeeds, the value was one to five, the user
    had not rated the movie, and the ratings collection has one more rating
    at its end, for this user and movie and with this value; when it
    fails, the collection is as it was. So a movie the user has rated is
    never rated a second time, not even when the look-up of the existing
    rating fails; and on a store that answers the look-up the call then
    fails with "user has already rated this movie". *)
Theorem X26_rate_movie userID movieID rating w res w' :
  RateMovie userID movieID rating w = (res, w') ->
  match res with
  | Ok _ =>
      1 <= rating <= 5
      /\ ~ rated w userID movieID
      /\ exists added,
           ratings w' = ratings w ++ [added]
           /\ Rating.UserID added = userID
           /\ Rating.MovieID added = movieID
           /\ Rating.Rating added = rating
  | _ => ratings w' = ratings w
  end
  /\ (1 <= rating <= 5 -> healthy_for 1 w -> rated w userID movieID ->
      res = Err (Errorf "user has already rated this movie")).
Proof.
  intros E. split; [by apply RateMovie_inv in E as (_ & _ & _ & H)|].
  intros Hrange Hok Hrated.
  rewrite RateMovie_rated_healthy in E by done. congruence.
Qed.

Lemma X26_witness :
  fst (RateMovie Fixture.user 1%N 4 (Fixture.five_movies []))
  = Err (Errorf "user has already rated this movie").
Proof.
  destruct (X26_rate_movie Fixture.user 1%N 4 (Fixture.five_movies []) _ _
              (surjective_pairing _)) as [_ H].
  apply H; [lia|by apply healthy_for_nil|].
  exists (Fixture.rating 1%N Fixture.user 1%N 5). split; [|done].
  apply list_elem_of_singleton. reflexivity.
Defined.

Lemma GetUserRating_fault userID movieID w fs :
  db_faults w = true :: fs ->
  RatingRepository.GetUserRating userID movieID w
  = (Err mongo_DriverError, set_db_faults fs w).
Proof.
  intros Hfs. unfold RatingRepository.GetUserRating, attempt, driver_call.
  by rewrite Hfs.
Qed.

Lemma GetUserRating_healthy userID movieID w :
  healthy_for 1 w ->
  RatingRepository.GetUserRating userID movieID w
  = (Ok (List.find (rating_of userID movieID) (ratings w)), skip_fault w).
Proof.
  intros Hok. unfold RatingRepository.GetUserRating, attempt.
  rewrite driver_call_healthy by done. simpl. by destruct (List.find _ _).
Qed.

Lemma length_update_first {A} (p : A -> bool) (c : A -> A) (l : list A) :
  length (update_first p c l) = length l.
Proof.
  induction l as [|x l IH]; simpl; [done|]. destruct (p x); simpl; by rewrite ?IH.
Qed.

Lemma UpdateRating_not_found userID movieID rating w :
  1 <= rating <= 5 ->
  (healthy_for 1 w /\ ~ rated w userID movieID) \/ (exists fs, db_faults w = true :: fs) ->
  fst (UpdateRating userID movieID rating w) = Err (Errorf "rating not found").
Proof.
  intros [Hlo Hhi] H. unfold UpdateRating.
  apply Z.ltb_ge in Hlo, Hhi. rewrite Hlo, Hhi. simpl. unfold attempt.
  destruct H as [[Hok Hnot%not_rated]|[fs Hfs]].
  - rewrite GetUserRating_healthy by done.
    rewrite find_existsb in Hnot. by destruct (List.find _ _).
  - by rewrite (GetUserRating_fault _ _ _ fs).
Qed.

(** X27. When [UpdateRating] succeeds, the value was one to five and the
    user had rated the movie; the collection has as many ratings as
    before, those of other users or for other movies are untouched, and
    the next look-up of the user's rating for the movie (on a store that
    answers it) finds a rating with the new value. When it fails, the
    ratings are as they were. It fails with "rating not found" when the
    user has not rated the movie, and also whenever the look-up itself
    fails, whether or not there is a rating. *)
Theorem X27_update_rating userID movieID rating w res w' :
  UpdateRating userID movieID rating w = (res, w') ->
  match res with
  | Ok _ =>
      1 <= rating <= 5
      /\ rated w userID movieID
      /\ length (ratings w') = length (ratings w)
      /\ (forall x, rating_of userID movieID x = false ->
                    x ∈ ratings w' <-> x ∈ ratings w)
      /\ (healthy_for 1 w' ->
          exists updated,
            fst (RatingRepository.GetUserRating userID movieID w') = Ok (Some updated)
            /\ Rating.Rating updated = rating)
  | _ => ratings w' = ratings w
  end
  /\ (1 <= rating <= 5 ->
      (healthy_for 1 w /\ ~ rated w userID movieID)
      \/ (exists fs, db_faults w = true :: fs) ->
      res = Err (Errorf "rating not found")).
Proof.
  intros E. split.
  - apply UpdateRating_inv in E as (_ & _ & _ & H).
    destruct res as [[]|e|msg]; [|done..].
    destruct H as (Hrange & Hrated & change & Hchange & Eup).
    assert (Hkeep : forall d, rating_of userID movieID d = true ->
                              rating_of userID movieID (change d) = true).
    { intros d. unfold rating_of. by destruct (Hchange d) as (_ & -> & -> & _). }
    repeat (split; [done|]). split; [by rewrite Eup, length_update_first|].
    split.
    + intros x Hx. rewrite Eup. by apply update_first_other.
    + intros Hok. rewrite GetUserRating_healthy by done. cbn [fst].
      rewrite Eup, find_update_first by done.
      apply existsb_rating_of in Hrated. rewrite find_existsb in Hrated.
      destruct (List.find _ (ratings w)) as [d|]; [|done].
      exists (change d). split; [done|]. by destruct (Hchange d) as (_ & _ & _ & -> & _).
  - intros Hrange H.
    pose proof (UpdateRating_not_found userID movieID rating w Hrange H) as Hnf.
    by rewrite E in Hnf.
Qed.

Lemma X27_witness :
  exists updated,
    fst (RatingRepository.GetUserRating Fixture.user 1%N
           (snd (UpdateRating Fixture.user 1%N 2 (Fixture.five_movies []))))
    = Ok (Some updated)
    /\ Rating.Rating updated = 2.
Proof.
  destruct (X27_update_rating Fixture.user 1%N 2 (Fixture.five_movies []) (Ok tt)
              (snd (UpdateRating Fixture.user 1%N 2 (Fixture.five_movies []))))
    as [(_ & _ & _ & _ & H) _].
  - vm_compute. reflexivity.
  - apply H. by apply healthy_for_nil.
Defined.

Lemma GetRecommendations_not_excluded env userID limit w ms w' :
  GetRecommendations env userID limit w = (Ok ms, w') ->
  forall m, m ∈ ms ->
    ~ (rated w userID (Movie.ID m) \/ watchlisted w userID (Movie.ID m)).
Proof.
  intros E m Hm Hex.
  destruct (GetRecommendations_ok_inv _ _ _ _ _ _ E)
    as (genres & w1 & excludeIDs & w2 & E1 & E2).
  destruct (GetRecommendations_steps env userID limit w genres w1 excludeIDs w2 E1 E2)
    as (recs & w3 & fb & w4 & _ & Hrecs & Hfb & _ & Erun).
  rewrite Erun in E. apply limitResults_ok in E as [_ ->].
  apply elem_of_take in Hm as (i & Hi & _). apply list_elem_of_lookup_2 in Hi.
  assert (Hnot : Movie.ID m ∉ excludeIDs).
  { apply elem_of_app in Hi as [Hi|Hi]; [by apply Hrecs|by apply Hfb]. }
  apply Hnot. apply (GetMoviesToExclude_ok _ _ _ _ E2).
  apply reads_GetHighRatedGenres in E1 as (_ & Hr & Hw & _).
  unfold rated, watchlisted in *. by rewrite Hr, Hw.
Qed.

(** X28. A movie the user has just put on the watchlist, or has just
    rated, with whatever value, is in no list of recommendations computed
    for that user from the store the call left. *)
Theorem X28_handled_movie_not_recommended env userID movieID rating limit w w1 ms w2 :
  AddToWatchlist userID movieID w = (Ok tt, w1)
  \/ RateMovie userID movieID rating w = (Ok tt, w1) ->
  GetRecommendations env userID limit w1 = (Ok ms, w2) ->
  forall m, m ∈ ms -> Movie.ID m <> movieID.
Proof.
  intros Hdone E m Hm Hid.
  apply (GetRecommendations_not_excluded _ _ _ _ _ _ E m Hm). rewrite Hid.
  destruct Hdone as [H|H].
  - apply AddToWatchlist_inv in H as (_ & _ & _ & _ & added & Ew & Eu & Em).
    right. exists added. rewrite Ew. split; [|done].
    apply elem_of_app. right. by apply list_elem_of_singleton.
  - apply RateMovie_inv in H as (_ & _ & _ & _ & _ & added & Er & Eu & Em & _).
    left. exists added. rewrite Er. split; [|done].
    apply elem_of_app. right. by apply list_elem_of_singleton.
Qed.

Lemma X28_witness :
  Forall (fun m => Movie.ID m <> 2%N) [Fixture.mNA; Fixture.m71].
Proof.
  apply Forall_forall.
  apply (X28_handled_movie_not_recommended Fixture.env Fixture.user 2%N 1 2
           (Fixture.five_movies [])
           (snd (RateMovie Fixture.user 2%N 1 (Fixture.five_movies [])))
           [Fixture.mNA; Fixture.m71]
           (snd (GetRecommendations Fixture.env Fixture.user 2
                   (snd (RateMovie Fixture.user 2%N 1 (Fixture.five_movies [])))))).
  - right. vm_compute. reflexivity.
  - vm_compute. reflexivity.
Defined.

(* ===================================================================== *)
(** * The one-query recommendations and the counts by genre *)
(* ===================================================================== *)

Lemma buildGenreMatchPipeline_ok env genres conditions :
  buildGenreMatchPipeline env genres = Some conditions ->
  length conditions = length genres
  /\ forall field,
       existsb (fun matches : string -> bool => matches field) conditions = true ->
       exists genre matches,
         genre ∈ genres /\ regex_i env genre = Some matches /\ matches field = true.
Proof.
  revert conditions. induction genres as [|genre rest IH]; intros conditions; simpl.
  { intros [= <-]. split; [done|]. by intros field. }
  destruct (regex_i env genre) as [matches|] eqn:Er; [|done].
  destruct (buildGenreMatchPipeline env rest) as [others|]; [|done].
  intros [= <-]. destruct (IH others eq_refl) as [Hlen Hex]. simpl.
  split; [by rewrite Hlen|].
  intros field [H|H]%orb_true_iff.
  - exists genre, matches. split; [by left|done].
  - destruct (Hex field H) as (g & ms & Hg & Hr & Hm).
    exists g, ms. split; [by right|done].
Qed.

Lemma stage_match_genres_ok env excludeIDs genres ms found :
  stage_match_genres env excludeIDs genres ms = Ok found ->
  exists conditions,
    buildGenreMatchPipeline env genres = Some conditions
    /\ genres <> []
    /\ found
       = List.filter
           (fun m => negb (bool_decide (Movie.ID m ∈ excludeIDs))
                     && existsb (fun matches : string -> bool => matches (Movie.Genre m))
                          conditions)
           ms.
Proof.
  unfold stage_match_genres.
  destruct (buildGenreMatchPipeline env genres) as [conditions|] eqn:Eb; [|done].
  destruct conditions as [|c cs]; [done|].
  intros [= <-]. exists (c :: cs). split; [done|]. split; [|done].
  intros ->. simpl in Eb. done.
Qed.

Lemma NoDup_List_filter {A} (p : A -> bool) (l : list A) :
  NoDup l -> NoDup (List.filter p l).
Proof.
  induction l as [|x l IH]; simpl; [done|].
  intros [Hx Hl]%NoDup_cons. destruct (p x); [|by apply IH].
  apply NoDup_cons. split; [|by apply IH].
  intros Hin. apply Hx. by apply list_elem_of_In, filter_In in Hin as [?%list_elem_of_In _].
Qed.

Lemma GetRecommendationMovies_ok env userID genres limit w ms w' :
  GetRecommendationMovies env userID genres limit w = (Ok ms, w') ->
  0 < limit /\ genres <> []
  /\ Z.of_nat (length ms) <= limit
  /\ (forall m, m ∈ ms ->
        m ∈ movies w
        /\ ~ (rated w userID (Movie.ID m) \/ watchlisted w userID (Movie.ID m))
        /\ exists genre matches,
             genre ∈ genres /\ regex_i env genre = Some matches
             /\ matches (Movie.Genre m) = true)
  /\ (forall x y, ahead x y ms ->
        String.ltb (Movie.IMDbRating x) (Movie.IMDbRating y) = false)
  /\ (NoDup (movies w) -> NoDup ms).
Proof.
  unfold GetRecommendationMovies, bind.
  destruct (GetMoviesToExclude userID w) as [[excludeIDs|e|msg] w1] eqn:E1; [|done..].
  pose proof (GetMoviesToExclude_ok _ _ _ _ E1) as [_ Hex].
  apply reads_GetMoviesToExclude in E1 as (Em & _).
  match goal with |- driver_query ?q w1 = _ -> _ =>
    destruct (driver_query_cases q w1) as [(fs & _ & ->)| -> ]; [done|] end.
  cbn [movies skip_fault set_db_faults]. rewrite Em.
  destruct (stage_match_genres env excludeIDs genres (movies w)) as [found|e|msg] eqn:Es;
    [|done..].
  apply stage_match_genres_ok in Es as (conditions & Eb & Hne & ->).
  destruct (buildGenreMatchPipeline_ok _ _ _ Eb) as [_ Hcond].
  destruct (Z.leb_spec limit 0) as [|Hpos]; [done|].
  intros [= <- <-]. split; [done|]. split; [done|]. split; [|split; [|split]].
  - rewrite length_take. lia.
  - intros m (i & Hi & _)%elem_of_take. apply list_elem_of_lookup_2 in Hi.
    apply elem_of_sort_stable, list_elem_of_In, filter_In in Hi as [Hm Hp].
    apply andb_true_iff in Hp as [Hn Hg].
    apply negb_true_iff, bool_decide_eq_false in Hn.
    split; [by apply list_elem_of_In|]. split; [by rewrite <- Hex|by apply Hcond].
  - intros x y H%ahead_take.
    by apply (sort_stable_ordered imdb_rating_desc imdb_rating_desc_trans
                imdb_rating_desc_asym) in H.
  - intros Hnd. eapply sublist_NoDup; [|apply sublist_take].
    rewrite sort_stable_perm. by apply NoDup_List_filter.
Qed.

(** X29. A list that [GetRecommendationMovies] returns: the limit was
    positive and there was at least one genre (the store refuses the query
    otherwise); the list has at most [limit] movies; each is a movie of the
    store that the user has neither rated nor watchlisted and whose genre
    field matches the expression of one of the genres; no movie stands
    behind one whose rating text is smaller; and no record of the store
    comes twice. *)
Theorem X29_one_query_recommendations env userID genres limit w ms w' :
  GetRecommendationMovies env userID genres limit w = (Ok ms, w') ->
  0 < limit /\ genres <> []
  /\ Z.of_nat (length ms) <= limit
  /\ (forall m, m ∈ ms ->
        m ∈ movies w
        /\ ~ (rated w userID (Movie.ID m) \/ watchlisted w userID (Movie.ID m))
        /\ exists genre matches,
             genre ∈ genres /\ regex_i env genre = Some matches
             /\ matches (Movie.Genre m) = true)
  /\ (forall x y, ahead x y ms ->
        String.ltb (Movie.IMDbRating x) (Movie.IMDbRating y) = false)
  /\ (NoDup (movies w) -> NoDup ms).
Proof. apply GetRecommendationMovies_ok. Qed.

Lemma X29_witness :
  NoDup [Fixture.mNA; Fixture.m88; Fixture.m71].
Proof.
  destruct (X29_one_query_recommendations Fixture.env Fixture.user ["Action"; "Sci-Fi"] 5
              (Fixture.five_movies []) [Fixture.mNA; Fixture.m88; Fixture.m71]
              (snd (GetRecommendationMovies Fixture.env Fixture.user ["Action"; "Sci-Fi"] 5
                      (Fixture.five_movies []))))
    as (_ & _ & _ & _ & _ & H).
  - vm_compute. reflexivity.
  - apply H. apply (NoDup_fmap_1 Movie.ID).
    apply (bool_decide_unpack _). vm_compute. exact I.
Defined.

Lemma filter_andb {A} (f g : A -> bool) (l : list A) :
  List.filter (fun x => f x && g x) l = List.filter g (List.filter f l).
Proof.
  induction l as [|x l IH]; simpl; [done|].
  destruct (f x); simpl; [|done]. destruct (g x); by rewrite IH.
Qed.

Lemma fold_insert_notin (l : list (string * Z)) (m0 : gmap string Z) g :
  g ∉ map fst l ->
  fold_left (fun genreCounts result => <[fst result := snd result]> genreCounts) l m0
    !! g = m0 !! g.
Proof.
  revert m0. induction l as [|[k v] l IH]; intros m0; simpl; [done|].
  intros [Hk Hl]%not_elem_of_cons. rewrite IH by done.
  by rewrite lookup_insert_ne.
Qed.

Lemma fold_insert_in (l : list (string * Z)) (m0 : gmap string Z) g c :
  NoDup (map fst l) -> (g, c) ∈ l ->
  fold_left (fun genreCounts result => <[fst result := snd result]> genreCounts) l m0
    !! g = Some c.
Proof.
  revert m0. induction l as [|[k v] l IH]; intros m0; simpl.
  { by intros _ ?%elem_of_nil. }
  intros [Hk Hl]%NoDup_cons [[= -> ->]|Hin]%elem_of_cons.
  - rewrite fold_insert_notin by done. by rewrite lookup_insert_eq.
  - by apply IH.
Qed.

Lemma GetMovieCountByGenre_ok env userID genres w counts w' :
  (forall groups, Permutation (group_order env groups) groups) ->
  GetMovieCountByGenre env userID genres w = (Ok counts, w') ->
  exists conditions,
    buildGenreMatchPipeline env genres = Some conditions
    /\ genres <> []
    /\ let fields :=
         map Movie.Genre
           (List.filter
              (fun m => existsb (fun matches : string -> bool => matches (Movie.Genre m))
                          conditions)
              (candidates userID w)) in
       forall g, counts !! g
                 = if bool_decide (g ∈ fields) then Some (occurrences g fields) else None.
Proof.
  intros Hperm. unfold GetMovieCountByGenre, bind at 1.
  destruct (GetMoviesToExclude userID w) as [[excludeIDs|e|msg] w1] eqn:E1; [|done..].
  pose proof (GetMoviesToExclude_ok _ _ _ _ E1) as [_ Hex].
  apply reads_GetMoviesToExclude in E1 as (Em & _).
  unfold bind.
  match goal with |- context [driver_query ?q w1] =>
    destruct (driver_query_cases q w1) as [(fs & _ & ->)| -> ]; [done|] end.
  cbn [movies skip_fault set_db_faults]. rewrite Em.
  destruct (stage_match_genres env excludeIDs genres (movies w)) as [found|e|msg] eqn:Es;
    [|done..].
  apply stage_match_genres_ok in Es as (conditions & Eb & Hne & ->).
  intros [= <- <-]. exists conditions. split; [done|]. split; [done|].
  rewrite filter_andb, (candidates_filter userID w excludeIDs (movies w) Hex eq_refl).
  set (fields := map Movie.Genre _). cbn zeta. intros g.
  destruct (group_counts_grouped fields) as (Hnodup & Hcount & Hkeys & _).
  set (groups := group_counts fields) in *.
  pose proof (Hperm groups) as P.
  assert (Hnodup' : NoDup (map fst (group_order env groups))).
  { by rewrite (Permutation_map fst P). }
  destruct (decide (g ∈ fields)) as [Hin|Hnot].
  - rewrite bool_decide_eq_true_2 by done.
    apply Hkeys, list_elem_of_In, in_map_iff in Hin as ([g' c] & Eg & Hgc).
    simpl in Eg. subst g'. apply list_elem_of_In in Hgc.
    rewrite <- (Hcount g c Hgc).
    apply fold_insert_in; [done|]. by rewrite P.
  - rewrite bool_decide_eq_false_2 by done.
    rewrite fold_insert_notin; [done|].
    rewrite (Permutation_map fst P). by rewrite Hkeys.
Qed.

(** X30. The map [GetMovieCountByGenre] returns, with a store whose
    [$group] stage emits each group once in some order: its keys are the
    whole genre fields (not the single genres asked for) of the movies the
    user has neither rated nor watchlisted whose field matches one of the
    genres, and each key's value is the number of these movies with just
    that field. The order of the groups does not show. There is at least
    one genre, since the store refuses the query otherwise. *)
Theorem X30_counts_by_genre_field env userID genres w counts w' :
  (forall groups, Permutation (group_order env groups) groups) ->
  GetMovieCountByGenre env userID genres w = (Ok counts, w') ->
  exists conditions,
    buildGenreMatchPipeline env genres = Some conditions
    /\ genres <> []
    /\ let fields :=
         map Movie.Genre
           (List.filter
              (fun m => existsb (fun matches : string -> bool => matches (Movie.Genre m))
                          conditions)
              (candidates userID w)) in
       forall g, counts !! g
                 = if bool_decide (g ∈ fields) then Some (occurrences g fields) else None.
Proof. apply GetMovieCountByGenre_ok. Qed.

Lemma X30_witness :
  match fst (GetMovieCountByGenre Fixture.env_rev Fixture.user ["Action"]
               (Fixture.five_movies [])) with
  | Ok counts => counts !! "Action, Sci-Fi" = Some 2 /\ counts !! "Sci-Fi" = None
  | _ => False
  end.
Proof.
  destruct (GetMovieCountByGenre Fixture.env_rev Fixture.user ["Action"]
              (Fixture.five_movies [])) as [[counts|e|msg] w'] eqn:E;
    [|vm_compute in E; discriminate E..].
  destruct (X30_counts_by_genre_field Fixture.env_rev Fixture.user ["Action"]
              (Fixture.five_movies []) counts w') as (conditions & Eb & _ & H).
  - intros groups. simpl. symmetry. apply Permutation_rev.
  - exact E.
  - injection Eb as <-. cbn [fst]. split; rewrite H; reflexivity.
Defined.
